(** * humanize.number: a shallow embedding of [src/humanize/number.py]

    The six functions of the module ([ordinal], [intcomma], [intword],
    [apnumber], [fractional], [scientific]) are embedded as Rocq functions
    over a small model of the Python values they receive.  Python integers
    are [Z]; Python floats are IEEE 754 binary64 numbers, carried by the
    Standard Library's [spec_float]; text is [string] (UTF-8 bytes, so the
    superscript glyphs are multi-byte); a raised exception is the [Raise]
    branch of [result].

    The interpreter's recursion limit is not modelled: the self-call of
    [intcomma] is given fuel that is proved sufficient.  The number parsers
    recognise ASCII digits and ASCII white space only. *)

From Stdlib Require Import ZArith QArith Qround Qabs Qpower Bool List.
From Stdlib Require Import Lia Lqa Morphisms.
From Stdlib Require Import Ascii String Decimal DecimalString DecimalPos DecimalN.
From Stdlib Require Import SpecFloat.
From Stdlib Require DecimalFacts.
Import ListNotations.

#[local] Open Scope string_scope.
#[local] Open Scope Z_scope.

(* ================================================================= *)
(** * Python values, exceptions and results *)

Inductive pyval : Type :=
| PyInt (n : Z)
| PyFloat (x : spec_float)
| PyStr (s : string)
| PyNone.

Inductive pyexn : Type :=
| TypeError
| ValueError
| OverflowError
| ZeroDivisionError
| IndexError
| KeyError
| RecursionError.

Inductive result (A : Type) : Type :=
| Ret (a : A)
| Raise (e : pyexn).

Arguments Ret {A} a.
Arguments Raise {A} e.

Definition bind {A B : Type} (c : result A) (k : A -> result B) : result B :=
  match c with
  | Ret a => k a
  | Raise e => Raise e
  end.

Notation "x <- c ;; k" := (bind c (fun x => k))
  (at level 61, c at next level, right associativity).

Notation "' pat <- c ;; k" := (bind c (fun x => match x with pat => k end))
  (at level 61, pat pattern, c at next level, right associativity).

(** [except (TypeError, ValueError):] the handler every function of the
    module uses.  Any other exception goes through. *)
Definition caught (e : pyexn) : bool :=
  match e with
  | TypeError | ValueError => true
  | _ => false
  end.

Definition try_except {A B : Type}
  (body : result A) (handler : result B) (k : A -> result B) : result B :=
  match body with
  | Ret a => k a
  | Raise e => if caught e then handler else Raise e
  end.

(* ================================================================= *)
(** * Text *)

Definition is_space (c : ascii) : bool :=
  (Ascii.eqb c " " || Ascii.eqb c "009" || Ascii.eqb c "010"
   || Ascii.eqb c "011" || Ascii.eqb c "012" || Ascii.eqb c "013")%char.

Definition is_digit (c : ascii) : bool :=
  match uint_of_char c (Some Nil) with
  | Some _ => true
  | None => false
  end.

Fixpoint lstrip (s : string) : string :=
  match s with
  | String c s' => if is_space c then lstrip s' else s
  | EmptyString => s
  end.

Fixpoint rstrip (s : string) : string :=
  match s with
  | String c s' =>
      let r := rstrip s' in
      if is_space c && String.eqb r "" then "" else String c r
  | EmptyString => s
  end.

Definition strip (s : string) : string := rstrip (lstrip s).

(** [strip_prefix p s] is what follows [p] in [s], when [s] starts with [p]. *)
Fixpoint strip_prefix (p s : string) : option string :=
  match p, s with
  | EmptyString, _ => Some s
  | String a p', String b s' =>
      if Ascii.eqb a b then strip_prefix p' s' else None
  | String _ _, EmptyString => None
  end.

(** [needle in s], for a non-empty needle. *)
Fixpoint contains (needle s : string) : bool :=
  match strip_prefix needle s with
  | Some _ => true
  | None =>
      match s with
      | String _ s' => contains needle s'
      | EmptyString => false
      end
  end.

(** [s.replace(old, new)] for a non-empty [old]: left to right, without
    overlap.  The fuel is the length of [s]; each step consumes a
    character. *)
Fixpoint replace_fuel (fuel : nat) (old new s : string) : string :=
  match fuel with
  | O => s
  | S fuel' =>
      match strip_prefix old s with
      | Some rest => new ++ replace_fuel fuel' old new rest
      | None =>
          match s with
          | String c s' => String c (replace_fuel fuel' old new s')
          | EmptyString => s
          end
      end
  end.

Definition replace (old new s : string) : string :=
  replace_fuel (String.length s) old new s.

(** [s.split(sep)] for a one-character separator. *)
Fixpoint split (sep : ascii) (s : string) : list string :=
  match s with
  | EmptyString => [""]
  | String c s' =>
      if Ascii.eqb c sep then "" :: split sep s'
      else match split sep s' with
           | w :: ws => String c w :: ws
           | [] => [String c ""]
           end
  end.

(** [s[:n]] and [s[n:]]. *)
Fixpoint take_str (n : nat) (s : string) : string :=
  match n, s with
  | S n', String c s' => String c (take_str n' s')
  | _, _ => ""
  end.

Fixpoint drop_str (n : nat) (s : string) : string :=
  match n, s with
  | S n', String _ s' => drop_str n' s'
  | _, _ => s
  end.

Definition lower (c : ascii) : ascii :=
  let n := nat_of_ascii c in
  if (65 <=? n)%nat && (n <=? 90)%nat then ascii_of_nat (n + 32) else c.

Fixpoint lower_string (s : string) : string :=
  match s with
  | String c s' => String (lower c) (lower_string s')
  | EmptyString => s
  end.

(* ================================================================= *)
(** * Decimal numerals *)

(** [str(n)] and ["%d" % n] for a Python integer. *)
Definition str_of_N (n : N) : string := NilEmpty.string_of_uint (N.to_uint n).

Definition str_of_Z (n : Z) : string :=
  if n <? 0 then "-" ++ str_of_N (Z.abs_N n) else str_of_N (Z.abs_N n).

(** A run [digit ("_"? digit)*] at the head of [s]: Python's numerals allow
    single underscores between digits.  The digits come back as a
    [Decimal.uint], [Nil] when [s] does not start with a digit. *)
Fixpoint scan_digits (s : string) : uint * string :=
  match s with
  | EmptyString => (Nil, s)
  | String c s' =>
      match uint_of_char c (Some Nil) with
      | None => (Nil, s)
      | Some _ =>
          let '(u, rest) :=
            match s' with
            | String c1 t =>
                if Ascii.eqb c1 "_" then
                  match t with
                  | String c2 _ =>
                      if is_digit c2 then scan_digits t else (Nil, s')
                  | EmptyString => (Nil, s')
                  end
                else scan_digits s'
            | EmptyString => (Nil, s')
            end in
          match uint_of_char c (Some u) with
          | Some u' => (u', rest)
          | None => (Nil, s)
          end
      end
  end.

(** An optional sign at the head of [s]: [true] for ["-"]. *)
Definition scan_sign (s : string) : bool * string :=
  match s with
  | String c s' =>
      if Ascii.eqb c "-" then (true, s')
      else if Ascii.eqb c "+" then (false, s')
      else (false, s)
  | EmptyString => (false, s)
  end.

(** [int(s)] for text, base 10. *)
Definition int_of_str (s : string) : result Z :=
  let '(neg, s1) := scan_sign (strip s) in
  match scan_digits s1 with
  | (Nil, _) => Raise ValueError
  | (u, EmptyString) =>
      let n := Z.of_N (N.of_uint u) in
      Ret (if neg then - n else n)
  | (_, String _ _) => Raise ValueError
  end.

(* ================================================================= *)
(** * Sequences *)

(** [t[i]] on a tuple or list: negative indices count from the end. *)
Definition getitem {A : Type} (t : list A) (i : Z) : result A :=
  let len := Z.of_nat (List.length t) in
  let j := if i <? 0 then i + len else i in
  if (j <? 0) || (len <=? j) then Raise IndexError
  else match nth_error t (Z.to_nat j) with
       | Some a => Ret a
       | None => Raise IndexError
       end.

Fixpoint mem_Z (x : Z) (l : list Z) : bool :=
  match l with
  | [] => false
  | y :: l' => (x =? y) || mem_Z x l'
  end.

(* ================================================================= *)
(** * Floats

    A Python float is an IEEE 754 binary64 number.  Every operation
    computes the exact rational result and rounds it once, to nearest with
    ties to even, which is what IEEE 754 prescribes and what CPython's
    correctly rounded [float()], [%] formatting and [repr] do. *)

Definition prec : Z := 53.
Definition emax : Z := 1024.

(** The rational a finite float stands for. *)
Definition SF2Q (x : spec_float) : Q :=
  match x with
  | S754_finite s m e =>
      ((if s then -1 else 1) * inject_Z (Zpos m) * 2 ^ e)%Q
  | _ => 0%Q
  end.

Definition sign_of (x : spec_float) : bool :=
  match x with
  | S754_zero s | S754_infinity s | S754_finite s _ _ => s
  | S754_nan => false
  end.

Definition is_finite (x : spec_float) : bool :=
  match x with
  | S754_zero _ | S754_finite _ _ _ => true
  | _ => false
  end.

(** The nearest integer, ties to the even one. *)
Definition rneQ (q : Q) : Z :=
  let f := Qfloor q in
  match (q - inject_Z f ?= 1 # 2)%Q with
  | Lt => f
  | Gt => f + 1
  | Eq => if Z.even f then f else f + 1
  end.

(** [floor (log2 q)] for [0 < q]. *)
Definition Qlog2 (q : Q) : Z :=
  let k := Z.log2 (Qnum q) - Z.log2 (Zpos (Qden q)) in
  if Qle_bool (2 ^ k) q then k else k - 1.

(** The binary64 number nearest to the magnitude [q], with sign [s]:
    the exponent is that of the binade of [q] (or the subnormal one), the
    mantissa is [q] scaled and rounded, and a mantissa that rounds up to
    [2 ^ 53] moves to the next binade. *)
Definition round_float (s : bool) (q : Q) : spec_float :=
  if Qle_bool q 0 then S754_zero s
  else
    let e := fexp prec emax (Qlog2 q + 1) in
    let m := rneQ (q * 2 ^ (- e)) in
    match m with
    | Zpos p =>
        if emax <=? Z.log2 m + e then S754_infinity s
        else if m =? 2 ^ prec then
          S754_finite s (Z.to_pos (2 ^ (prec - 1))) (e + 1)
        else S754_finite s p e
    | _ => S754_zero s
    end.

(** [float(n)] for an integer: too large a magnitude raises. *)
Definition float_of_Z (n : Z) : result spec_float :=
  match round_float (n <? 0) (inject_Z (Z.abs n)) with
  | S754_infinity _ => Raise OverflowError
  | x => Ret x
  end.

(** [x / y] on floats. *)
Definition float_div (x y : spec_float) : result spec_float :=
  match x, y with
  | _, S754_zero _ => Raise ZeroDivisionError
  | S754_nan, _ | _, S754_nan => Ret S754_nan
  | S754_infinity _, S754_infinity _ => Ret S754_nan
  | S754_infinity sx, S754_finite sy _ _ => Ret (S754_infinity (xorb sx sy))
  | S754_finite sx _ _, S754_infinity sy => Ret (S754_zero (xorb sx sy))
  | S754_zero sx, S754_infinity sy => Ret (S754_zero (xorb sx sy))
  | S754_zero sx, S754_finite sy _ _ => Ret (S754_zero (xorb sx sy))
  | S754_finite sx mx ex, S754_finite sy my ey =>
      Ret (round_float (xorb sx sy)
             (inject_Z (Zpos mx) * 2 ^ ex / (inject_Z (Zpos my) * 2 ^ ey)))
  end.

(** [x - y] on floats. *)
Definition float_sub (x y : spec_float) : spec_float :=
  match x, y with
  | S754_nan, _ | _, S754_nan => S754_nan
  | S754_infinity sx, S754_infinity sy =>
      if Bool.eqb sx sy then S754_nan else x
  | S754_infinity _, _ => x
  | _, S754_infinity sy => S754_infinity (negb sy)
  | S754_zero sx, S754_zero sy =>
      if Bool.eqb sx sy then S754_zero false else x
  | S754_zero _, S754_finite sy my ey => S754_finite (negb sy) my ey
  | _, S754_zero _ => x
  | S754_finite _ _ _, S754_finite _ _ _ =>
      let d := (SF2Q x - SF2Q y)%Q in
      if Qeq_bool d 0 then S754_zero false
      else round_float (negb (Qle_bool 0 d)) (Qabs d)
  end.

(** [x == y] on floats. *)
Definition float_eqb (x y : spec_float) : bool := SFeqb x y.

(** [int(x)]: truncation toward zero. *)
Definition trunc_float (x : spec_float) : result Z :=
  match x with
  | S754_zero _ => Ret 0
  | S754_infinity _ => Raise OverflowError
  | S754_nan => Raise ValueError
  | S754_finite s m e =>
      let a := if 0 <=? e then Zpos m * 2 ^ e else Zpos m / 2 ^ (- e) in
      Ret (if s then - a else a)
  end.

(** ** Text to float *)

Definition scan_char (c : ascii) (s : string) : option string :=
  match s with
  | String c' s' => if Ascii.eqb (lower c') c then Some s' else None
  | EmptyString => None
  end.

(** The exponent part of a decimal numeral, or nothing at all: the power
    of ten it denotes. *)
Definition scan_exponent (s : string) : option Z :=
  match scan_char "e" s with
  | None =>
      match s with
      | EmptyString => Some 0
      | String _ _ => None
      end
  | Some r =>
      let '(neg, r') := scan_sign r in
      match scan_digits r' with
      | (Nil, _) => None
      | (u, EmptyString) =>
          let x := Z.of_N (N.of_uint u) in
          Some (if neg then - x else x)
      | (_, String _ _) => None
      end
  end.

(** The decimal numeral grammar of [float()]: digits with an optional
    fraction and an optional exponent; at least one digit before or after
    the point.  The result is the mantissa as an integer and the power of
    ten it is scaled by. *)
Definition scan_decimal (s : string) : option (N * Z) :=
  let '(u1, r1) := scan_digits s in
  let '(u2, r2) :=
    match scan_char "." r1 with
    | Some r => scan_digits r
    | None => (Nil, r1)
    end in
  match u1, u2 with
  | Nil, Nil => None
  | _, _ =>
      match scan_exponent r2 with
      | Some x => Some (N.of_uint (app u1 u2), x - Z.of_nat (nb_digits u2))
      | None => None
      end
  end.

(** [float(s)] for text. *)
Definition float_of_str (s : string) : result spec_float :=
  let '(neg, body) := scan_sign (strip s) in
  let name := lower_string body in
  if String.eqb name "inf" || String.eqb name "infinity" then
    Ret (S754_infinity neg)
  else if String.eqb name "nan" then Ret S754_nan
  else
    match scan_decimal body with
    | Some (mant, shift) =>
        Ret (round_float neg (inject_Z (Z.of_N mant) * 10 ^ shift))
    | None => Raise ValueError
    end.

(** ** Float to text *)

Fixpoint zeros (n : nat) : string :=
  match n with
  | O => ""
  | S n' => String "0" (zeros n')
  end.

(** The decimal digits of [n], padded with zeros on the left to [width]. *)
Definition pad_digits (width : nat) (n : N) : string :=
  let d := str_of_N n in
  zeros (width - String.length d) ++ d.

(** An integer [t] shown with the decimal point [p] digits from the
    right. *)
Definition show_scaled (p : nat) (t : Z) : string :=
  let unit := 10 ^ Z.of_nat p in
  let whole := str_of_N (Z.to_N (t / unit)) in
  match p with
  | O => whole
  | S _ => whole ++ "." ++ pad_digits p (Z.to_N (t mod unit))
  end.

(** ["%.<p>f" % x]: [p] decimals, correctly rounded. *)
Definition fmt_fixed (p : nat) (x : spec_float) : string :=
  match x with
  | S754_nan => "nan"
  | S754_infinity s => if s then "-inf" else "inf"
  | _ =>
      let t := rneQ (Qabs (SF2Q x) * 10 ^ Z.of_nat p) in
      (if sign_of x then "-" else "") ++ show_scaled p t
  end.

(** The largest precision that a format accepts (C's [INT_MAX]): a
    larger one is refused, by ["%.<p>f" % x] and by [format] alike, with
    [ValueError]. *)
Definition INT_MAX : Z := 2147483647.

(** The largest precision that a format specification can hold (C's
    [PY_SSIZE_T_MAX], on a 64-bit build): a larger one is refused when the
    specification is read. *)
Definition PY_SSIZE_T_MAX : Z := 9223372036854775807.

(** ["%.<p>f" % x] as Python evaluates it: the precision is checked
    first. *)
Definition format_fixed (p : nat) (x : spec_float) : result string :=
  if INT_MAX <? Z.of_nat p then Raise ValueError else Ret (fmt_fixed p x).

(** [floor (log10 q)] for [0 < q]. *)
Definition Qlog10 (q : Q) : Z :=
  let digits n := Z.of_nat (nb_digits (N.to_uint (Z.to_N n))) in
  let k := digits (Qnum q) - digits (Zpos (Qden q)) in
  if Qle_bool (10 ^ k) q then k else k - 1.

(** The exponent field of the ["e"] notation: a sign and at least two
    digits. *)
Definition show_exponent (x : Z) : string :=
  (if x <? 0 then "-" else "+") ++ pad_digits 2 (Z.abs_N x).

(** ["{:.<p>e}".format(x)]: one digit, [p] decimals and the exponent. *)
Definition fmt_exp (p : nat) (x : spec_float) : string :=
  match x with
  | S754_nan => "nan"
  | S754_infinity s => if s then "-inf" else "inf"
  | S754_zero s => (if s then "-" else "") ++ show_scaled p 0 ++ "e+00"
  | S754_finite s _ _ =>
      let q := Qabs (SF2Q x) in
      let x10 := Qlog10 q in
      let t := rneQ (q * 10 ^ (Z.of_nat p - x10)) in
      let '(t, x10) :=
        if t =? 10 ^ (Z.of_nat p + 1) then (10 ^ Z.of_nat p, x10 + 1)
        else (t, x10) in
      (if s then "-" else "") ++ show_scaled p t ++ "e" ++ show_exponent x10
  end.

(** The shortest decimal that reads back as [x], as [repr] looks for it:
    for 1, 2, ... up to 17 significant digits, the two decimals of that
    length around [x]; the first length at which one of them rounds to [x]
    wins, the nearer one if both do.  The result is the digits as an
    integer and the decimal exponent of the first digit. *)
Fixpoint shortest_digits (fuel : nat) (ndigits : Z) (x : spec_float)
  : Z * Z :=
  let q := Qabs (SF2Q x) in
  let x10 := Qlog10 q in
  let scale := (10 ^ (ndigits - 1 - x10))%Q in
  let lo := Qfloor (q * scale) in
  let hi := lo + 1 in
  let reads t := SFeqb (round_float false (inject_Z t / scale)) (SFabs x) in
  let nearer_lo := Qle_bool (q * scale - inject_Z lo) (inject_Z hi - q * scale) in
  let pick t :=
    if t =? 10 ^ ndigits then (10 ^ (ndigits - 1), x10 + 1) else (t, x10) in
  match fuel with
  | O => pick (rneQ (q * scale))
  | S fuel' =>
      match reads lo, reads hi with
      | true, true => pick (if nearer_lo then lo else hi)
      | true, false => pick lo
      | false, true => pick hi
      | false, false => shortest_digits fuel' (ndigits + 1) x
      end
  end.

(** Trailing zeros of the digit string carry no information. *)
Fixpoint strip_zeros_fuel (fuel : nat) (t : Z) : Z :=
  match fuel with
  | O => t
  | S fuel' =>
      if (t =? 0) || negb (t mod 10 =? 0) then t
      else strip_zeros_fuel fuel' (t / 10)
  end.

(** [repr(x)], which is also [str(x)]. *)
Definition float_repr (x : spec_float) : string :=
  match x with
  | S754_nan => "nan"
  | S754_infinity s => if s then "-inf" else "inf"
  | S754_zero s => if s then "-0.0" else "0.0"
  | S754_finite s _ _ =>
      let '(t, x10) := shortest_digits 16 1 x in
      let t := strip_zeros_fuel 17 t in
      let digits := str_of_N (Z.to_N t) in
      let n := Z.of_nat (String.length digits) in
      let body :=
        if (x10 <? -4) || (16 <=? x10) then
          take_str 1 digits
          ++ (if n =? 1 then "" else "." ++ drop_str 1 digits)
          ++ "e" ++ show_exponent x10
        else if x10 <? 0 then
          "0." ++ zeros (Z.to_nat (- x10 - 1)) ++ digits
        else if n - 1 <=? x10 then
          digits ++ zeros (Z.to_nat (x10 - (n - 1))) ++ ".0"
        else
          take_str (Z.to_nat (x10 + 1)) digits ++ "."
          ++ drop_str (Z.to_nat (x10 + 1)) digits in
      (if s then "-" else "") ++ body
  end.

(** ** Conversions of Python values *)

(** [int(value)]. *)
Definition int_ (value : pyval) : result Z :=
  match value with
  | PyInt n => Ret n
  | PyFloat x => trunc_float x
  | PyStr s => int_of_str s
  | PyNone => Raise TypeError
  end.

(** [float(value)]. *)
Definition float_ (value : pyval) : result spec_float :=
  match value with
  | PyInt n => float_of_Z n
  | PyFloat x => Ret x
  | PyStr s => float_of_str s
  | PyNone => Raise TypeError
  end.

(** [str(value)]. *)
Definition str_ (value : pyval) : string :=
  match value with
  | PyInt n => str_of_Z n
  | PyFloat x => float_repr x
  | PyStr s => s
  | PyNone => "None"
  end.

(* ================================================================= *)
(** * The translation functions of [humanize.i18n] *)

Module I18n.

(** Modelled from the spec: [humanize/i18n.py] is not part of the sources
    at hand.  The spec gives the Translator's [translate(message_id)] as a
    "simple lookup/passthrough" and [translate_with_context(context,
    message_id)] as the same lookup with a context tag; with no catalogue
    loaded both return the message itself. *)
Definition gettext (message : string) : string := message.

Definition pgettext (msgctxt message : string) : string := message.

Definition gettext_noop (message : string) : string := message.

End I18n.

Notation "'P_'" := I18n.pgettext (only parsing).
Notation "'N_'" := I18n.gettext_noop (only parsing).

(* ================================================================= *)
(** * [ordinal] *)

Definition ordinal_suffixes : list string :=
  [ P_ "0" "th"; P_ "1" "st"; P_ "2" "nd"; P_ "3" "rd"; P_ "4" "th";
    P_ "5" "th"; P_ "6" "th"; P_ "7" "th"; P_ "8" "th"; P_ "9" "th" ].

Definition ordinal (value : pyval) : result pyval :=
  try_except (int_ value) (Ret value) (fun value =>
    let t := ordinal_suffixes in
    if mem_Z (value mod 100) [11; 12; 13] then
      suffix <- getitem t 0 ;;
      Ret (PyStr (str_of_Z value ++ suffix))
    else
      suffix <- getitem t (value mod 10) ;;
      Ret (PyStr (str_of_Z value ++ suffix))).

(* ================================================================= *)
(** * [apnumber] *)

Definition apnumber_words : list string :=
  [ I18n.gettext "one"; I18n.gettext "two"; I18n.gettext "three";
    I18n.gettext "four"; I18n.gettext "five"; I18n.gettext "six";
    I18n.gettext "seven"; I18n.gettext "eight"; I18n.gettext "nine" ].

Definition apnumber (value : pyval) : result pyval :=
  try_except (int_ value) (Ret value) (fun value =>
    if negb ((0 <? value) && (value <? 10)) then Ret (PyStr (str_of_Z value))
    else
      word <- getitem apnumber_words (value - 1) ;;
      Ret (PyStr word)).

(* ================================================================= *)
(** * [intcomma] *)

(** The maximal run of ASCII digits at the head of [s], and what follows. *)
Fixpoint span_digits (s : string) : string * string :=
  match s with
  | String c s' =>
      if is_digit c then
        let '(run, rest) := span_digits s' in (String c run, rest)
      else ("", s)
  | EmptyString => ("", s)
  end.

(** [re.sub(r"^(-?\d+)(\d{3})", r"\g<1>,\g<2>", s)].  The pattern is
    anchored at the start, so there is at most one match: an optional
    minus sign and a run of digits.  [\d+] is greedy and gives back exactly
    the three digits that [\d{3}] needs, so the two groups split the whole
    leading run of digits before its last three, and the run must have
    four digits at least. *)
Definition re_sub_thousands (s : string) : string :=
  let '(sign, body) :=
    match strip_prefix "-" s with
    | Some body => ("-", body)
    | None => ("", s)
    end in
  let '(run, rest) := span_digits body in
  let n := String.length run in
  if (4 <=? n)%nat then
    sign ++ take_str (n - 3) run ++ "," ++ drop_str (n - 3) run ++ rest
  else s.

(** The [try] block of [intcomma]: the value, or the text without its
    commas, must convert to a float. *)
Definition intcomma_try (value : pyval) : result spec_float :=
  match value with
  | PyStr s => float_of_str (replace "," "" s)
  | _ => float_ value
  end.

(** The body of [intcomma]; the fuel bounds the depth of the self-call. *)
Fixpoint intcomma_fuel (fuel : nat) (value : pyval) : result pyval :=
  match fuel with
  | O => Raise RecursionError
  | S fuel' =>
      try_except (intcomma_try value) (Ret value) (fun _ =>
        let orig := str_ value in
        let new := re_sub_thousands orig in
        if String.eqb orig new then Ret (PyStr new)
        else intcomma_fuel fuel' (PyStr new))
  end.

Definition intcomma (value : pyval) : result pyval :=
  intcomma_fuel (S (String.length (str_ value))) value.

(* ================================================================= *)
(** * [intword] *)

Definition powers : list Z :=
  map (fun x => 10 ^ x) [6; 9; 12; 15; 18; 21; 24; 27; 30; 33; 100].

Definition human_powers : list string :=
  [ N_ "million"; N_ "billion"; N_ "trillion"; N_ "quadrillion";
    N_ "quintillion"; N_ "sextillion"; N_ "septillion"; N_ "octillion";
    N_ "nonillion"; N_ "decillion"; N_ "googol" ].

Fixpoint enumerate {A : Type} (l : list A) (start : Z) : list (Z * A) :=
  match l with
  | [] => []
  | a :: l' => (start, a) :: enumerate l' (start + 1)
  end.

(** [value / y] for an integer [value] and a float [y]: the integer is
    converted first. *)
Definition int_truediv_float (value : Z) (y : spec_float)
  : result spec_float :=
  x <- float_of_Z value ;;
  float_div x y.

(** [(" ".join([format, word])) % chopped]. *)
Definition join_format (decimals : nat) (word : string) (chopped : spec_float)
  : result string :=
  text <- format_fixed decimals chopped ;;
  Ret (text ++ " " ++ word).

(** The [for] loop of [intword] over [enumerate(powers[1:], 1)]; [None]
    when the loop runs to its end.  The formatting is outside the [try] of
    [intword]: what it raises, the loop raises. *)
Fixpoint intword_loop (decimals : nat) (value : Z) (items : list (Z * Z))
  : result (option string) :=
  match items with
  | [] => Ret None
  | (ordinal, power) :: items' =>
      if value <? power then
        below <- getitem powers (ordinal - 1) ;;
        fbelow <- float_of_Z below ;;
        chopped <- int_truediv_float value fbelow ;;
        text <- format_fixed decimals chopped ;;
        shown <- float_of_str text ;;
        thousand <- float_of_Z (10 ^ 3) ;;
        if float_eqb shown thousand then
          above <- getitem powers ordinal ;;
          fabove <- float_of_Z above ;;
          chopped <- int_truediv_float value fabove ;;
          word <- getitem human_powers ordinal ;;
          text <- join_format decimals (I18n.gettext word) chopped ;;
          Ret (Some text)
        else
          word <- getitem human_powers (ordinal - 1) ;;
          text <- join_format decimals (I18n.gettext word) chopped ;;
          Ret (Some text)
      else intword_loop decimals value items'
  end.

(** [intword(value, format)] for a [format] of the shape
    ["%.<decimals>f"].  The format is used in the loop only: a number of
    decimals above [INT_MAX] raises there, and nowhere else. *)
Definition intword_format (decimals : nat) (value : pyval) : result pyval :=
  try_except (int_ value) (Ret value) (fun value =>
    first <- getitem powers 0 ;;
    if value <? first then Ret (PyStr (str_of_Z value))
    else
      found <- intword_loop decimals value (enumerate (tl powers) 1) ;;
      match found with
      | Some text => Ret (PyStr text)
      | None => Ret (PyStr (str_of_Z value))
      end).

(** [intword(value)], with the default [format="%.1f"]. *)
Definition intword (value : pyval) : result pyval := intword_format 1 value.

(* ================================================================= *)
(** * [fractional] *)

(** ** The part of Python's [fractions.Fraction] that [fractional] uses *)

Record fraction : Type := { numerator : Z; denominator : Z }.

(** [Fraction(n, d)]: lowest terms, positive denominator. *)
Definition Fraction (n d : Z) : result fraction :=
  if d =? 0 then Raise ZeroDivisionError
  else
    let g := Z.gcd n d in
    let g := if d <? 0 then - g else g in
    Ret {| numerator := n / g; denominator := d / g |}.

(** [Fraction(x)] for a float: its exact value. *)
Definition fraction_of_float (x : spec_float) : result fraction :=
  match x with
  | S754_nan => Raise ValueError
  | S754_infinity _ => Raise OverflowError
  | S754_zero _ => Ret {| numerator := 0; denominator := 1 |}
  | S754_finite s m e =>
      let n := if s then Zneg m else Zpos m in
      if 0 <=? e then Ret {| numerator := n * 2 ^ e; denominator := 1 |}
      else Fraction n (2 ^ (- e))
  end.

(** [abs(a - x) <= abs(b - x)] on fractions. *)
Definition closer_or_equal (a b x : fraction) : bool :=
  let dist c :=
    (Z.abs (numerator c * denominator x - numerator x * denominator c),
     denominator c * denominator x) in
  let '(na, da) := dist a in
  let '(nb, db) := dist b in
  na * db <=? nb * da.

(** The [while True] loop of [limit_denominator]: the continued fraction
    of [n/d], convergent after convergent, until the next denominator
    would pass the bound.  It returns the last two convergents.  The fuel
    only makes the recursion structural; [limit_denominator] gives it
    more than the loop can use. *)
Fixpoint convergents (fuel : nat) (max_denominator p0 q0 p1 q1 n d : Z)
  : result (Z * Z * Z * Z) :=
  match fuel with
  | O => Raise RecursionError
  | S fuel' =>
      if d =? 0 then Raise ZeroDivisionError
      else
        let a := n / d in
        let q2 := q0 + a * q1 in
        if max_denominator <? q2 then Ret (p0, q0, p1, q1)
        else convergents fuel' max_denominator
               p1 q1 (p0 + a * p1) q2 d (n - a * d)
  end.

(** [x.limit_denominator(max_denominator)]. *)
Definition limit_denominator (x : fraction) (max_denominator : Z)
  : result fraction :=
  if max_denominator <? 1 then Raise ValueError
  else if denominator x <=? max_denominator then Ret x
  else
    '(p0, q0, p1, q1) <-
      convergents (Z.to_nat (3 * max_denominator + 3)) max_denominator
        0 1 1 0 (numerator x) (denominator x) ;;
    if q1 =? 0 then Raise ZeroDivisionError
    else
      let k := (max_denominator - q0) / q1 in
      bound1 <- Fraction (p0 + k * p1) (q0 + k * q1) ;;
      bound2 <- Fraction p1 q1 ;;
      if closer_or_equal bound2 bound1 x then Ret bound2 else Ret bound1.

(** ["%.0f" % n] and ["{:.0f}".format(n)] for an integer [n]: the integer
    is converted to a float first. *)
Definition fmt_fixed0_int (n : Z) : result string :=
  x <- float_of_Z n ;;
  Ret (fmt_fixed 0 x).

Definition fractional (value : pyval) : result pyval :=
  try_except (float_ value) (Ret value) (fun number =>
    whole_number <- trunc_float number ;;
    fwhole <- float_of_Z whole_number ;;
    exact <- fraction_of_float (float_sub number fwhole) ;;
    frac <- limit_denominator exact 1000 ;;
    let numerator := numerator frac in
    let denominator := denominator frac in
    if negb (whole_number =? 0) && (numerator =? 0) && (denominator =? 1)
    then
      w <- fmt_fixed0_int whole_number ;;
      Ret (PyStr w)
    else if whole_number =? 0 then
      n <- fmt_fixed0_int numerator ;;
      d <- fmt_fixed0_int denominator ;;
      Ret (PyStr (n ++ "/" ++ d))
    else
      w <- fmt_fixed0_int whole_number ;;
      n <- fmt_fixed0_int numerator ;;
      d <- fmt_fixed0_int denominator ;;
      Ret (PyStr (w ++ " " ++ n ++ "/" ++ d))).

(* ================================================================= *)
(** * [scientific] *)

(** The glyph table; the values are the UTF-8 text of the superscripts. *)
Definition exponents : list (ascii * string) :=
  [ ("0"%char, "⁰"); ("1"%char, "¹"); ("2"%char, "²"); ("3"%char, "³");
    ("4"%char, "⁴"); ("5"%char, "⁵"); ("6"%char, "⁶"); ("7"%char, "⁷");
    ("8"%char, "⁸"); ("9"%char, "⁹"); ("+"%char, "⁺"); ("-"%char, "⁻") ].

(** [table[key]] on a dict. *)
Fixpoint lookup (table : list (ascii * string)) (key : ascii)
  : result string :=
  match table with
  | [] => Raise KeyError
  | (k, v) :: table' => if Ascii.eqb k key then Ret v else lookup table' key
  end.

(** The [for char in part2] loop: the glyph of each character, in order. *)
Fixpoint glyphs (part2 : string) : result (list string) :=
  match part2 with
  | EmptyString => Ret []
  | String char part2' =>
      g <- lookup exponents char ;;
      gs <- glyphs part2' ;;
      Ret (g :: gs)
  end.

(** [("{:.%se}" % str(int(precision))).format(value)].  A negative
    precision makes a format specification that [format] refuses when it
    reads it, and so does a precision above [PY_SSIZE_T_MAX]; a precision
    above [INT_MAX] is refused when the float is formatted, which for an
    integer is after its conversion to a float.  Each refusal is a
    [ValueError]. *)
Definition format_exp (precision : Z) (value : pyval) : result string :=
  match value with
  | PyNone => Raise TypeError
  | PyStr _ => Raise ValueError
  | PyInt n =>
      if (precision <? 0) || (PY_SSIZE_T_MAX <? precision)
      then Raise ValueError
      else
        x <- float_of_Z n ;;
        if INT_MAX <? precision then Raise ValueError
        else Ret (fmt_exp (Z.to_nat precision) x)
  | PyFloat x =>
      if (precision <? 0) || (INT_MAX <? precision) then Raise ValueError
      else Ret (fmt_exp (Z.to_nat precision) x)
  end.

Definition scientific_precision (precision : Z) (value : pyval)
  : result pyval :=
  let negative := contains "-" (str_ value) in
  let value :=
    if negative then PyStr (replace "-" "" (str_ value)) else value in
  try_except
    (match value with
     | PyStr s => x <- float_of_str s ;; Ret (PyFloat x)
     | _ => Ret value
     end)
    (Ret value)
    (fun value =>
       try_except (format_exp precision value) (Ret value) (fun n =>
         match split "e" n with
         | [part1; part2] =>
             let part2 :=
               if contains "-0" part2 then replace "-0" "-" part2
               else part2 in
             let part2 :=
               if contains "+0" part2 then replace "+0" "" part2
               else part2 in
             new_part2 <-
               (if negative then
                  minus <- lookup exponents "-" ;; Ret [minus]
                else Ret []) ;;
             rest <- glyphs part2 ;;
             let final_str :=
               part1 ++ " x 10" ++ String.concat "" (new_part2 ++ rest) in
             Ret (PyStr final_str)
         | _ => Raise ValueError
         end)).

(** [scientific(value)], with the default [precision=2]. *)
Definition scientific (value : pyval) : result pyval :=
  scientific_precision 2 value.

(* ================================================================= *)
(** * Specification-side definitions *)

(** The suffix table as the specification words it: a map from the last
    decimal digit. *)
Definition spec_suffix (digit : Z) : string :=
  if digit =? 1 then "st"
  else if digit =? 2 then "nd"
  else if digit =? 3 then "rd"
  else "th".

(** Thousands grouping as the specification words it, read from the left:
    a comma follows every digit that has a positive multiple of three
    digits to its right. *)
Fixpoint group3 (digits : string) : string :=
  match digits with
  | EmptyString => ""
  | String c rest =>
      let n := String.length rest in
      if (0 <? n)%nat && (n mod 3 =? 0)%nat then
        String c ("," ++ group3 rest)
      else String c (group3 rest)
  end.

(** The text of a number with its integer digits grouped: an optional
    leading minus sign, the leading run of digits with commas, and the rest
    (decimal point, fraction, exponent) as it was. *)
Definition spec_grouped (s : string) : string :=
  let '(sign, body) :=
    match strip_prefix "-" s with
    | Some body => ("-", body)
    | None => ("", s)
    end in
  let '(run, rest) := span_digits body in
  sign ++ group3 run ++ rest.

(** The English words for one to nine. *)
Definition spec_word (n : Z) : string :=
  match n with
  | 1 => "one" | 2 => "two" | 3 => "three" | 4 => "four" | 5 => "five"
  | 6 => "six" | 7 => "seven" | 8 => "eight" | 9 => "nine"
  | _ => ""
  end.

(* ================================================================= *)
(** * Notions used in the statements and proofs *)

(** Text made of ASCII digits only. *)
Fixpoint all_digits (s : string) : bool :=
  match s with
  | String c s' => is_digit c && all_digits s'
  | EmptyString => true
  end.

(** Text that does not start with a digit. *)
Definition head_not_digit (s : string) : Prop :=
  match s with
  | String c _ => is_digit c = false
  | EmptyString => True
  end.

(** [s] without the occurrences of [c]. *)
Fixpoint remove_char (c : ascii) (s : string) : string :=
  match s with
  | String b s' =>
      if Ascii.eqb c b then remove_char c s' else String b (remove_char c s')
  | EmptyString => ""
  end.

(** The parts the pattern of [intcomma] looks at: the optional minus sign,
    the run of digits after it, and the rest. *)
Definition split_number (s : string) : string * string * string :=
  let '(sign, body) :=
    match strip_prefix "-" s with
    | Some body => ("-", body)
    | None => ("", s)
    end in
  let '(run, rest) := span_digits body in
  (sign, run, rest).

(** Every character of [s] satisfies [P]. *)
Fixpoint all_chars (P : ascii -> bool) (s : string) : bool :=
  match s with
  | String c s' => P c && all_chars P s'
  | EmptyString => true
  end.

(** The characters of a decimal numeral. *)
Definition is_numeral_char (c : ascii) : bool :=
  (is_digit c || Ascii.eqb c "-" || Ascii.eqb c "+" || Ascii.eqb c "."
   || Ascii.eqb c "e")%char.

(** Text at which a run of digits ends. *)
Definition ends_digits (s : string) : Prop :=
  match s with
  | String c _ => is_digit c = false /\ Ascii.eqb c "_" = false
  | EmptyString => True
  end.

(** The exponent part of a numeral, possibly absent. *)
Definition exponent_text (s : string) : Prop :=
  s = "" \/
  exists sign digits,
    s = "e" ++ sign ++ digits
    /\ (sign = "" \/ sign = "+" \/ sign = "-")
    /\ all_digits digits = true /\ digits <> "".

(** The fraction part of a numeral, possibly absent. *)
Definition fraction_text (s : string) : Prop :=
  s = "" \/ exists digits, s = "." ++ digits /\ all_digits digits = true.

(** A magnitude with a sign. *)
Definition signed (s : bool) (q : Q) : Q := if s then (- q)%Q else q.

(** Truncation toward zero. *)
Definition Qtrunc (q : Q) : Z :=
  if Qle_bool 0 q then Qfloor q else - Qfloor (- q).

(** The rational a fraction stands for. *)
Definition Qfrac (f : fraction) : Q :=
  (inject_Z (numerator f) / inject_Z (denominator f))%Q.

(** An integer that a float holds exactly. *)
Definition representable (z : Z) : Prop :=
  z = 0 \/
  exists (m0 : positive) (e0 : Z),
    0 <= e0 /\ Z.abs z = Zpos m0 * 2 ^ e0
    /\ Z.log2 (Zpos m0) < prec /\ Z.log2 (Zpos m0) + e0 < emax.

(** The three output rules of [fractional], on the whole part and the
    approximating fraction. *)
Definition spec_fractional (whole n d : Z) : string :=
  if negb (whole =? 0) && (n =? 0) && (d =? 1) then str_of_Z whole
  else if whole =? 0 then str_of_Z n ++ "/" ++ str_of_Z d
  else str_of_Z whole ++ " " ++ str_of_Z n ++ "/" ++ str_of_Z d.

(** The magnitude of a finite float. *)
Definition magnitude (m : positive) (e : Z) : Q :=
  (inject_Z (Zpos m) * 2 ^ e)%Q.

(** What holds each time the loop of [limit_denominator] is entered, for
    the fraction [N/D] and the bound [max]. *)
Definition cf_inv (max N D p0 q0 p1 q1 n d : Z) : Prop :=
  0 < d /\ Z.gcd n d = 1 /\ q1 * n + q0 * d = D
  /\ 0 <= q0 <= max /\ 0 <= q1 <= max
  /\ ((p0 = 0 /\ p1 = 1 /\ q0 = 1 /\ q1 = 0 /\ n = N /\ d = D)
      \/ (p0 = 1 /\ q0 = 0 /\ q1 = 1 /\ d < n
          /\ (0 <= N /\ p1 = 0 \/ N < 0 /\ p1 = -1))
      \/ (1 <= q1 /\ d < n
          /\ (0 <= N -> 0 <= p0 <= q0 /\ 0 <= p1 <= q1)
          /\ (N < 0 -> - q0 <= p0 <= 0 /\ - q1 <= p1 <= 0))).

(** What holds when that loop is left. *)
Definition cf_exit (max N p0 q0 p1 q1 : Z) : Prop :=
  let k := (max - q0) / q1 in
  1 <= q1 <= max /\ 1 <= q0 + k * q1 <= max
  /\ (0 <= N -> 0 <= p1 <= q1 /\ 0 <= p0 + k * p1 <= q0 + k * q1)
  /\ (N < 0 -> - q1 <= p1 <= 0 /\ - (q0 + k * q1) <= p0 + k * p1 <= 0).

(** ** The brackets of [intword] *)

(** The mantissa of [intword] in tenths, as ["%.1f"] rounds it. *)
Definition tenths (c : spec_float) : Z := rneQ (Qabs (SF2Q c) * 10 ^ 1).

(** [1000.0], and floats just above [1000.0] and [1.0]. *)
Definition thousand : spec_float := S754_finite false 8796093022208000 (-43).
Definition above_thousand : positive * Z := (8796093022208128%positive, -43).
Definition above_one : positive * Z := (4503599627374592%positive, -52).

(** A float that is bounded, for the use of [round_float_le]. *)
Definition bound_ok (b : positive * Z) : bool :=
  (fexp prec emax (Z.log2 (Zpos (fst b)) + snd b + 1) =? snd b)
  && (Z.log2 (Zpos (fst b)) + snd b <? emax).

(** The least float of 53 bits that is not below the integer [z]. *)
Definition float_above (z : Z) : positive * Z :=
  let e := Z.log2 z - 52 in
  (Z.to_pos (if 0 <=? e then (z + 2 ^ e - 1) / 2 ^ e else z * 2 ^ (- e)), e).

(** What [intword] needs of the bracket below [powers[i]], for values up
    to [limit]: the quotients of [limit] by the two thresholds stay below
    [above_thousand] and [above_one], which one decimal shows as
    ["1000.0"] and ["1.0"]. *)
Definition bracket_check (i limit : Z) : bool :=
  let b := float_above limit in
  match getitem powers (i - 1), getitem powers i,
        getitem human_powers (i - 1), getitem human_powers i with
  | Ret below, Ret above, Ret _, Ret _ =>
      match float_of_Z below, float_of_Z above with
      | Ret (S754_finite false mP eP), Ret (S754_finite false mQ eQ) =>
          bound_ok b && bound_ok above_thousand && bound_ok above_one
          && Qle_bool (inject_Z limit) (magnitude (fst b) (snd b))
          && Qle_bool (magnitude (fst b) (snd b) / magnitude mP eP)
               (magnitude (fst above_thousand) (snd above_thousand))
          && Qle_bool (magnitude (fst b) (snd b) / magnitude mQ eQ)
               (magnitude (fst above_one) (snd above_one))
      | _, _ => false
      end
  | _, _, _, _ => false
  end.

(** Reading back a mantissa shown with one decimal: it is [1000.0]
    exactly when the tenths are [10000]. *)
Definition reads_thousand (t : Z) : bool :=
  match float_of_str (show_scaled 1 t) with
  | Ret f => Bool.eqb (float_eqb f thousand) (t =? 10000)
  | Raise _ => false
  end.

(** ** Floats named in the statements *)

(** [0.3], [1e-10], [1.3] and [0.5]: the floats nearest to them. *)
Definition three_tenths : spec_float :=
  S754_finite false 5404319552844595 (-54).
Definition tenth_of_a_billionth : spec_float :=
  S754_finite false 7737125245533627 (-86).
Definition one_and_three_tenths : spec_float :=
  S754_finite false 5854679515581645 (-52).
Definition a_half : spec_float :=
  S754_finite false 4503599627370496 (-53).

(** [-1.5], [-0.5] and the float nearest to [-0.0001]. *)
Definition minus_one_and_a_half : spec_float :=
  S754_finite true 6755399441055744 (-52).
Definition minus_a_half : spec_float :=
  S754_finite true 4503599627370496 (-53).
Definition minus_a_ten_thousandth : spec_float :=
  S754_finite true 7378697629483821 (-66).

(** ** More notions used in the statements and proofs *)

(** What the loop of [limit_denominator] keeps besides [cf_inv]: the two
    convergents are neighbours, and the fraction is their combination by
    the remainders [n] and [d]. *)
Definition cf_det (N D p0 q0 p1 q1 n d : Z) : Prop :=
  p1 * n + p0 * d = N /\ q1 * n + q0 * d = D
  /\ (p0 * q1 - p1 * q0 = 1 \/ p0 * q1 - p1 * q0 = -1).

(** A character that no integer numeral holds: no digit, blank,
    underscore or sign. *)
Definition is_letter (c : ascii) : bool :=
  negb (is_digit c || is_space c || Ascii.eqb c "_" || Ascii.eqb c "+"
        || Ascii.eqb c "-")%char.

(** Some character of [s] satisfies [P]. *)
Fixpoint has_char (P : ascii -> bool) (s : string) : bool :=
  match s with
  | String c s' => P c || has_char P s'
  | EmptyString => false
  end.

(** A float that is not below a googol. *)
Definition above_googol : positive * Z := float_above (10 ^ 100).

(** The number of decimal digits of an integer. *)
Definition digits_of (n : Z) : nat := String.length (str_of_N (Z.abs_N n)).

(** The characters of the exponent field: digits and signs, which are
    the keys of the glyph table. *)
Definition is_exp_char (c : ascii) : bool :=
  (is_digit c || Ascii.eqb c "+" || Ascii.eqb c "-")%char.

(** The characters of a mantissa: digits and the point. *)
Definition is_mantissa_char (c : ascii) : bool :=
  (is_digit c || Ascii.eqb c ".")%char.

(** What [scientific] does to the exponent field before it looks up the
    glyphs. *)
Definition normalize_exponent (part2 : string) : string :=
  let part2 :=
    if contains "-0" part2 then replace "-0" "-" part2 else part2 in
  if contains "+0" part2 then replace "+0" "" part2 else part2.

(** [2.125], which is [17/8]. *)
Definition two_and_an_eighth : spec_float :=
  S754_finite false 4785074604081152 (-51).

(** What the promotion of [intword] needs of the bracket below
    [powers[i]]: a quotient that shows as ["1000.0"] there stays, over the
    next threshold, at or above a float that shows as ["1.0"]. *)
Definition bracket_low (i : Z) : bool :=
  match getitem powers (i - 1), getitem powers i with
  | Ret below, Ret above =>
      match float_of_Z below, float_of_Z above with
      | Ret (S754_finite false mP eP), Ret (S754_finite false mQ eQ) =>
          let c := (inject_Z 999 * magnitude mP eP / magnitude mQ eQ)%Q in
          negb (Qle_bool c 0)
          && is_finite (round_float false c)
          && (10 <=? tenths (round_float false c))
      | _, _ => false
      end
  | _, _ => false
  end.

(* ================================================================= *)
(** * Theorems *)

Lemma getitem_nth {A : Type} (t : list A) (i : Z) (a : A) :
  0 <= i -> nth_error t (Z.to_nat i) = Some a -> getitem t i = Ret a.
Proof.
  intros Hi Hn. unfold getitem.
  assert (Hlen : (Z.to_nat i < List.length t)%nat).
  { apply nth_error_Some. rewrite Hn. discriminate. }
  destruct (i <? 0) eqn:E; [apply Z.ltb_lt in E; lia|].
  destruct (Z.of_nat (List.length t) <=? i) eqn:E2;
    [apply Z.leb_le in E2; lia|].
  rewrite Hn, E. reflexivity.
Qed.

Lemma ordinal_suffix_lookup (d : Z) :
  0 <= d < 10 -> getitem ordinal_suffixes d = Ret (spec_suffix d).
Proof.
  intros Hd.
  assert (H : d = 0 \/ d = 1 \/ d = 2 \/ d = 3 \/ d = 4 \/ d = 5 \/ d = 6
              \/ d = 7 \/ d = 8 \/ d = 9) by lia.
  repeat (destruct H as [-> | H]; [reflexivity|]). now subst.
Qed.

Lemma apnumber_word_lookup (n : Z) :
  1 <= n <= 9 -> getitem apnumber_words (n - 1) = Ret (I18n.gettext (spec_word n)).
Proof.
  intros Hn.
  assert (H : n = 1 \/ n = 2 \/ n = 3 \/ n = 4 \/ n = 5 \/ n = 6
              \/ n = 7 \/ n = 8 \/ n = 9) by lia.
  repeat (destruct H as [-> | H]; [reflexivity|]). now subst.
Qed.

(* ================================================================= *)
(** * [intcomma]: text lemmas and the loop *)

(** ** Text lemmas *)

Lemma append_assoc (a b c : string) : (a ++ b) ++ c = a ++ (b ++ c).
Proof. induction a as [| x a IH]; simpl; [reflexivity | now rewrite IH]. Qed.

Lemma append_nil_r (a : string) : a ++ "" = a.
Proof. induction a as [| x a IH]; simpl; [reflexivity | now rewrite IH]. Qed.

Lemma length_append (a b : string) :
  String.length (a ++ b) = (String.length a + String.length b)%nat.
Proof. induction a as [| x a IH]; simpl; [reflexivity | now rewrite IH]. Qed.

Lemma take_drop (n : nat) (s : string) : take_str n s ++ drop_str n s = s.
Proof.
  revert s. induction n as [| n IH]; intros [| c s]; simpl; try reflexivity.
  now rewrite IH.
Qed.

Lemma length_take (n : nat) (s : string) :
  (n <= String.length s)%nat -> String.length (take_str n s) = n.
Proof.
  revert s. induction n as [| n IH]; intros [| c s]; simpl; intros H;
    try reflexivity; try lia.
  rewrite IH; lia.
Qed.

Lemma length_drop (n : nat) (s : string) :
  String.length (drop_str n s) = (String.length s - n)%nat.
Proof.
  revert s. induction n as [| n IH]; intros [| c s]; simpl; try reflexivity.
  apply IH.
Qed.

Lemma all_digits_take (n : nat) (s : string) :
  all_digits s = true -> all_digits (take_str n s) = true.
Proof.
  revert s. induction n as [| n IH]; intros [| c s]; simpl; try reflexivity.
  intros H. apply andb_true_iff in H. destruct H as [Hc Hs].
  rewrite Hc. simpl. now apply IH.
Qed.

Lemma span_digits_spec (s run rest : string) :
  span_digits s = (run, rest) ->
  s = run ++ rest /\ all_digits run = true /\ head_not_digit rest.
Proof.
  revert run rest. induction s as [| c s IH]; simpl; intros run rest H.
  - injection H as <- <-. repeat split.
  - destruct (is_digit c) eqn:Hc.
    + destruct (span_digits s) as [run' rest'].
      injection H as <- <-.
      destruct (IH run' rest' eq_refl) as (-> & Hd & Hr).
      simpl. rewrite Hc, Hd. repeat split. exact Hr.
    + injection H as <- <-. simpl. rewrite Hc. repeat split.
Qed.

Lemma span_digits_app (run rest : string) :
  all_digits run = true -> head_not_digit rest ->
  span_digits (run ++ rest) = (run, rest).
Proof.
  induction run as [| c run IH]; simpl; intros Hd Hr.
  - destruct rest as [| c rest]; simpl in *; [reflexivity | now rewrite Hr].
  - apply andb_true_iff in Hd. destruct Hd as [Hc Hd].
    rewrite Hc, (IH Hd Hr). reflexivity.
Qed.

(** ** Removing a character *)

Lemma replace_fuel_char (c : ascii) (fuel : nat) (s : string) :
  (String.length s <= fuel)%nat ->
  replace_fuel fuel (String c "") "" s = remove_char c s.
Proof.
  revert s. induction fuel as [| fuel IH]; intros [| b s]; simpl; intros H;
    try reflexivity; try lia.
  destruct (Ascii.eqb c b); simpl; rewrite IH by lia; reflexivity.
Qed.

Lemma replace_char (c : ascii) (s : string) :
  replace (String c "") "" s = remove_char c s.
Proof. apply replace_fuel_char. lia. Qed.

Lemma remove_char_app (c : ascii) (a b : string) :
  remove_char c (a ++ b) = remove_char c a ++ remove_char c b.
Proof.
  induction a as [| x a IH]; simpl; [reflexivity|].
  destruct (Ascii.eqb c x); simpl; now rewrite IH.
Qed.

(** ** The number at the head of a text *)

Lemma split_number_eq (s sign run rest : string) :
  split_number s = (sign, run, rest) ->
  s = sign ++ run ++ rest /\ all_digits run = true /\ head_not_digit rest
  /\ (sign = "-" \/ sign = "" /\ strip_prefix "-" s = None).
Proof.
  unfold split_number.
  destruct (strip_prefix "-" s) as [body |] eqn:Hp.
  - destruct (span_digits body) as [run' rest'] eqn:Hs.
    intros H. injection H as <- <- <-.
    destruct (span_digits_spec _ _ _ Hs) as (-> & Hd & Hr).
    destruct s as [| c s]; cbn [strip_prefix] in Hp; [discriminate|].
    destruct (Ascii.eqb "-" c) eqn:Hc; [|discriminate].
    apply Ascii.eqb_eq in Hc. subst c.
    assert (s = run' ++ rest') as -> by (destruct s; cbn in Hp; congruence).
    repeat split; auto.
  - destruct (span_digits s) as [run' rest'] eqn:Hs.
    intros H. injection H as <- <- <-.
    destruct (span_digits_spec _ _ _ Hs) as (-> & Hd & Hr).
    repeat split; auto.
Qed.

Lemma re_sub_thousands_split (s sign run rest : string) :
  split_number s = (sign, run, rest) ->
  re_sub_thousands s =
  if (4 <=? String.length run)%nat then
    sign ++ take_str (String.length run - 3) run ++ ","
    ++ drop_str (String.length run - 3) run ++ rest
  else s.
Proof.
  unfold split_number, re_sub_thousands.
  destruct (strip_prefix "-" s) as [body |];
    destruct (span_digits _) as [run' rest']; intros H;
    injection H as <- <- <-; reflexivity.
Qed.

Lemma spec_grouped_split (s sign run rest : string) :
  split_number s = (sign, run, rest) ->
  spec_grouped s = sign ++ group3 run ++ rest.
Proof.
  unfold split_number, spec_grouped.
  destruct (strip_prefix "-" s) as [body |];
    destruct (span_digits _) as [run' rest']; intros H;
    injection H as <- <- <-; reflexivity.
Qed.

Lemma is_digit_minus_head (run rest : string) :
  all_digits run = true -> run <> "" ->
  strip_prefix "-" (run ++ rest) = None.
Proof.
  destruct run as [| c run]; [congruence|].
  cbn [all_digits append strip_prefix]. intros H _.
  apply andb_true_iff in H. destruct H as [Hc _].
  destruct (Ascii.eqb "-" c) eqn:E; [|reflexivity].
  apply Ascii.eqb_eq in E. subst c. discriminate.
Qed.

Lemma split_number_step (s sign run rest : string) :
  split_number s = (sign, run, rest) ->
  (4 <= String.length run)%nat ->
  split_number (sign ++ take_str (String.length run - 3) run ++ ","
                ++ drop_str (String.length run - 3) run ++ rest)
  = (sign, take_str (String.length run - 3) run,
     "," ++ drop_str (String.length run - 3) run ++ rest).
Proof.
  intros Hs Hlen.
  destruct (split_number_eq _ _ _ _ Hs) as (_ & Hd & _ & Hsign).
  set (n := (String.length run - 3)%nat).
  assert (Ht : all_digits (take_str n run) = true) by now apply all_digits_take.
  assert (Hne : take_str n run <> "").
  { intros E. apply (f_equal String.length) in E.
    rewrite length_take in E by (unfold n; lia). simpl in E. unfold n in E. lia. }
  unfold split_number.
  destruct Hsign as [-> | [-> _]].
  - cbn [append strip_prefix]. rewrite Ascii.eqb_refl.
    rewrite span_digits_app; [reflexivity | exact Ht | reflexivity].
  - cbn [append]. rewrite is_digit_minus_head by assumption.
    rewrite span_digits_app; [reflexivity | exact Ht | reflexivity].
Qed.

(** ** Grouping *)

Lemma group3_short (d : string) :
  (String.length d <= 3)%nat -> group3 d = d.
Proof.
  destruct d as [| a [| b [| c [| e d]]]]; simpl; intros H;
    try reflexivity; lia.
Qed.

Lemma group3_cons (c : ascii) (rest : string) :
  group3 (String c rest) =
  if (0 <? String.length rest)%nat && (String.length rest mod 3 =? 0)%nat
  then String c ("," ++ group3 rest)
  else String c (group3 rest).
Proof. reflexivity. Qed.

Lemma group3_app3 (a b : string) :
  String.length b = 3%nat -> a <> "" ->
  group3 (a ++ b) = group3 a ++ "," ++ b.
Proof.
  intros Hb. induction a as [| c a IH]; [congruence|]. intros _.
  cbn [append]. rewrite !group3_cons, length_append, Hb.
  destruct a as [| c' a].
  - cbn [append String.length]. rewrite (group3_short b) by lia. reflexivity.
  - rewrite IH by discriminate.
    set (n := String.length (String c' a)).
    assert (Hn : (0 < n)%nat) by (unfold n; cbn [String.length]; lia).
    replace ((0 <? n + 3)%nat) with true by (symmetry; apply Nat.ltb_lt; lia).
    replace ((0 <? n)%nat) with true by (symmetry; apply Nat.ltb_lt; lia).
    replace ((n + 3) mod 3)%nat with (n mod 3)%nat.
    2:{ replace (n + 3)%nat with (n + 1 * 3)%nat by lia.
        now rewrite Nat.Div0.mod_add. }
    cbn [andb]. destruct (n mod 3 =? 0)%nat; reflexivity.
Qed.

(** ** The loop of [intcomma] *)

Lemma float_of_str_raises (s : string) (e : pyexn) :
  float_of_str s = Raise e -> e = ValueError.
Proof.
  unfold float_of_str.
  destruct (scan_sign (strip s)) as [neg body].
  destruct (_ || _); [discriminate|].
  destruct (String.eqb _ _); [discriminate|].
  destruct (scan_decimal body) as [[mant shift] |]; [discriminate|].
  now intros [= <-].
Qed.

Lemma remove_comma_step (sign run rest : string) (n : nat) :
  replace "," "" (sign ++ take_str n run ++ "," ++ drop_str n run ++ rest)
  = replace "," "" (sign ++ run ++ rest).
Proof.
  rewrite !replace_char, !remove_char_app.
  replace (remove_char "," run)
    with (remove_char "," (take_str n run ++ drop_str n run))
    by now rewrite take_drop.
  rewrite remove_char_app, append_assoc. reflexivity.
Qed.

(** With fuel beyond the length of the leading run of digits, the loop
    ends, and it ends on the grouped text. *)
Lemma intcomma_fuel_spec (fuel : nat) :
  forall (value : pyval) (sign run rest : string) (x y : spec_float),
    intcomma_try value = Ret x ->
    float_of_str (replace "," "" (str_ value)) = Ret y ->
    split_number (str_ value) = (sign, run, rest) ->
    (String.length run < fuel)%nat ->
    intcomma_fuel fuel value = Ret (PyStr (sign ++ group3 run ++ rest)).
Proof.
  induction fuel as [| fuel IH];
    intros value sign run rest x y Htry Hgate Hs Hlen; [lia|].
  cbn [intcomma_fuel]. rewrite Htry. cbn [try_except].
  rewrite (re_sub_thousands_split _ _ _ _ Hs).
  destruct (split_number_eq _ _ _ _ Hs) as (Heq & Hd & Hr & Hsign).
  destruct (4 <=? String.length run)%nat eqn:H4.
  - apply Nat.leb_le in H4.
    set (n := (String.length run - 3)%nat) in *.
    set (s' := sign ++ take_str n run ++ "," ++ drop_str n run ++ rest).
    assert (Hne : String.eqb (str_ value) s' = false).
    { apply String.eqb_neq. intros E. apply (f_equal String.length) in E.
      pose proof (f_equal String.length (take_drop n run)) as Hl.
      rewrite Heq in E. unfold s' in E.
      rewrite length_append in Hl.
      repeat first [rewrite length_append in E
                   | progress (cbn [String.length String.append] in E)].
      lia. }
    rewrite Hne.
    assert (Hgate' : float_of_str (replace "," "" s') = Ret y).
    { rewrite <- Hgate, Heq. unfold s'. now rewrite remove_comma_step. }
    rewrite (IH (PyStr s') sign (take_str n run)
               ("," ++ drop_str n run ++ rest) y y).
    + replace (group3 run) with (group3 (take_str n run ++ drop_str n run))
        by now rewrite take_drop.
      rewrite group3_app3.
      * rewrite !append_assoc. reflexivity.
      * rewrite length_drop. unfold n. lia.
      * intros E. apply (f_equal String.length) in E.
        rewrite length_take in E by (unfold n; lia). simpl in E.
        unfold n in E. lia.
    + exact Hgate'.
    + exact Hgate'.
    + apply (split_number_step (str_ value)); assumption.
    + rewrite length_take by (unfold n; lia). unfold n. lia.
  - apply Nat.leb_gt in H4. rewrite String.eqb_refl.
    rewrite group3_short by lia. rewrite <- Heq. reflexivity.
Qed.

Lemma split_number_length (s sign run rest : string) :
  split_number s = (sign, run, rest) ->
  (String.length run <= String.length s)%nat.
Proof.
  intros Hs. destruct (split_number_eq _ _ _ _ Hs) as (-> & _).
  rewrite !length_append. lia.
Qed.

(** Whatever passes the [try] block and reads as a float once more, as
    text without commas, comes out grouped. *)
Lemma intcomma_grouped (value : pyval) (x y : spec_float) :
  intcomma_try value = Ret x ->
  float_of_str (replace "," "" (str_ value)) = Ret y ->
  intcomma value = Ret (PyStr (spec_grouped (str_ value))).
Proof.
  intros Htry Hgate. unfold intcomma.
  destruct (split_number (str_ value)) as [[sign run] rest] eqn:Hs.
  rewrite (spec_grouped_split _ _ _ _ Hs).
  apply (intcomma_fuel_spec _ value sign run rest x y); try assumption.
  apply split_number_length in Hs. lia.
Qed.

(** What the loop returns, it returns again. *)
Lemma intcomma_fuel_fixed (fuel : nat) :
  forall value v : pyval,
    intcomma_fuel fuel value = Ret v -> intcomma v = Ret v.
Proof.
  induction fuel as [| fuel IH]; intros value v; cbn [intcomma_fuel];
    [discriminate|].
  unfold try_except.
  destruct (intcomma_try value) as [x | e] eqn:Htry.
  - destruct (String.eqb (str_ value) (re_sub_thousands (str_ value))) eqn:E.
    + intros [= <-]. apply String.eqb_eq in E.
      unfold intcomma. cbn [intcomma_fuel str_]. unfold try_except.
      destruct (intcomma_try (PyStr (re_sub_thousands (str_ value))))
        as [x' | e'] eqn:Htry'.
      * cbn [str_]. rewrite <- E, <- E, String.eqb_refl. reflexivity.
      * cbn [intcomma_try] in Htry'.
        apply float_of_str_raises in Htry'. subst e'. reflexivity.
    + apply IH.
  - destruct (caught e) eqn:Hc; [|discriminate].
    intros [= <-]. unfold intcomma. cbn [intcomma_fuel].
    rewrite Htry. unfold try_except. rewrite Hc. reflexivity.
Qed.

(** C5. [intcomma] is idempotent: for every input [x], applying
    [intcomma] to the result of [intcomma x] gives that result again (and
    when [intcomma x] raises, so does the composition, with the same
    exception). *)
Theorem intcomma_idempotent (x : pyval) :
  (v <- intcomma x ;; intcomma v) = intcomma x.
Proof.
  destruct (intcomma x) as [v | e] eqn:H; cbn [bind]; [|reflexivity].
  apply (intcomma_fuel_fixed _ _ _ H).
Qed.

(* ================================================================= *)
(** * Numerals: what [float()] accepts *)

(** ** Characters *)

Lemma all_chars_app (P : ascii -> bool) (a b : string) :
  all_chars P (a ++ b) = all_chars P a && all_chars P b.
Proof.
  induction a as [| c a IH]; simpl; [reflexivity|].
  now rewrite IH, andb_assoc.
Qed.

Lemma all_chars_impl (P Q : ascii -> bool) (s : string) :
  (forall c, P c = true -> Q c = true) ->
  all_chars P s = true -> all_chars Q s = true.
Proof.
  intros HPQ. induction s as [| c s IH]; simpl; [reflexivity|].
  intros H. apply andb_true_iff in H. destruct H as [Hc Hs].
  now rewrite (HPQ _ Hc), IH.
Qed.

Lemma all_digits_chars (s : string) : all_digits s = all_chars is_digit s.
Proof. induction s as [| c s IH]; simpl; [reflexivity | now rewrite IH]. Qed.

Lemma all_digits_app (a b : string) :
  all_digits (a ++ b) = all_digits a && all_digits b.
Proof. rewrite !all_digits_chars. apply all_chars_app. Qed.

Lemma is_digit_cases (c : ascii) :
  is_digit c = true ->
  (c = "0" \/ c = "1" \/ c = "2" \/ c = "3" \/ c = "4" \/ c = "5" \/ c = "6"
   \/ c = "7" \/ c = "8" \/ c = "9")%char.
Proof.
  unfold is_digit.
  destruct (uint_of_char c (Some Nil)) as [d |] eqn:H; [|discriminate].
  intros _. apply uint_of_char_spec in H. intuition.
Qed.

Ltac digit_cases c H :=
  let D := fresh "D" in
  pose proof (is_digit_cases c H) as D;
  repeat (destruct D as [D | D]); subst c.

Lemma digit_is_numeral (c : ascii) :
  is_digit c = true -> is_numeral_char c = true.
Proof. intros H. unfold is_numeral_char. now rewrite H. Qed.

Lemma numeral_not_space (c : ascii) :
  is_numeral_char c = true -> is_space c = false.
Proof.
  unfold is_numeral_char. intros H.
  repeat (apply orb_true_iff in H; destruct H as [H | H]);
    try (apply Ascii.eqb_eq in H; subst c; reflexivity).
  digit_cases c H; reflexivity.
Qed.

Lemma numeral_not_comma (c : ascii) :
  is_numeral_char c = true -> Ascii.eqb "," c = false.
Proof.
  unfold is_numeral_char. intros H.
  repeat (apply orb_true_iff in H; destruct H as [H | H]);
    try (apply Ascii.eqb_eq in H; subst c; reflexivity).
  digit_cases c H; reflexivity.
Qed.

Lemma all_digits_zeros (n : nat) : all_digits (zeros n) = true.
Proof. induction n as [| n IH]; simpl; [reflexivity | exact IH]. Qed.

Lemma all_digits_drop (n : nat) (s : string) :
  all_digits s = true -> all_digits (drop_str n s) = true.
Proof.
  revert s. induction n as [| n IH]; intros [| c s]; simpl; auto.
  intros H. apply andb_true_iff in H. now apply IH.
Qed.

Lemma all_digits_uint (u : uint) :
  all_digits (NilEmpty.string_of_uint u) = true.
Proof. induction u; simpl; auto. Qed.

Lemma all_digits_str_of_N (n : N) : all_digits (str_of_N n) = true.
Proof. apply all_digits_uint. Qed.

Lemma str_of_N_nonempty (n : N) : str_of_N n <> "".
Proof.
  unfold str_of_N. destruct n as [| p]; [discriminate|].
  cbn [N.to_uint]. pose proof (DecimalPos.Unsigned.to_uint_nonnil p) as H.
  destruct (Pos.to_uint p); [congruence | discriminate ..].
Qed.

Lemma all_digits_pad (width : nat) (n : N) :
  all_digits (pad_digits width n) = true.
Proof.
  unfold pad_digits. rewrite all_digits_app, all_digits_zeros.
  apply all_digits_str_of_N.
Qed.

Lemma pad_digits_nonempty (width : nat) (n : N) : pad_digits width n <> "".
Proof.
  unfold pad_digits. intros E. apply (f_equal String.length) in E.
  rewrite length_append in E. cbn [String.length] in E.
  pose proof (str_of_N_nonempty n) as H.
  destruct (str_of_N n); [congruence | cbn [String.length] in E; lia].
Qed.

(** ** White space and commas *)

Lemma lstrip_numeral (s : string) :
  all_chars is_numeral_char s = true -> lstrip s = s.
Proof.
  destruct s as [| c s]; simpl; [reflexivity|]. intros H.
  apply andb_true_iff in H. destruct H as [Hc _].
  now rewrite (numeral_not_space _ Hc).
Qed.

Lemma rstrip_numeral (s : string) :
  all_chars is_numeral_char s = true -> rstrip s = s.
Proof.
  induction s as [| c s IH]; simpl; [reflexivity|]. intros H.
  apply andb_true_iff in H. destruct H as [Hc Hs].
  now rewrite (numeral_not_space _ Hc), (IH Hs).
Qed.

Lemma strip_numeral (s : string) :
  all_chars is_numeral_char s = true -> strip s = s.
Proof.
  intros H. unfold strip. rewrite (lstrip_numeral _ H). now apply rstrip_numeral.
Qed.

Lemma remove_comma_numeral (s : string) :
  all_chars is_numeral_char s = true -> replace "," "" s = s.
Proof.
  rewrite replace_char.
  induction s as [| c s IH]; cbn [remove_char all_chars]; [reflexivity|].
  intros H.
  apply andb_true_iff in H. destruct H as [Hc Hs].
  now rewrite (numeral_not_comma _ Hc), (IH Hs).
Qed.

(** ** Scanning digits *)

Lemma digit_cons (c : ascii) (u : uint) :
  is_digit c = true ->
  exists u', uint_of_char c (Some u) = Some u' /\ u' <> Nil.
Proof.
  intros H. digit_cases c H; eexists; (split; [reflexivity | discriminate]).
Qed.

Lemma digit_not_underscore (c : ascii) :
  is_digit c = true -> Ascii.eqb c "_" = false.
Proof. intros H. digit_cases c H; reflexivity. Qed.

Lemma scan_digits_stop (s : string) :
  ends_digits s -> scan_digits s = (Nil, s).
Proof.
  destruct s as [| c s]; [reflexivity|]. intros [Hd _].
  cbn [scan_digits]. unfold is_digit in Hd.
  destruct (uint_of_char c (Some Nil)); [discriminate | reflexivity].
Qed.

Lemma scan_digits_run (run rest : string) :
  all_digits run = true -> ends_digits rest ->
  exists u, scan_digits (run ++ rest) = (u, rest) /\ (run <> "" -> u <> Nil).
Proof.
  intros Hd Hr. induction run as [| c run IH].
  - exists Nil. split; [now apply scan_digits_stop | congruence].
  - cbn [all_digits] in Hd. apply andb_true_iff in Hd. destruct Hd as [Hc Hd].
    destruct (IH Hd) as (u & Hu & _).
    destruct (digit_cons c u Hc) as (u' & Hu' & Hn).
    destruct (digit_cons c Nil Hc) as (u0 & Hu0 & _).
    exists u'. split; [|intros _; exact Hn].
    cbn [append scan_digits]. rewrite Hu0.
    assert (Hin :
      match run ++ rest with
      | String c1 t =>
          if Ascii.eqb c1 "_" then
            match t with
            | String c2 _ => if is_digit c2 then scan_digits t else (Nil, run ++ rest)
            | EmptyString => (Nil, run ++ rest)
            end
          else scan_digits (run ++ rest)
      | EmptyString => (Nil, run ++ rest)
      end = (u, rest)).
    { destruct run as [| c1 run].
      - cbn [append] in *. destruct rest as [| c1 t].
        + exact Hu.
        + destruct Hr as [_ Hr]. now rewrite Hr.
      - cbn [append] in *. cbn [all_digits] in Hd.
        apply andb_true_iff in Hd. destruct Hd as [Hc1 _].
        now rewrite (digit_not_underscore _ Hc1). }
    rewrite Hin, Hu'. reflexivity.
Qed.

(** ** Numerals that [float()] accepts *)

Lemma scan_sign_digit (c : ascii) (s : string) :
  is_digit c = true -> scan_sign (String c s) = (false, String c s).
Proof. intros H. digit_cases c H; reflexivity. Qed.

Lemma scan_exponent_text (s : string) :
  exponent_text s -> exists x, scan_exponent s = Some x.
Proof.
  intros [-> | (sign & digits & -> & Hsign & Hd & Hne)].
  - exists 0. reflexivity.
  - assert (Hscan : exists u, scan_digits digits = (u, "") /\ u <> Nil).
    { destruct (scan_digits_run digits "" Hd I) as (u & Hu & Hn).
      rewrite append_nil_r in Hu. exists u. auto. }
    destruct Hscan as (u & Hu & Hn).
    assert (Hs : exists neg, scan_sign (sign ++ digits) = (neg, digits)).
    { destruct Hsign as [-> | [-> | ->]].
      - destruct digits as [| c d]; [congruence|].
        cbn [all_digits] in Hd. apply andb_true_iff in Hd.
        exists false. now apply scan_sign_digit.
      - exists false. reflexivity.
      - exists true. reflexivity. }
    destruct Hs as (neg & Hs).
    unfold scan_exponent. cbn [append scan_char].
    change (Ascii.eqb (lower "e") "e") with true. cbn iota.
    rewrite Hs, Hu. destruct u; [congruence | eexists; reflexivity ..].
Qed.

Lemma exponent_text_ends (s : string) : exponent_text s -> ends_digits s.
Proof.
  intros [-> | (sign & digits & -> & _)]; [exact I | split; reflexivity].
Qed.

Lemma scan_char_point_exponent (s : string) :
  exponent_text s -> scan_char "." s = None.
Proof. intros [-> | (sign & digits & -> & _)]; reflexivity. Qed.

Lemma scan_decimal_numeral (whole frac expo : string) :
  all_digits whole = true -> whole <> "" ->
  fraction_text frac -> exponent_text expo ->
  exists r, scan_decimal (whole ++ frac ++ expo) = Some r.
Proof.
  intros Hw Hne Hf He. unfold scan_decimal.
  destruct (scan_exponent_text _ He) as (x & Hx).
  destruct Hf as [-> | (digits & -> & Hd)].
  - cbn [append].
    destruct (scan_digits_run whole expo Hw (exponent_text_ends _ He))
      as (u1 & -> & Hn1).
    rewrite (scan_char_point_exponent _ He), Hx.
    specialize (Hn1 Hne). destruct u1; [congruence | eexists; reflexivity ..].
  - destruct (scan_digits_run whole (("." ++ digits) ++ expo) Hw)
      as (u1 & -> & Hn1); [split; reflexivity|].
    cbn [append scan_char]. change (Ascii.eqb (lower ".") ".") with true.
    cbn iota.
    destruct (scan_digits_run digits expo Hd (exponent_text_ends _ He))
      as (u2 & -> & _).
    rewrite Hx.
    specialize (Hn1 Hne).
    destruct u1; [congruence | destruct u2; eexists; reflexivity ..].
Qed.

Lemma lower_digit (c : ascii) : is_digit c = true -> lower c = c.
Proof. intros H. digit_cases c H; reflexivity. Qed.

Lemma not_a_name (c : ascii) (s : string) :
  is_digit c = true ->
  (String.eqb (lower_string (String c s)) "inf"
   || String.eqb (lower_string (String c s)) "infinity") = false
  /\ String.eqb (lower_string (String c s)) "nan" = false.
Proof.
  intros H. cbn [lower_string]. rewrite (lower_digit _ H).
  digit_cases c H; split; reflexivity.
Qed.

(** A sign, digits, an optional fraction and an optional exponent make a
    numeral that [float()] reads. *)
Lemma float_of_str_numeral (neg : bool) (whole frac expo : string) :
  all_digits whole = true -> whole <> "" ->
  fraction_text frac -> exponent_text expo ->
  all_chars is_numeral_char (frac ++ expo) = true ->
  exists y,
    float_of_str ((if neg then "-" else "") ++ whole ++ frac ++ expo) = Ret y.
Proof.
  intros Hw Hne Hf He Hc.
  assert (Hall : all_chars is_numeral_char
                   ((if neg then "-" else "") ++ whole ++ frac ++ expo) = true).
  { rewrite !all_chars_app. rewrite <- all_chars_app, Hc.
    rewrite all_digits_chars in Hw.
    rewrite (all_chars_impl _ _ _ digit_is_numeral Hw).
    destruct neg; reflexivity. }
  unfold float_of_str. rewrite (strip_numeral _ Hall).
  destruct (scan_decimal_numeral whole frac expo Hw Hne Hf He) as ([m x] & Hr).
  destruct whole as [| c whole]; [congruence|].
  cbn [all_digits] in Hw. apply andb_true_iff in Hw. destruct Hw as [Hd _].
  destruct (not_a_name c (whole ++ frac ++ expo) Hd) as [Hi Hn].
  assert (Hs : scan_sign ((if neg then "-" else "")
                          ++ String c whole ++ frac ++ expo)
               = (neg, String c (whole ++ frac ++ expo))).
  { destruct neg; cbn [append]; [reflexivity | now apply scan_sign_digit]. }
  rewrite Hs. rewrite Hi, Hn. cbn [append] in Hr. rewrite Hr.
  eexists. reflexivity.
Qed.

Lemma digits_are_numeral (s : string) :
  all_digits s = true -> all_chars is_numeral_char s = true.
Proof.
  rewrite all_digits_chars. apply all_chars_impl. exact digit_is_numeral.
Qed.

Lemma float_of_str_whole (neg : bool) (whole : string) :
  all_digits whole = true -> whole <> "" ->
  exists y,
    float_of_str (replace "," "" ((if neg then "-" else "") ++ whole)) = Ret y.
Proof.
  intros Hd Hne.
  destruct (float_of_str_numeral neg whole "" "" Hd Hne) as (y & Hy);
    [now left | now left | reflexivity |].
  cbn [append] in Hy. rewrite append_nil_r in Hy.
  rewrite remove_comma_numeral.
  - now exists y.
  - rewrite all_chars_app, (digits_are_numeral _ Hd). now destruct neg.
Qed.

(** The text of an integer reads as a float, whatever its size. *)
Lemma float_of_str_int (n : Z) :
  exists y, float_of_str (replace "," "" (str_of_Z n)) = Ret y.
Proof.
  unfold str_of_Z.
  destruct (n <? 0).
  - apply (float_of_str_whole true);
      [apply all_digits_str_of_N | apply str_of_N_nonempty].
  - apply (float_of_str_whole false);
      [apply all_digits_str_of_N | apply str_of_N_nonempty].
Qed.

Lemma take_nonempty (n : nat) (s : string) :
  (0 < n)%nat -> s <> "" -> take_str n s <> "".
Proof. destruct n, s; simpl; intros; congruence || lia || discriminate. Qed.

Lemma show_exponent_text (x : Z) : exponent_text ("e" ++ show_exponent x).
Proof.
  right. unfold show_exponent.
  exists (if x <? 0 then "-" else "+"), (pad_digits 2 (Z.abs_N x)).
  repeat split.
  - destruct (x <? 0); auto.
  - apply all_digits_pad.
  - apply pad_digits_nonempty.
Qed.

Lemma show_exponent_chars (x : Z) :
  all_chars is_numeral_char ("e" ++ show_exponent x) = true.
Proof.
  unfold show_exponent. cbn [append all_chars].
  rewrite all_chars_app, (digits_are_numeral _ (all_digits_pad _ _)).
  now destruct (x <? 0).
Qed.

(** The text [repr] gives for a float reads as a float. *)
Lemma float_of_str_repr (x : spec_float) :
  exists y, float_of_str (replace "," "" (float_repr x)) = Ret y.
Proof.
  destruct x as [s | s | | s m e].
  - destruct s; eexists; vm_compute; reflexivity.
  - destruct s; eexists; vm_compute; reflexivity.
  - eexists; vm_compute; reflexivity.
  - unfold float_repr.
    destruct (shortest_digits 16 1 (S754_finite s m e)) as [t x10].
    set (digits := str_of_N (Z.to_N (strip_zeros_fuel 17 t))).
    assert (Hd : all_digits digits = true) by apply all_digits_str_of_N.
    assert (Hne : digits <> "") by apply str_of_N_nonempty.
    set (n := Z.of_nat (String.length digits)).
    assert (Hgen : forall whole frac expo,
               all_digits whole = true -> whole <> "" ->
               fraction_text frac -> exponent_text expo ->
               all_chars is_numeral_char (frac ++ expo) = true ->
               exists y,
                 float_of_str
                   (replace "," ""
                      ((if s then "-" else "") ++ whole ++ frac ++ expo))
                 = Ret y).
    { intros whole frac expo H1 H2 H3 H4 H5.
      rewrite remove_comma_numeral.
      - now apply float_of_str_numeral.
      - rewrite !all_chars_app. rewrite <- (all_chars_app _ frac), H5.
        rewrite (digits_are_numeral _ H1). now destruct s. }
    destruct ((x10 <? -4) || (16 <=? x10)) eqn:Hexp;
      [| destruct (x10 <? 0) eqn:Hneg;
         [| destruct (n - 1 <=? x10) eqn:Hint]].
    + (* one digit, the others after the point, and the exponent *)
      destruct (n =? 1).
      * apply (Hgen (take_str 1 digits) "" ("e" ++ show_exponent x10)).
        -- now apply all_digits_take.
        -- apply take_nonempty; [lia | exact Hne].
        -- now left.
        -- apply show_exponent_text.
        -- apply show_exponent_chars.
      * apply (Hgen (take_str 1 digits) ("." ++ drop_str 1 digits)
                 ("e" ++ show_exponent x10)).
        -- now apply all_digits_take.
        -- apply take_nonempty; [lia | exact Hne].
        -- right. eexists. split; [reflexivity|]. now apply all_digits_drop.
        -- apply show_exponent_text.
        -- rewrite all_chars_app, show_exponent_chars. cbn [append all_chars].
           now rewrite (digits_are_numeral _ (all_digits_drop 1 _ Hd)).
    + (* a fraction below one *)
      replace ("0." ++ zeros (Z.to_nat (- x10 - 1)) ++ digits)
        with ("0" ++ ("." ++ zeros (Z.to_nat (- x10 - 1)) ++ digits) ++ "")
        by (cbn [append]; now rewrite append_nil_r).
      apply Hgen.
      * reflexivity.
      * discriminate.
      * right. eexists. split; [reflexivity|].
        now rewrite all_digits_app, all_digits_zeros.
      * now left.
      * rewrite append_nil_r. cbn [append all_chars].
        apply digits_are_numeral.
        now rewrite all_digits_app, all_digits_zeros.
    + (* an integer: the digits, zeros, and ".0" *)
      replace (digits ++ zeros (Z.to_nat (x10 - (n - 1))) ++ ".0")
        with ((digits ++ zeros (Z.to_nat (x10 - (n - 1)))) ++ ".0" ++ "")
        by now rewrite append_assoc.
      apply Hgen.
      * now rewrite all_digits_app, all_digits_zeros, Hd.
      * intros E. destruct digits; [congruence | discriminate].
      * right. exists "0". split; reflexivity.
      * now left.
      * reflexivity.
    + (* digits on both sides of the point *)
      replace (take_str (Z.to_nat (x10 + 1)) digits ++ "."
               ++ drop_str (Z.to_nat (x10 + 1)) digits)
        with (take_str (Z.to_nat (x10 + 1)) digits
              ++ ("." ++ drop_str (Z.to_nat (x10 + 1)) digits) ++ "")
        by now rewrite append_nil_r.
      apply Hgen.
      * now apply all_digits_take.
      * apply take_nonempty; [|exact Hne].
        apply Z.ltb_ge in Hneg. lia.
      * right. eexists. split; [reflexivity|]. now apply all_digits_drop.
      * now left.
      * rewrite append_nil_r. cbn [append all_chars].
        apply digits_are_numeral. now apply all_digits_drop.
Qed.

(** C9, as the code has it.  Whatever passes the [try] block of
    [intcomma] comes out as its text with the run of digits at its head,
    after a minus sign if there is one, grouped by three from the right;
    what follows that run (the decimal point, the fraction, an exponent)
    stays as it was.  So [intcomma 3000] is ["3,000"] and
    [intcomma (-1234567)] is ["-1,234,567"]. *)
Theorem intcomma_numeric (value : pyval) (x : spec_float) :
  intcomma_try value = Ret x ->
  intcomma value = Ret (PyStr (spec_grouped (str_ value)))
  /\ intcomma (PyInt 3000) = Ret (PyStr "3,000")
  /\ intcomma (PyInt (-1234567)) = Ret (PyStr "-1,234,567").
Proof.
  intros Htry. split; [|split; vm_compute; reflexivity].
  destruct value as [n | y | s |].
  - destruct (float_of_str_int n) as (y & Hy).
    now apply (intcomma_grouped _ x y).
  - destruct (float_of_str_repr y) as (z & Hz).
    now apply (intcomma_grouped _ x z).
  - now apply (intcomma_grouped _ x x).
  - discriminate.
Qed.

(* ================================================================= *)
(** * [intword]: values outside the table *)

Lemma ltb_false_of_le (a b : Z) : b <= a -> (a <? b) = false.
Proof. intros H. apply Z.ltb_ge. exact H. Qed.

Lemma intword_loop_beyond (decimals : nat) (n : Z) (items : list (Z * Z)) :
  Forall (fun item => snd item <= n) items ->
  intword_loop decimals n items = Ret None.
Proof.
  induction 1 as [| [ordinal power] items Hle _ IH]; simpl.
  - reflexivity.
  - simpl in Hle. rewrite (ltb_false_of_le _ _ Hle). exact IH.
Qed.

Lemma powers_bounds :
  Forall (fun item : Z * Z => snd item <= 10 ^ 100) (enumerate (tl powers) 1).
Proof.
  repeat (constructor; [vm_compute; discriminate|]). constructor.
Qed.

Lemma intword_small (n : Z) :
  n < 10 ^ 6 -> intword (PyInt n) = Ret (PyStr (str_of_Z n)).
Proof.
  intros H. unfold intword, intword_format, try_except, int_.
  change (getitem powers 0) with (Ret (A:=Z) (10 ^ 6)).
  unfold bind.
  apply Z.ltb_lt in H. rewrite H. reflexivity.
Qed.

Lemma intword_large (n : Z) :
  10 ^ 100 <= n -> intword (PyInt n) = Ret (PyStr (str_of_Z n)).
Proof.
  intros H. unfold intword, intword_format, try_except, int_.
  change (getitem powers 0) with (Ret (A:=Z) (10 ^ 6)).
  unfold bind at 1.
  rewrite ltb_false_of_le.
  2:{ assert (10 ^ 6 <= 10 ^ 100) by (vm_compute; discriminate). lia. }
  rewrite intword_loop_beyond; [reflexivity|].
  eapply Forall_impl; [|apply powers_bounds].
  intros item Hitem. simpl in Hitem. lia.
Qed.

(** C7. For every integer below one million and for every integer from
    [10 ^ 100] on, [intword] returns the decimal string of the integer;
    within the table [intword 1000000] is ["1.0 million"] and
    [intword 1200000000] is ["1.2 billion"], with the default format of
    one decimal. *)
Theorem intword_plain_and_examples (n : Z) :
  n < 10 ^ 6 \/ 10 ^ 100 <= n ->
  intword (PyInt n) = Ret (PyStr (str_of_Z n))
  /\ intword (PyInt 1000000) = Ret (PyStr "1.0 million")
  /\ intword (PyInt 1200000000) = Ret (PyStr "1.2 billion").
Proof.
  intros H. split; [|split].
  - destruct H; [now apply intword_small | now apply intword_large].
  - vm_compute. reflexivity.
  - vm_compute. reflexivity.
Qed.

Lemma intword_plain_witness :
  intword (PyInt (-42)) = Ret (PyStr "-42")
  /\ intword (PyInt (10 ^ 100)) = Ret (PyStr (str_of_Z (10 ^ 100))).
Proof.
  split.
  - apply (intword_plain_and_examples (-42)). left. lia.
  - apply (intword_plain_and_examples (10 ^ 100)). right. lia.
Defined.

(* ================================================================= *)
(** * Floats: rounding *)

(** ** Rounding to the nearest integer *)

Lemma Qfloor_bounds (q : Q) :
  (inject_Z (Qfloor q) <= q /\ q < inject_Z (Qfloor q) + 1)%Q.
Proof.
  split; [apply Qfloor_le|].
  pose proof (Qlt_floor q) as H. rewrite inject_Z_plus in H. exact H.
Qed.

Lemma rneQ_cases (q : Q) :
  (rneQ q = Qfloor q /\ (q - inject_Z (Qfloor q) <= 1 # 2)%Q
   /\ ((q - inject_Z (Qfloor q) == 1 # 2)%Q -> Z.even (Qfloor q) = true))
  \/ (rneQ q = Qfloor q + 1 /\ (1 # 2 <= q - inject_Z (Qfloor q))%Q
      /\ ((q - inject_Z (Qfloor q) == 1 # 2)%Q -> Z.even (Qfloor q) = false)).
Proof.
  unfold rneQ.
  destruct (Qcompare_spec (q - inject_Z (Qfloor q)) (1 # 2)) as [E | L | G].
  - destruct (Z.even (Qfloor q)) eqn:Hev; [left | right];
      repeat split; auto; rewrite E; apply Qle_refl.
  - left. repeat split; [now apply Qlt_le_weak|].
    intros E. rewrite E in L. discriminate L.
  - right. repeat split; [now apply Qlt_le_weak|].
    intros E. rewrite E in G. discriminate G.
Qed.

Lemma rneQ_mono (q1 q2 : Q) : (q1 <= q2)%Q -> rneQ q1 <= rneQ q2.
Proof.
  intros H.
  pose proof (Qfloor_resp_le _ _ H) as Hf.
  pose proof (Qfloor_bounds q1) as [L1 U1].
  pose proof (Qfloor_bounds q2) as [L2 U2].
  destruct (rneQ_cases q1) as [(-> & H1 & E1) | (-> & H1 & E1)];
    destruct (rneQ_cases q2) as [(-> & H2 & E2) | (-> & H2 & E2)]; try lia.
  destruct (Z.eq_dec (Qfloor q1) (Qfloor q2)) as [Heq | Hne]; [|lia].
  exfalso. rewrite Heq in *.
  assert (Hq1 : (q1 - inject_Z (Qfloor q2) == 1 # 2)%Q) by lra.
  assert (Hq2 : (q2 - inject_Z (Qfloor q2) == 1 # 2)%Q) by lra.
  rewrite (E1 Hq1) in E2. specialize (E2 Hq2). discriminate.
Qed.

Lemma rneQ_inject_Z (k : Z) : rneQ (inject_Z k) = k.
Proof.
  destruct (rneQ_cases (inject_Z k)) as [(-> & _) | (_ & H & _)].
  - apply Qfloor_Z.
  - rewrite Qfloor_Z in H. exfalso. lra.
Qed.

Lemma rneQ_compat (q1 q2 : Q) : (q1 == q2)%Q -> rneQ q1 = rneQ q2.
Proof.
  intros H. apply Z.le_antisymm; apply rneQ_mono; rewrite H; apply Qle_refl.
Qed.

Lemma rneQ_nonneg (q : Q) : (0 <= q)%Q -> 0 <= rneQ q.
Proof.
  intros H. change 0 with (rneQ (inject_Z 0)) at 1.
  rewrite rneQ_inject_Z. rewrite <- (rneQ_inject_Z 0). now apply rneQ_mono.
Qed.

(** ** Powers of two *)

Lemma pow2_pos (k : Z) : (0 < 2 ^ k)%Q.
Proof. apply Qpower_0_lt. reflexivity. Qed.

Lemma pow2_add (a b : Z) : (2 ^ (a + b) == 2 ^ a * 2 ^ b)%Q.
Proof. apply Qpower_plus. discriminate. Qed.

Lemma pow2_le (a b : Z) : a <= b -> (2 ^ a <= 2 ^ b)%Q.
Proof. intros H. apply Qpower_le_compat_l; [exact H | discriminate]. Qed.

Lemma pow2_lt (a b : Z) : a < b -> (2 ^ a < 2 ^ b)%Q.
Proof. intros H. apply Qpower_lt_compat_l; [exact H | reflexivity]. Qed.

Lemma pow2_lt_inv (a b : Z) : (2 ^ a < 2 ^ b)%Q -> a < b.
Proof. intros H. apply (Qpower_lt_compat_l_inv 2); [exact H | reflexivity]. Qed.

Lemma pow2_inject (k : Z) : 0 <= k -> (inject_Z (2 ^ k) == 2 ^ k)%Q.
Proof. intros H. now rewrite Zpower_Qpower. Qed.

Lemma pow2_cancel (k : Z) : (2 ^ k * 2 ^ (- k) == 1)%Q.
Proof. rewrite <- pow2_add. now replace (k + - k) with 0 by lia. Qed.

(** ** The binary logarithm *)

Lemma inject_Z_log2_bounds (n : Z) :
  0 < n -> (2 ^ Z.log2 n <= inject_Z n /\ inject_Z n < 2 ^ (Z.log2 n + 1))%Q.
Proof.
  intros Hn. destruct (Z.log2_spec n Hn) as [L U].
  pose proof (Z.log2_nonneg n) as Hl.
  split.
  - rewrite <- pow2_inject by lia. now rewrite <- Zle_Qle.
  - rewrite <- pow2_inject by lia. rewrite <- Zlt_Qlt.
    now replace (Z.log2 n + 1) with (Z.succ (Z.log2 n)) by lia.
Qed.

Lemma Qlog2_spec (q : Q) :
  (0 < q)%Q -> (2 ^ Qlog2 q <= q /\ q < 2 ^ (Qlog2 q + 1))%Q.
Proof.
  intros Hq. destruct q as [n d].
  assert (Hn : 0 < n) by (unfold Qlt in Hq; simpl in Hq; lia).
  unfold Qlog2. cbn [Qnum Qden].
  set (a := Z.log2 n). set (b := Z.log2 (Zpos d)).
  destruct (inject_Z_log2_bounds n Hn) as [La Ua]. fold a in La, Ua.
  destruct (inject_Z_log2_bounds (Zpos d) eq_refl) as [Lb Ub].
  fold b in Lb, Ub.
  assert (Hd : (0 < inject_Z (Zpos d))%Q) by reflexivity.
  assert (Hval : (n # d == inject_Z n / inject_Z (Zpos d))%Q)
    by apply Qmake_Qdiv.
  assert (Hup : (n # d < 2 ^ (a - b + 1))%Q).
  { rewrite Hval. apply Qlt_shift_div_r; [exact Hd|].
    apply Qlt_le_trans with (2 ^ (a + 1))%Q; [exact Ua|].
    replace (a + 1) with ((a - b + 1) + b) by lia.
    rewrite pow2_add. apply Qmult_le_l; [apply pow2_pos | exact Lb]. }
  assert (Hlow : (2 ^ (a - b - 1) < n # d)%Q).
  { rewrite Hval. apply Qlt_shift_div_l; [exact Hd|].
    apply Qlt_le_trans with (2 ^ a)%Q; [|exact La].
    replace a with ((a - b - 1) + (b + 1)) at 2 by lia.
    rewrite pow2_add. apply Qmult_lt_l; [apply pow2_pos | exact Ub]. }
  destruct (Qle_bool (2 ^ (a - b)) (n # d)) eqn:Hc.
  - apply Qle_bool_iff in Hc. split; [exact Hc | exact Hup].
  - split; [now apply Qlt_le_weak|].
    replace (a - b - 1 + 1) with (a - b) by lia.
    apply Qnot_le_lt. intros H. apply Qle_bool_iff in H. congruence.
Qed.

Lemma Qlog2_unique (q : Q) (k : Z) :
  (2 ^ k <= q)%Q -> (q < 2 ^ (k + 1))%Q -> Qlog2 q = k.
Proof.
  intros L U.
  assert (Hq : (0 < q)%Q) by (eapply Qlt_le_trans; [apply pow2_pos | exact L]).
  destruct (Qlog2_spec q Hq) as [L' U'].
  assert (H1 : k < Qlog2 q + 1)
    by (apply pow2_lt_inv; eapply Qle_lt_trans; eassumption).
  assert (H2 : Qlog2 q < k + 1)
    by (apply pow2_lt_inv; eapply Qle_lt_trans; eassumption).
  lia.
Qed.

Lemma Qlog2_mono (q1 q2 : Q) :
  (0 < q1)%Q -> (q1 <= q2)%Q -> Qlog2 q1 <= Qlog2 q2.
Proof.
  intros H1 H.
  assert (H2 : (0 < q2)%Q) by (eapply Qlt_le_trans; eassumption).
  destruct (Qlog2_spec q1 H1) as [L1 _].
  destruct (Qlog2_spec q2 H2) as [_ U2].
  assert (Qlog2 q1 < Qlog2 q2 + 1); [|lia].
  apply pow2_lt_inv. eapply Qle_lt_trans; [exact L1|].
  eapply Qle_lt_trans; eassumption.
Qed.

Lemma Qlog2_compat (q1 q2 : Q) :
  (0 < q1)%Q -> (q1 == q2)%Q -> Qlog2 q1 = Qlog2 q2.
Proof.
  intros H1 E. destruct (Qlog2_spec q1 H1) as [L U].
  symmetry. apply Qlog2_unique; rewrite <- E; assumption.
Qed.

Lemma Qlog2_dyadic (m : positive) (e : Z) :
  Qlog2 (inject_Z (Zpos m) * 2 ^ e) = Z.log2 (Zpos m) + e.
Proof.
  destruct (inject_Z_log2_bounds (Zpos m) eq_refl) as [L U].
  apply Qlog2_unique.
  - rewrite pow2_add. apply Qmult_le_compat_r; [exact L|].
    apply Qlt_le_weak, pow2_pos.
  - replace (Z.log2 (Zpos m) + e + 1) with ((Z.log2 (Zpos m) + 1) + e) by lia.
    rewrite pow2_add. apply Qmult_lt_compat_r; [apply pow2_pos | exact U].
Qed.

(** ** Rounding to a float *)

#[export] Instance signed_compat (s : bool) :
  Proper (Qeq ==> Qeq) (signed s).
Proof. intros x y H. unfold signed. destruct s; now rewrite H. Qed.

Lemma fexp_mono (a b : Z) : a <= b -> fexp prec emax a <= fexp prec emax b.
Proof. unfold fexp. lia. Qed.

Lemma fexp_ge_emin (a : Z) : 3 - emax - prec <= fexp prec emax a.
Proof. unfold fexp, emin. lia. Qed.

Lemma Qle_bool_false_pos (q : Q) : (0 < q)%Q -> Qle_bool q 0 = false.
Proof.
  intros H. destruct (Qle_bool q 0) eqn:E; [|reflexivity].
  apply Qle_bool_iff in E. exfalso. lra.
Qed.

Lemma SF2Q_finite (s : bool) (m : positive) (e : Z) :
  (SF2Q (S754_finite s m e) == signed s (inject_Z (Zpos m) * 2 ^ e))%Q.
Proof. unfold SF2Q, signed. destruct s; ring. Qed.

(** The value of a rounded magnitude: the scaled magnitude, rounded to an
    integer, at the exponent of its binade. *)
Lemma round_float_value (s : bool) (q : Q) :
  (0 < q)%Q ->
  let e := fexp prec emax (Qlog2 q + 1) in
  let m := rneQ (q * 2 ^ (- e)) in
  Z.log2 m + e < emax ->
  is_finite (round_float s q) = true
  /\ sign_of (round_float s q) = s
  /\ (SF2Q (round_float s q) == signed s (inject_Z m * 2 ^ e))%Q.
Proof.
  intros Hq e m Hov. unfold round_float.
  rewrite (Qle_bool_false_pos _ Hq). fold e. fold m.
  assert (Hm : 0 <= m).
  { apply rneQ_nonneg. apply Qmult_le_0_compat; [lra|].
    apply Qlt_le_weak, pow2_pos. }
  destruct m as [| p | p] eqn:Em; [| | lia].
  - split; [reflexivity | split; [reflexivity|]].
    unfold SF2Q, signed. destruct s; ring.
  - replace (emax <=? Z.log2 (Zpos p) + e) with false
      by (symmetry; apply Z.leb_gt; exact Hov).
    destruct (Zpos p =? 2 ^ prec) eqn:Ec.
    + apply Z.eqb_eq in Ec. split; [reflexivity | split; [reflexivity|]].
      rewrite SF2Q_finite. rewrite Ec.
      change (Zpos (Z.to_pos (2 ^ (prec - 1)))) with (2 ^ (prec - 1)).
      rewrite !pow2_inject by (unfold prec; lia).
      rewrite <- !pow2_add.
      now replace (prec - 1 + (e + 1)) with (prec + e) by lia.
    + split; [reflexivity | split; [reflexivity|]]. apply SF2Q_finite.
Qed.

Lemma log2_mul_pow2 (m : positive) (k : Z) :
  0 <= k -> Z.log2 (Zpos m * 2 ^ k) = Z.log2 (Zpos m) + k.
Proof. intros H. rewrite Z.log2_mul_pow2; lia. Qed.

Lemma dyadic_scale (m : positive) (e0 e : Z) :
  e <= e0 ->
  (inject_Z (Zpos m) * 2 ^ e0 * 2 ^ (- e)
   == inject_Z (Zpos m * 2 ^ (e0 - e)))%Q.
Proof.
  intros H. rewrite inject_Z_mult, pow2_inject by lia.
  rewrite <- Qmult_assoc, <- pow2_add.
  now replace (e0 + - e) with (e0 - e) by lia.
Qed.

(** A magnitude below a float rounds to a float that is not above it. *)
Lemma round_float_le (s : bool) (q : Q) (mB : positive) (eB : Z) :
  (0 < q)%Q -> (q <= inject_Z (Zpos mB) * 2 ^ eB)%Q ->
  fexp prec emax (Z.log2 (Zpos mB) + eB + 1) = eB ->
  Z.log2 (Zpos mB) + eB < emax ->
  is_finite (round_float s q) = true
  /\ sign_of (round_float s q) = s
  /\ (Qabs (SF2Q (round_float s q)) <= inject_Z (Zpos mB) * 2 ^ eB)%Q.
Proof.
  intros Hq Hle Hcan Hov.
  set (e := fexp prec emax (Qlog2 q + 1)).
  set (m := rneQ (q * 2 ^ (- e))).
  assert (He : e <= eB).
  { rewrite <- Hcan. apply fexp_mono.
    rewrite <- (Qlog2_dyadic mB eB).
    pose proof (Qlog2_mono _ _ Hq Hle). lia. }
  assert (Hm0 : 0 <= m).
  { apply rneQ_nonneg. apply Qmult_le_0_compat; [lra|].
    apply Qlt_le_weak, pow2_pos. }
  assert (Hm : m <= Zpos mB * 2 ^ (eB - e)).
  { rewrite <- (rneQ_inject_Z (Zpos mB * 2 ^ (eB - e))).
    rewrite <- (rneQ_compat _ _ (dyadic_scale mB eB e He)).
    apply rneQ_mono. apply Qmult_le_compat_r; [exact Hle|].
    apply Qlt_le_weak, pow2_pos. }
  assert (Hov' : Z.log2 m + e < emax).
  { pose proof (Z.log2_le_mono _ _ Hm) as Hl.
    rewrite log2_mul_pow2 in Hl by lia. lia. }
  destruct (round_float_value s q Hq Hov') as (Hf & Hs & Hv).
  fold e in Hv. fold m in Hv.
  split; [exact Hf | split; [exact Hs|]].
  rewrite Hv.
  assert (Habs : (Qabs (signed s (inject_Z m * 2 ^ e)) == inject_Z m * 2 ^ e)%Q).
  { assert (0 <= inject_Z m * 2 ^ e)%Q.
    { apply Qmult_le_0_compat; [now rewrite <- Zle_Qle with (x := 0)|].
      apply Qlt_le_weak, pow2_pos. }
    unfold signed. destruct s; [rewrite Qabs_opp|]; now apply Qabs_pos. }
  rewrite Habs.
  apply Qle_trans with (inject_Z (Zpos mB * 2 ^ (eB - e)) * 2 ^ e)%Q.
  - apply Qmult_le_compat_r; [now rewrite <- Zle_Qle|].
    apply Qlt_le_weak, pow2_pos.
  - rewrite <- (dyadic_scale mB eB e He).
    rewrite <- Qmult_assoc, (Qmult_comm (2 ^ (- e))), pow2_cancel.
    rewrite Qmult_1_r. apply Qle_refl.
Qed.

(** A magnitude that is a float already is not changed by rounding. *)
Lemma round_float_exact (s : bool) (q : Q) (m0 : positive) (e0 : Z) :
  (q == inject_Z (Zpos m0) * 2 ^ e0)%Q ->
  Z.log2 (Zpos m0) < prec -> 3 - emax - prec <= e0 ->
  Z.log2 (Zpos m0) + e0 < emax ->
  is_finite (round_float s q) = true
  /\ sign_of (round_float s q) = s
  /\ (SF2Q (round_float s q) == signed s q)%Q.
Proof.
  intros Hval Hm He Hov.
  assert (Hq : (0 < q)%Q).
  { rewrite Hval. apply Qmult_lt_0_compat; [reflexivity | apply pow2_pos]. }
  set (e := fexp prec emax (Qlog2 q + 1)).
  assert (Hlog : Qlog2 q = Z.log2 (Zpos m0) + e0).
  { rewrite (Qlog2_compat _ _ Hq Hval). apply Qlog2_dyadic. }
  assert (Hee : e <= e0) by (unfold e, fexp, emin; rewrite Hlog; lia).
  assert (Hm' : rneQ (q * 2 ^ (- e)) = Zpos m0 * 2 ^ (e0 - e)).
  { rewrite <- (rneQ_inject_Z (Zpos m0 * 2 ^ (e0 - e))).
    apply rneQ_compat. rewrite Hval. now apply dyadic_scale. }
  assert (Hov' : Z.log2 (rneQ (q * 2 ^ (- e))) + e < emax).
  { rewrite Hm', log2_mul_pow2 by lia. lia. }
  destruct (round_float_value s q Hq Hov') as (Hf & Hs & Hv).
  fold e in Hv. rewrite Hm' in Hv.
  split; [exact Hf | split; [exact Hs|]].
  rewrite Hv. unfold signed.
  assert (E : (inject_Z (Zpos m0 * 2 ^ (e0 - e)) * 2 ^ e == q)%Q).
  { rewrite <- (dyadic_scale m0 e0 e Hee), <- Hval.
    rewrite <- Qmult_assoc, (Qmult_comm (2 ^ (- e))), pow2_cancel.
    apply Qmult_1_r. }
  destruct s; now rewrite E.
Qed.

(** ** Well-formed floats *)

Lemma digits2_size (m : positive) : digits2_pos m = Pos.size m.
Proof. induction m as [m IH | m IH |]; simpl; now rewrite ?IH. Qed.

Lemma digits2_log2 (m : positive) :
  Zpos (digits2_pos m) = Z.log2 (Zpos m) + 1.
Proof.
  rewrite digits2_size. destruct m as [m | m |]; simpl; try reflexivity;
    now rewrite Pos.add_1_r.
Qed.

Lemma valid_finite_bounds (s : bool) (m : positive) (e : Z) :
  valid_binary prec emax (S754_finite s m e) = true ->
  Z.log2 (Zpos m) < prec /\ 3 - emax - prec <= e
  /\ Z.log2 (Zpos m) + e < emax
  /\ fexp prec emax (Z.log2 (Zpos m) + e + 1) = e.
Proof.
  cbn [valid_binary]. unfold bounded, canonical_mantissa.
  rewrite digits2_log2. intros H. apply andb_true_iff in H.
  destruct H as [H1 H2]. apply Z.eqb_eq in H1. apply Z.leb_le in H2.
  replace (Z.log2 (Zpos m) + e + 1) with (Z.log2 (Zpos m) + 1 + e) by lia.
  unfold fexp, emin in *. unfold prec, emax in *. lia.
Qed.

(* ================================================================= *)
(** * [fractional]: the approximating fraction *)

(** ** [Fraction] *)

Lemma Fraction_pos (n d : Z) :
  0 < d ->
  exists r,
    Fraction n d = Ret r
    /\ 1 <= denominator r <= d
    /\ Z.gcd (numerator r) (denominator r) = 1
    /\ numerator r * d = n * denominator r
    /\ (0 <= n -> 0 <= numerator r)
    /\ (n <= 0 -> numerator r <= 0)
    /\ (Z.abs n <= d -> Z.abs (numerator r) <= denominator r).
Proof.
  intros Hd. unfold Fraction.
  replace (d =? 0) with false by (symmetry; apply Z.eqb_neq; lia).
  replace (d <? 0) with false by (symmetry; apply Z.ltb_ge; lia).
  eexists. split; [reflexivity|]. cbn [numerator denominator].
  set (g := Z.gcd n d).
  assert (Hg : 0 < g).
  { pose proof (Z.gcd_nonneg n d) as H0.
    assert (g <> 0); [|lia].
    unfold g. intros E. apply Z.gcd_eq_0_r in E. lia. }
  destruct (Z.gcd_divide_l n d) as [n' Hn]. fold g in Hn.
  destruct (Z.gcd_divide_r n d) as [d' Hd'].  fold g in Hd'.
  assert (En : n / g = n') by (rewrite Hn; apply Z.div_mul; lia).
  assert (Ed : d / g = d') by (rewrite Hd'; apply Z.div_mul; lia).
  assert (Hgcd : Z.gcd (n / g) (d / g) = 1)
    by (apply Z.gcd_div_gcd; [lia | reflexivity]).
  rewrite En, Ed in *.
  repeat split; try nia; exact Hgcd.
Qed.

(** ** The continued-fraction loop *)

Section LimitDenominator.

Variables max N D : Z.
Hypothesis Hmax : 1 <= max.
Hypothesis Hbig : max < D.
Hypothesis Hunit : - D < N < D.

Lemma div_unit_interval : (0 <= N -> N / D = 0) /\ (N < 0 -> N / D = -1).
Proof.
  split; intros H.
  - apply Z.div_small. lia.
  - symmetry. apply (Z.div_unique N D (-1) (N + D)); lia.
Qed.

Lemma cf_inv_exit (p0 q0 p1 q1 n d : Z) :
  cf_inv max N D p0 q0 p1 q1 n d -> max < q0 + n / d * q1 -> cf_exit max N p0 q0 p1 q1.
Proof.
  intros (Hd & Hg & Hlin & Hq0 & Hq1 & Hcase) Hbreak. unfold cf_exit.
  destruct Hcase as [(-> & -> & -> & -> & -> & ->)
                    | [(-> & -> & -> & Hdn & Hp) | (Hq & Hdn & Hpos & Hneg)]].
  - exfalso. lia.
  - replace ((max - 0) / 1) with max by (rewrite Z.sub_0_r, Z.div_1_r; lia).
    destruct Hp as [[HN ->] | [HN ->]]; repeat split; lia.
  - set (k := (max - q0) / q1).
    assert (Hk0 : 0 <= k) by (apply Z.div_pos; lia).
    assert (Hk1 : k * q1 <= max - q0)
      by (rewrite Z.mul_comm; apply Z.mul_div_le; lia).
    assert (Hk2 : max - q0 < k * q1 + q1).
    { pose proof (Z.mod_pos_bound (max - q0) q1 ltac:(lia)) as Hm.
      pose proof (Z.div_mod (max - q0) q1 ltac:(lia)) as Hdm.
      fold k in Hdm. lia. }
    split; [lia|]. split; [lia|]. split.
    + intros HN. specialize (Hpos HN). split; [lia | nia].
    + intros HN. specialize (Hneg HN). split; [lia | nia].
Qed.

Lemma cf_inv_step (p0 q0 p1 q1 n d : Z) :
  cf_inv max N D p0 q0 p1 q1 n d -> q0 + n / d * q1 <= max ->
  cf_inv max N D p1 q1 (p0 + n / d * p1) (q0 + n / d * q1) d (n - n / d * d)
  /\ 2 * q1 + q0 < 2 * (q0 + n / d * q1) + q1.
Proof.
  intros (Hd & Hg & Hlin & Hq0 & Hq1 & Hcase) Hcont.
  set (a := n / d) in *.
  assert (Hmod : n - a * d = n mod d)
    by (unfold a; rewrite Z.mod_eq by lia; ring).
  pose proof (Z.mod_pos_bound n d Hd) as Hmb.
  assert (Hg' : Z.gcd d (n mod d) = 1).
  { rewrite Z.gcd_comm, Z.gcd_mod by lia. now rewrite Z.gcd_comm. }
  assert (Hlin' : (q0 + a * q1) * d + q1 * (n - a * d) = D) by lia.
  assert (Hd' : 0 < n mod d).
  { destruct (Z.eq_dec (n mod d) 0) as [E | E]; [|lia].
    exfalso. rewrite E, Z.gcd_0_r in Hg'. rewrite Hmod, E in Hlin'.
    assert (d = 1) by lia. subst d. lia. }
  assert (Ha : q1 <> 0 -> d < n -> 1 <= a).
  { intros _ H. unfold a. apply Z.div_le_lower_bound; lia. }
  rewrite Hmod.
  destruct Hcase as [(-> & -> & -> & -> & -> & ->)
                    | [(-> & -> & -> & Hdn & Hp) | (Hq & Hdn & Hpos & Hneg)]].
  - (* the first pass *)
    destruct div_unit_interval as [Hz Hm]. fold a in Hz, Hm.
    split; [|lia].
    split; [exact Hd'|]. split; [exact Hg'|]. split; [lia|].
    split; [lia|]. split; [lia|].
    right; left.
    split; [reflexivity|]. split; [reflexivity|]. split; [lia|].
    split; [lia|].
    destruct (Z.lt_ge_cases N 0) as [HN | HN].
    + right. rewrite (Hm HN). lia.
    + left. rewrite (Hz HN). lia.
  - (* the second pass *)
    specialize (Ha ltac:(lia) Hdn).
    split; [|lia].
    split; [exact Hd'|]. split; [exact Hg'|]. split; [lia|].
    split; [lia|]. split; [lia|].
    right; right.
    split; [lia|]. split; [lia|].
    destruct Hp as [[HN ->] | [HN ->]]; split; intros H; lia.
  - (* every later pass *)
    specialize (Ha ltac:(lia) Hdn).
    split; [|nia].
    split; [exact Hd'|]. split; [exact Hg'|]. split; [lia|].
    split; [lia|]. split; [nia|].
    right; right.
    split; [nia|]. split; [lia|].
    split; intros H; [specialize (Hpos H) | specialize (Hneg H)];
      (split; [lia | nia]).
Qed.

Lemma convergents_exit (fuel : nat) :
  forall p0 q0 p1 q1 n d,
    cf_inv max N D p0 q0 p1 q1 n d ->
    3 * max - (2 * q1 + q0) < Z.of_nat fuel ->
    exists p0' q0' p1' q1',
      convergents fuel max p0 q0 p1 q1 n d = Ret (p0', q0', p1', q1')
      /\ cf_exit max N p0' q0' p1' q1'.
Proof.
  induction fuel as [| fuel IH]; intros p0 q0 p1 q1 n d Hinv Hfuel.
  - exfalso. destruct Hinv as (_ & _ & _ & Hq0 & Hq1 & _). lia.
  - cbn [convergents].
    assert (Hd : 0 < d) by apply Hinv.
    replace (d =? 0) with false by (symmetry; apply Z.eqb_neq; lia).
    destruct (max <? q0 + n / d * q1) eqn:Hb.
    + apply Z.ltb_lt in Hb. exists p0, q0, p1, q1.
      split; [reflexivity|]. now apply (cf_inv_exit p0 q0 p1 q1 n d).
    + apply Z.ltb_ge in Hb.
      destruct (cf_inv_step _ _ _ _ _ _ Hinv Hb) as [Hinv' Hmeasure].
      apply IH; [exact Hinv' | lia].
Qed.

End LimitDenominator.

(** [limit_denominator] on a fraction in lowest terms, of magnitude below
    one: it returns, and what it returns is in lowest terms, with a
    denominator within the bound, a numerator no larger than the
    denominator, and the sign of the fraction it approximates. *)
Lemma limit_denominator_spec (x : fraction) (max : Z) :
  1 <= max -> 0 < denominator x ->
  Z.gcd (numerator x) (denominator x) = 1 ->
  Z.abs (numerator x) < denominator x \/ denominator x = 1 ->
  exists r,
    limit_denominator x max = Ret r
    /\ 1 <= denominator r <= max
    /\ Z.gcd (numerator r) (denominator r) = 1
    /\ (0 <= numerator x -> 0 <= numerator r)
    /\ (numerator x <= 0 -> numerator r <= 0)
    /\ (Z.abs (numerator x) < denominator x ->
        Z.abs (numerator r) <= denominator r).
Proof.
  intros Hmax Hd Hg Hunit. unfold limit_denominator.
  replace (max <? 1) with false by (symmetry; apply Z.ltb_ge; lia).
  destruct (denominator x <=? max) eqn:Hsmall.
  - apply Z.leb_le in Hsmall. exists x. repeat split; try lia; assumption.
  - apply Z.leb_gt in Hsmall.
    assert (Hunit' : - denominator x < numerator x < denominator x) by lia.
    assert (Hinv : cf_inv max (numerator x) (denominator x)
                     0 1 1 0 (numerator x) (denominator x)).
    { split; [lia|]. split; [exact Hg|]. split; [lia|].
      split; [lia|]. split; [lia|]. left. repeat split. }
    destruct (convergents_exit max (numerator x) (denominator x)
                Hmax Hsmall Hunit'
                (Z.to_nat (3 * max + 3)) 0 1 1 0 _ _ Hinv ltac:(lia))
      as (p0 & q0 & p1 & q1 & -> & Hexit).
    cbn [bind]. destruct Hexit as (Hq1 & Hqk & Hpos & Hneg).
    replace (q1 =? 0) with false by (symmetry; apply Z.eqb_neq; lia).
    set (k := (max - q0) / q1) in *.
    destruct (Fraction_pos (p0 + k * p1) (q0 + k * q1) ltac:(lia))
      as (b1 & -> & Hb1d & Hb1g & _ & Hb1p & Hb1n & Hb1a).
    destruct (Fraction_pos p1 q1 ltac:(lia))
      as (b2 & -> & Hb2d & Hb2g & _ & Hb2p & Hb2n & Hb2a).
    cbn [bind].
    assert (Hnz : numerator x <> 0).
    { intros E. rewrite E, Z.gcd_0_l in Hg. lia. }
    assert (Hsign : 0 < numerator x \/ numerator x < 0) by lia.
    destruct (closer_or_equal b2 b1 x); eexists; (split; [reflexivity|]);
      (split; [lia|]); (split; [assumption|]);
      (split; [|split]); intros H;
      destruct Hsign as [Hs | Hs];
      try specialize (Hpos ltac:(lia)); try specialize (Hneg ltac:(lia));
      lia.
Qed.

(* ================================================================= *)
(** * [fractional]: whole part and remainder *)

(** ** Floor and remainder of a dyadic magnitude *)

Lemma Qfloor_unique (q : Q) (a : Z) :
  (inject_Z a <= q)%Q -> (q < inject_Z a + 1)%Q -> Qfloor q = a.
Proof.
  intros L U. destruct (Qfloor_bounds q) as [L' U'].
  assert (H1 : (inject_Z a < inject_Z (Qfloor q + 1))%Q)
    by (rewrite inject_Z_plus; change (inject_Z 1) with 1%Q; lra).
  assert (H2 : (inject_Z (Qfloor q) < inject_Z (a + 1))%Q)
    by (rewrite inject_Z_plus; change (inject_Z 1) with 1%Q; lra).
  rewrite <- Zlt_Qlt in H1, H2. lia.
Qed.

Lemma dyadic_neg (m : Z) (e : Z) :
  e < 0 ->
  (inject_Z m * 2 ^ e * inject_Z (2 ^ (- e)) == inject_Z m)%Q.
Proof.
  intros He. rewrite pow2_inject by lia.
  rewrite <- Qmult_assoc, pow2_cancel. apply Qmult_1_r.
Qed.

Lemma pow2Z_pos (k : Z) : 0 <= k -> (0 < inject_Z (2 ^ k))%Q.
Proof.
  intros H. rewrite pow2_inject by lia. apply pow2_pos.
Qed.

Lemma floor_dyadic (m : positive) (e : Z) :
  Qfloor (inject_Z (Zpos m) * 2 ^ e)
  = if 0 <=? e then Zpos m * 2 ^ e else Zpos m / 2 ^ (- e).
Proof.
  destruct (0 <=? e) eqn:He.
  - apply Z.leb_le in He.
    rewrite <- (pow2_inject e He), <- inject_Z_mult. apply Qfloor_Z.
  - apply Z.leb_gt in He.
    assert (Hk : 0 < 2 ^ (- e)) by (apply Z.pow_pos_nonneg; lia).
    pose proof (pow2Z_pos (- e) ltac:(lia)) as Hkq.
    apply Qfloor_unique.
    + apply (Qmult_le_r _ _ _ Hkq). rewrite dyadic_neg by lia.
      rewrite <- inject_Z_mult, <- Zle_Qle.
      rewrite Z.mul_comm. apply Z.mul_div_le. lia.
    + apply (Qmult_lt_r _ _ _ Hkq). rewrite dyadic_neg by lia.
      change 1%Q with (inject_Z 1).
      rewrite <- inject_Z_plus, <- inject_Z_mult, <- Zlt_Qlt.
      rewrite Z.mul_comm. replace (Zpos m / 2 ^ (- e) + 1)
        with (Z.succ (Zpos m / 2 ^ (- e))) by lia.
      apply Z.mul_succ_div_gt. lia.
Qed.

Lemma frac_dyadic (m : positive) (e : Z) :
  e < 0 ->
  (inject_Z (Zpos m) * 2 ^ e - inject_Z (Zpos m / 2 ^ (- e))
   == inject_Z (Zpos m mod 2 ^ (- e)) * 2 ^ e)%Q.
Proof.
  intros He.
  assert (Hk : 0 < 2 ^ (- e)) by (apply Z.pow_pos_nonneg; lia).
  pose proof (Z.div_mod (Zpos m) (2 ^ (- e)) ltac:(lia)) as Hdm.
  rewrite Hdm at 1.
  rewrite inject_Z_plus, inject_Z_mult, pow2_inject by lia.
  assert (Hc : (2 ^ (- e) * 2 ^ e == 1)%Q).
  { rewrite <- pow2_add. now replace (- e + e) with 0 by lia. }
  set (a := inject_Z (Zpos m / 2 ^ (- e))).
  set (b := inject_Z (Zpos m mod 2 ^ (- e))).
  transitivity (a * (2 ^ (- e) * 2 ^ e) + b * 2 ^ e - a)%Q; [ring|].
  rewrite Hc. ring.
Qed.

(** ** Truncation *)

Lemma trunc_float_finite (s : bool) (m : positive) (e : Z) :
  trunc_float (S754_finite s m e)
  = Ret (Qtrunc (SF2Q (S754_finite s m e))).
Proof.
  cbn [trunc_float]. rewrite <- floor_dyadic. f_equal.
  assert (Hpos : (0 < inject_Z (Zpos m) * 2 ^ e)%Q)
    by (apply Qmult_lt_0_compat; [reflexivity | apply pow2_pos]).
  unfold Qtrunc. destruct s.
  - assert (E : (SF2Q (S754_finite true m e)
                 == - (inject_Z (Zpos m) * 2 ^ e))%Q)
      by (unfold SF2Q; ring).
    replace (Qle_bool 0 (SF2Q (S754_finite true m e))) with false.
    2:{ symmetry. destruct (Qle_bool 0 _) eqn:B; [|reflexivity].
        apply Qle_bool_iff in B. rewrite E in B. exfalso. lra. }
    f_equal. apply Qfloor_comp. rewrite E. ring.
  - assert (E : (SF2Q (S754_finite false m e)
                 == inject_Z (Zpos m) * 2 ^ e)%Q)
      by (unfold SF2Q; ring).
    replace (Qle_bool 0 (SF2Q (S754_finite false m e))) with true.
    2:{ symmetry. apply Qle_bool_iff. rewrite E. lra. }
    apply Qfloor_comp. now rewrite E.
Qed.

Lemma trunc_float_spec (x : spec_float) :
  is_finite x = true -> trunc_float x = Ret (Qtrunc (SF2Q x)).
Proof.
  destruct x as [s | s | | s m e]; try discriminate; intros _.
  - reflexivity.
  - apply trunc_float_finite.
Qed.

(** ** Integers that floats hold exactly *)

Lemma small_representable (z : Z) : Z.abs z < 2 ^ prec -> representable z.
Proof.
  intros H. destruct (Z.eq_dec z 0) as [-> | Hz]; [now left | right].
  exists (Z.to_pos (Z.abs z)), 0.
  assert (Hp : Zpos (Z.to_pos (Z.abs z)) = Z.abs z)
    by (apply Z2Pos.id; lia).
  rewrite Hp. repeat split; try lia.
  - apply Z.log2_lt_pow2; [lia | exact H].
  - assert (Z.log2 (Z.abs z) < prec) by (apply Z.log2_lt_pow2; [lia | exact H]).
    unfold prec, emax in *. lia.
Qed.

Lemma float_of_Z_exact (z : Z) :
  representable z ->
  exists f,
    float_of_Z z = Ret f /\ is_finite f = true
    /\ sign_of f = (z <? 0) /\ (SF2Q f == inject_Z z)%Q.
Proof.
  intros [-> | (m0 & e0 & He0 & Habs & Hm & Hov)].
  - exists (S754_zero false). repeat split.
  - unfold float_of_Z.
    assert (Hq : (inject_Z (Z.abs z) == inject_Z (Zpos m0) * 2 ^ e0)%Q).
    { rewrite Habs, inject_Z_mult. now rewrite pow2_inject. }
    destruct (round_float_exact (z <? 0) _ m0 e0 Hq Hm
                ltac:(unfold emax, prec; lia) Hov) as (Hf & Hs & Hv).
    destruct (round_float (z <? 0) (inject_Z (Z.abs z))) as [s | s | | s m e]
      eqn:Er; try discriminate Hf.
    + eexists. split; [reflexivity|]. split; [reflexivity|].
      split; [exact Hs|]. rewrite Hv. unfold signed.
      destruct (z <? 0) eqn:Hz.
      * apply Z.ltb_lt in Hz. rewrite Z.abs_neq by lia.
        rewrite inject_Z_opp. ring.
      * apply Z.ltb_ge in Hz. now rewrite Z.abs_eq by lia.
    + eexists. split; [reflexivity|]. split; [reflexivity|].
      split; [exact Hs|]. rewrite Hv. unfold signed.
      destruct (z <? 0) eqn:Hz.
      * apply Z.ltb_lt in Hz. rewrite Z.abs_neq by lia.
        rewrite inject_Z_opp. ring.
      * apply Z.ltb_ge in Hz. now rewrite Z.abs_eq by lia.
Qed.

Lemma str_of_Z_abs (z : Z) (s : bool) :
  s = (z <? 0) ->
  (if s then "-" else "") ++ str_of_N (Z.to_N (Z.abs z)) = str_of_Z z.
Proof.
  intros ->. unfold str_of_Z.
  replace (Z.to_N (Z.abs z)) with (Z.abs_N z) by now destruct z.
  destruct (z <? 0); reflexivity.
Qed.

(** ["%.0f" % z] is the decimal text of [z] when a float holds [z]. *)
Lemma fmt_fixed0_int_exact (z : Z) :
  representable z -> fmt_fixed0_int z = Ret (str_of_Z z).
Proof.
  intros Hz. destruct (float_of_Z_exact z Hz) as (f & Hfz & Hf & Hs & Hv).
  unfold fmt_fixed0_int. rewrite Hfz. cbn [bind]. f_equal.
  assert (Ht : rneQ (Qabs (SF2Q f) * 10 ^ Z.of_nat 0) = Z.abs z).
  { rewrite <- (rneQ_inject_Z (Z.abs z)). apply rneQ_compat.
    rewrite Hv. cbn [Z.of_nat Qpower]. rewrite Qmult_1_r.
    unfold Z.abs, Qabs, inject_Z. now destruct z. }
  assert (Hshow : show_scaled 0 (Z.abs z) = str_of_N (Z.to_N (Z.abs z))).
  { unfold show_scaled. cbn [Z.of_nat]. now rewrite Z.pow_0_r, Z.div_1_r. }
  destruct f as [s | s | | s m e]; try discriminate Hf;
    cbn [fmt_fixed]; rewrite Ht, Hshow; apply str_of_Z_abs; exact Hs.
Qed.

(** ** The whole part and the remainder of a float *)

Lemma magnitude_pos (m : positive) (e : Z) : (0 < magnitude m e)%Q.
Proof. apply Qmult_lt_0_compat; [reflexivity | apply pow2_pos]. Qed.

Lemma SF2Q_magnitude (s : bool) (m : positive) (e : Z) :
  (SF2Q (S754_finite s m e) == signed s (magnitude m e))%Q.
Proof. apply SF2Q_finite. Qed.

Lemma Qtrunc_finite (s : bool) (m : positive) (e : Z) :
  Qtrunc (SF2Q (S754_finite s m e))
  = if s then - Qfloor (magnitude m e) else Qfloor (magnitude m e).
Proof.
  pose proof (trunc_float_finite s m e) as H. unfold trunc_float in H.
  assert (inj : forall a b : Z, Ret a = Ret b -> a = b)
    by (intros a b E; now injection E).
  apply inj in H. rewrite <- H. unfold magnitude. rewrite floor_dyadic.
  destruct s; reflexivity.
Qed.

Lemma remainder_finite (s : bool) (m : positive) (e : Z) :
  (SF2Q (S754_finite s m e)
   - inject_Z (Qtrunc (SF2Q (S754_finite s m e)))
   == signed s (magnitude m e - inject_Z (Qfloor (magnitude m e))))%Q.
Proof.
  rewrite Qtrunc_finite, SF2Q_magnitude. unfold signed.
  destruct s; [rewrite inject_Z_opp|]; ring.
Qed.

Lemma whole_representable (s : bool) (m : positive) (e : Z) :
  valid_binary prec emax (S754_finite s m e) = true ->
  representable (Qtrunc (SF2Q (S754_finite s m e))).
Proof.
  intros Hv. destruct (valid_finite_bounds _ _ _ Hv) as (Hm & He & Hov & _).
  rewrite Qtrunc_finite. unfold magnitude. rewrite floor_dyadic.
  destruct (0 <=? e) eqn:Hpos.
  - apply Z.leb_le in Hpos. right. exists m, e.
    assert (0 < Zpos m * 2 ^ e) by (apply Z.mul_pos_pos; [lia | apply Z.pow_pos_nonneg; lia]).
    repeat split; try assumption.
    destruct s; lia.
  - apply Z.leb_gt in Hpos. apply small_representable.
    assert (Hk : 0 < 2 ^ (- e)) by (apply Z.pow_pos_nonneg; lia).
    assert (0 <= Zpos m / 2 ^ (- e) <= Zpos m).
    { split; [apply Z.div_pos; lia|].
      apply Z.div_le_upper_bound; [lia|]. nia. }
    assert (Zpos m < 2 ^ prec).
    { apply Z.log2_lt_pow2; [lia | exact Hm]. }
    destruct s; lia.
Qed.

(** ** Subtraction without rounding *)

Lemma float_sub_exact (sx : bool) (mx : positive) (ex : Z)
      (sy : bool) (my : positive) (ey : Z) (r1 : Z) (e1 : Z) :
  let x := S754_finite sx mx ex in
  let y := S754_finite sy my ey in
  (Qabs (SF2Q x - SF2Q y) == inject_Z r1 * 2 ^ e1)%Q ->
  0 <= r1 < 2 ^ prec -> 3 - emax - prec <= e1 -> e1 < 0 ->
  is_finite (float_sub x y) = true
  /\ (SF2Q (float_sub x y) == SF2Q x - SF2Q y)%Q.
Proof.
  intros x y Habs Hr He Hneg. subst x y. cbn [float_sub].
  set (d := (SF2Q (S754_finite sx mx ex) - SF2Q (S754_finite sy my ey))%Q)
    in *.
  destruct (Qeq_bool d 0) eqn:Hz.
  - apply Qeq_bool_iff in Hz. split; [reflexivity|]. now rewrite Hz.
  - assert (Hd : ~ (d == 0)%Q).
    { intros E. apply Qeq_bool_iff in E. congruence. }
    assert (Hr1 : 0 < r1).
    { destruct (Z.eq_dec r1 0) as [-> | ]; [|lia].
      exfalso. apply Hd. rewrite Qmult_0_l in Habs.
      revert Habs. apply Qabs_case; intros; lra. }
    assert (Hp : Zpos (Z.to_pos r1) = r1) by (apply Z2Pos.id; lia).
    assert (Hlog : Z.log2 r1 < prec) by (apply Z.log2_lt_pow2; lia).
    destruct (round_float_exact (negb (Qle_bool 0 d)) (Qabs d)
                (Z.to_pos r1) e1) as (Hf & _ & Hv).
    + now rewrite Hp.
    + now rewrite Hp.
    + exact He.
    + rewrite Hp. unfold prec, emax in *. lia.
    + split; [exact Hf|]. rewrite Hv. unfold signed.
      destruct (Qle_bool 0 d) eqn:Hs; cbn [negb].
      * apply Qle_bool_iff in Hs. now apply Qabs_pos.
      * assert (d <= 0)%Q.
        { apply Qlt_le_weak, Qnot_le_lt. intros H.
          apply Qle_bool_iff in H. congruence. }
        rewrite Qabs_neg by assumption. ring.
Qed.

(** The remainder of a float after its whole part is a float. *)
Lemma float_sub_whole (x fw : spec_float) :
  is_finite x = true -> valid_binary prec emax x = true ->
  is_finite fw = true ->
  (SF2Q fw == inject_Z (Qtrunc (SF2Q x)))%Q ->
  is_finite (float_sub x fw) = true
  /\ (SF2Q (float_sub x fw) == SF2Q x - inject_Z (Qtrunc (SF2Q x)))%Q.
Proof.
  intros Hfx Hvx Hfw Hw.
  destruct x as [sx | sx | | sx mx ex]; try discriminate Hfx.
  - (* zero *)
    change (Qtrunc (SF2Q (S754_zero sx))) with 0 in *.
    destruct fw as [sy | sy | | sy my ey]; try discriminate Hfw.
    + cbn [float_sub]. destruct (Bool.eqb sx sy); split; reflexivity.
    + exfalso. rewrite SF2Q_magnitude in Hw.
      pose proof (magnitude_pos my ey). unfold signed in Hw.
      destruct sy; change (inject_Z 0) with 0%Q in Hw; lra.
  - destruct fw as [sy | sy | | sy my ey]; try discriminate Hfw.
    + (* the whole part is zero *)
      cbn [float_sub]. split; [reflexivity|].
      rewrite <- Hw. change (SF2Q (S754_zero sy)) with 0%Q. ring.
    + destruct (valid_finite_bounds _ _ _ Hvx) as (Hm & He & Hov & _).
      pose proof (remainder_finite sx mx ex) as Hrem.
      destruct (Z.lt_ge_cases ex 0) as [Hneg | Hpos].
      * destruct (float_sub_exact sx mx ex sy my ey
                    (Zpos mx mod 2 ^ (- ex)) ex) as (Hf & Hv).
        -- rewrite Hw, Hrem. unfold magnitude.
           rewrite floor_dyadic.
           replace (0 <=? ex) with false by (symmetry; apply Z.leb_gt; lia).
           rewrite frac_dyadic by lia.
           assert (0 <= inject_Z (Zpos mx mod 2 ^ (- ex)) * 2 ^ ex)%Q.
           { apply Qmult_le_0_compat; [|apply Qlt_le_weak, pow2_pos].
             rewrite <- (Zle_Qle 0). apply Z.mod_pos_bound.
             apply Z.pow_pos_nonneg; lia. }
           unfold signed. destruct sx; [rewrite Qabs_opp|];
             now apply Qabs_pos.
        -- assert (Hk : 0 < 2 ^ (- ex)) by (apply Z.pow_pos_nonneg; lia).
           pose proof (Z.mod_pos_bound (Zpos mx) _ Hk).
           assert (Zpos mx < 2 ^ prec)
             by (apply Z.log2_lt_pow2; [lia | exact Hm]).
           assert (Zpos mx mod 2 ^ (- ex) <= Zpos mx)
             by (apply Z.mod_le; lia).
           lia.
        -- exact He.
        -- exact Hneg.
        -- split; [exact Hf|]. now rewrite Hv, Hw.
      * (* an integer: the difference is zero *)
        assert (Hz : (SF2Q (S754_finite sx mx ex)
                      - SF2Q (S754_finite sy my ey) == 0)%Q).
        { rewrite Hw, Hrem. unfold magnitude. rewrite floor_dyadic.
          replace (0 <=? ex) with true by (symmetry; apply Z.leb_le; lia).
          rewrite inject_Z_mult, pow2_inject by lia.
          unfold signed. destruct sx; ring. }
        cbn [float_sub].
        replace (Qeq_bool _ 0) with true
          by (symmetry; apply Qeq_bool_iff; exact Hz).
        split; [reflexivity|].
        rewrite <- Hw, Hz. reflexivity.
Qed.

(** ** The exact fraction of a float *)

Lemma inject_Z_nonzero (z : Z) : z <> 0 -> ~ (inject_Z z == 0)%Q.
Proof. intros Hz E. unfold Qeq in E. simpl in E. lia. Qed.

Lemma Qfrac_make (n d : Z) (f : fraction) :
  0 < d -> 0 < denominator f -> numerator f * d = n * denominator f ->
  (Qfrac f == inject_Z n / inject_Z d)%Q.
Proof.
  intros Hd Hf Heq. unfold Qfrac.
  pose proof (inject_Z_nonzero d ltac:(lia)) as Hd'.
  pose proof (inject_Z_nonzero (denominator f) ltac:(lia)) as Hf'.
  apply (f_equal inject_Z) in Heq. rewrite !inject_Z_mult in Heq.
  field_simplify_eq; [|split; assumption].
  rewrite Heq. ring.
Qed.

Lemma fraction_of_float_spec (x : spec_float) :
  is_finite x = true ->
  exists f,
    fraction_of_float x = Ret f /\ 0 < denominator f
    /\ Z.gcd (numerator f) (denominator f) = 1
    /\ (Qfrac f == SF2Q x)%Q.
Proof.
  destruct x as [s | s | | s m e]; try discriminate; intros _.
  - eexists. split; [reflexivity|]. repeat split.
  - cbn [fraction_of_float].
    set (n := if s then Zneg m else Zpos m).
    assert (Hn : (inject_Z n == signed s (inject_Z (Zpos m)))%Q)
      by (unfold n, signed; destruct s; reflexivity).
    destruct (0 <=? e) eqn:He.
    + apply Z.leb_le in He. eexists. split; [reflexivity|].
      cbn [numerator denominator]. split; [lia|]. split.
      * apply Z.gcd_1_r.
      * unfold Qfrac. cbn [numerator denominator].
        rewrite SF2Q_finite, inject_Z_mult, Hn, pow2_inject by lia.
        unfold signed. destruct s; field.
    + apply Z.leb_gt in He.
      assert (Hk : 0 < 2 ^ (- e)) by (apply Z.pow_pos_nonneg; lia).
      destruct (Fraction_pos n (2 ^ (- e)) Hk)
        as (f & Hf & Hd & Hg & Hcross & _).
      exists f. split; [exact Hf|]. split; [lia|]. split; [exact Hg|].
      rewrite (Qfrac_make n (2 ^ (- e)) f Hk ltac:(lia) Hcross).
      rewrite SF2Q_finite, Hn, pow2_inject by lia.
      assert (Hc : (2 ^ (- e) * 2 ^ e == 1)%Q).
      { rewrite <- pow2_add. now replace (- e + e) with 0 by lia. }
      assert (Hnz : ~ (2 ^ (- e) == 0)%Q).
      { pose proof (pow2_pos (- e)). intros E. rewrite E in H. discriminate. }
      unfold signed. destruct s.
      * transitivity (- inject_Z (Zpos m) * (2 ^ (- e) * 2 ^ e) / 2 ^ (- e))%Q;
          [rewrite Hc; field; exact Hnz | field; exact Hnz].
      * transitivity (inject_Z (Zpos m) * (2 ^ (- e) * 2 ^ e) / 2 ^ (- e))%Q;
          [rewrite Hc; field; exact Hnz | field; exact Hnz].
Qed.

Lemma Qfrac_unit (f : fraction) :
  0 < denominator f -> (Qabs (Qfrac f) < 1)%Q ->
  Z.abs (numerator f) < denominator f.
Proof.
  intros Hd H. apply Qabs_Qlt_condition in H. destruct H as [L U].
  unfold Qfrac in *.
  assert (Hdq : (0 < inject_Z (denominator f))%Q)
    by (now rewrite <- (Zlt_Qlt 0)).
  assert (Hnum : (inject_Z (numerator f)
                  == inject_Z (numerator f) / inject_Z (denominator f)
                     * inject_Z (denominator f))%Q).
  { field. intros E. rewrite E in Hdq. discriminate. }
  assert (L' : (- inject_Z (denominator f) < inject_Z (numerator f))%Q).
  { rewrite Hnum.
    setoid_replace (- inject_Z (denominator f))%Q
      with (- (1) * inject_Z (denominator f))%Q by ring.
    now apply Qmult_lt_compat_r. }
  assert (U' : (inject_Z (numerator f) < inject_Z (denominator f))%Q).
  { rewrite Hnum at 1.
    setoid_replace (inject_Z (denominator f))%Q
      with (1 * inject_Z (denominator f))%Q at 3 by ring.
    now apply Qmult_lt_compat_r. }
  rewrite <- inject_Z_opp in L'. rewrite <- Zlt_Qlt in L', U'. lia.
Qed.

Lemma remainder_bounds (x : spec_float) :
  is_finite x = true ->
  let r := (SF2Q x - inject_Z (Qtrunc (SF2Q x)))%Q in
  (Qabs r < 1)%Q /\ ((SF2Q x < 0)%Q -> (r <= 0)%Q /\ Qtrunc (SF2Q x) <= 0).
Proof.
  destruct x as [s | s | | s m e]; try discriminate; intros _ r.
  - split; [reflexivity|]. intros H. discriminate H.
  - unfold r. pose proof (remainder_finite s m e) as Hrem.
    pose proof (Qfloor_bounds (magnitude m e)) as [L U].
    pose proof (magnitude_pos m e) as Hpos.
    assert (Hfl : 0 <= Qfloor (magnitude m e)).
    { rewrite <- (Qfloor_Z 0). apply Qfloor_resp_le.
      change (inject_Z 0) with 0%Q. lra. }
    split.
    + rewrite Hrem. unfold signed.
      destruct s; [rewrite Qabs_opp|]; rewrite Qabs_pos; lra.
    + intros Hneg. rewrite Hrem, Qtrunc_finite.
      rewrite SF2Q_magnitude in Hneg. unfold signed in *.
      destruct s; [split; [lra | lia] | exfalso; lra].
Qed.

Lemma whole_representable_any (x : spec_float) :
  is_finite x = true -> valid_binary prec emax x = true ->
  representable (Qtrunc (SF2Q x)).
Proof.
  destruct x as [s | s | | s m e]; try discriminate; intros _ Hv.
  - now left.
  - now apply whole_representable.
Qed.

Lemma numerator_sign (f : fraction) :
  0 < denominator f ->
  ((Qfrac f <= 0)%Q -> numerator f <= 0)
  /\ ((0 <= Qfrac f)%Q -> 0 <= numerator f).
Proof.
  intros Hd.
  assert (Hdq : (0 < inject_Z (denominator f))%Q)
    by (now rewrite <- (Zlt_Qlt 0)).
  assert (Hnum : (inject_Z (numerator f)
                  == Qfrac f * inject_Z (denominator f))%Q).
  { unfold Qfrac. field. intros E. rewrite E in Hdq. discriminate. }
  split; intros H.
  - assert (inject_Z (numerator f) <= 0)%Q.
    { rewrite Hnum.
      setoid_replace 0%Q with (0 * inject_Z (denominator f))%Q by ring.
      apply Qmult_le_compat_r; [exact H | lra]. }
    now rewrite (Zle_Qle _ 0).
  - assert (0 <= inject_Z (numerator f))%Q.
    { rewrite Hnum. apply Qmult_le_0_compat; [exact H | lra]. }
    now rewrite (Zle_Qle 0).
Qed.

Lemma fractional_core (value : pyval) (x : spec_float) :
  float_ value = Ret x ->
  is_finite x = true -> valid_binary prec emax x = true ->
  exists exact approx : fraction,
    (Qfrac exact == SF2Q x - inject_Z (Qtrunc (SF2Q x)))%Q
    /\ 0 < denominator exact
    /\ Z.gcd (numerator exact) (denominator exact) = 1
    /\ limit_denominator exact 1000 = Ret approx
    /\ 1 <= denominator approx <= 1000
    /\ Z.gcd (numerator approx) (denominator approx) = 1
    /\ ((SF2Q x < 0)%Q -> Qtrunc (SF2Q x) <= 0 /\ numerator approx <= 0)
    /\ fractional value
       = Ret (PyStr (spec_fractional (Qtrunc (SF2Q x))
                       (numerator approx) (denominator approx))).
Proof.
  intros Hfloat Hfin Hvalid.
  set (whole := Qtrunc (SF2Q x)).
  pose proof (whole_representable_any x Hfin Hvalid) as Hwr. fold whole in Hwr.
  destruct (float_of_Z_exact whole Hwr) as (fw & Hfw & Hfwf & _ & Hfwv).
  destruct (float_sub_whole x fw Hfin Hvalid Hfwf Hfwv) as (Hrf & Hrv).
  destruct (fraction_of_float_spec _ Hrf) as (exact & Hex & Hed & Heg & Hev).
  rewrite Hrv in Hev. fold whole in Hev.
  destruct (remainder_bounds x Hfin) as (Hunit & Hsign).
  fold whole in Hunit, Hsign.
  assert (Hnum : Z.abs (numerator exact) < denominator exact).
  { apply Qfrac_unit; [exact Hed | now rewrite Hev]. }
  destruct (limit_denominator_spec exact 1000 ltac:(lia) Hed Heg
              (or_introl Hnum))
    as (approx & Hap & Had & Hag & Hpos & Hneg & Habs).
  specialize (Habs Hnum).
  exists exact, approx.
  split; [exact Hev|]. split; [exact Hed|]. split; [exact Heg|].
  split; [exact Hap|]. split; [exact Had|]. split; [exact Hag|].
  split.
  { intros Hx. destruct (Hsign Hx) as [Hr Hw]. split; [exact Hw|].
    apply Hneg. apply (numerator_sign exact Hed). now rewrite Hev. }
  assert (Hn : representable (numerator approx)).
  { apply small_representable.
    assert (2 ^ 10 <= 2 ^ prec) by (apply Z.pow_le_mono_r; unfold prec; lia).
    lia. }
  assert (Hd : representable (denominator approx)).
  { apply small_representable.
    assert (2 ^ 10 <= 2 ^ prec) by (apply Z.pow_le_mono_r; unfold prec; lia).
    lia. }
  unfold fractional. rewrite Hfloat. cbn [try_except].
  rewrite (trunc_float_spec x Hfin). fold whole. cbn [bind].
  rewrite Hfw. cbn [bind]. rewrite Hex. cbn [bind]. rewrite Hap. cbn [bind].
  unfold spec_fractional.
  rewrite (fmt_fixed0_int_exact _ Hwr), (fmt_fixed0_int_exact _ Hn),
    (fmt_fixed0_int_exact _ Hd).
  cbn [bind].
  destruct (negb (whole =? 0) && (numerator approx =? 0)
            && (denominator approx =? 1)); [reflexivity|].
  destruct (whole =? 0); reflexivity.
Qed.

(* ================================================================= *)
(** * [intword]: the brackets of the table *)

(** ** Bounds through the division *)

Lemma bound_ok_spec (b : positive * Z) :
  bound_ok b = true ->
  fexp prec emax (Z.log2 (Zpos (fst b)) + snd b + 1) = snd b
  /\ Z.log2 (Zpos (fst b)) + snd b < emax.
Proof.
  unfold bound_ok. intros H. apply andb_true_iff in H. destruct H as [H1 H2].
  split; [now apply Z.eqb_eq | now apply Z.ltb_lt].
Qed.

Lemma float_of_Z_le (n : Z) (b : positive * Z) :
  0 < n -> bound_ok b = true ->
  (inject_Z n <= magnitude (fst b) (snd b))%Q ->
  exists f,
    float_of_Z n = Ret f /\ is_finite f = true /\ sign_of f = false
    /\ (Qabs (SF2Q f) <= magnitude (fst b) (snd b))%Q.
Proof.
  intros Hn Hb Hle. destruct (bound_ok_spec b Hb) as [Hcan Hov].
  unfold float_of_Z.
  replace (n <? 0) with false by (symmetry; apply Z.ltb_ge; lia).
  rewrite Z.abs_eq by lia.
  assert (Hq : (0 < inject_Z n)%Q) by (now rewrite <- (Zlt_Qlt 0)).
  destruct (round_float_le false (inject_Z n) (fst b) (snd b) Hq Hle Hcan Hov)
    as (Hf & Hs & Hv).
  destruct (round_float false (inject_Z n)) as [s | s | | s m e];
    try discriminate Hf; eexists; (split; [reflexivity|]); auto.
Qed.

Lemma float_div_le (x : spec_float) (mP : positive) (eP : Z)
      (b c : positive * Z) :
  is_finite x = true -> sign_of x = false ->
  (Qabs (SF2Q x) <= magnitude (fst b) (snd b))%Q ->
  bound_ok c = true ->
  Qle_bool (magnitude (fst b) (snd b) / magnitude mP eP)
    (magnitude (fst c) (snd c)) = true ->
  exists y,
    float_div x (S754_finite false mP eP) = Ret y
    /\ is_finite y = true /\ sign_of y = false
    /\ (Qabs (SF2Q y) <= magnitude (fst c) (snd c))%Q.
Proof.
  intros Hf Hs Hx Hc Hle. apply Qle_bool_iff in Hle.
  destruct (bound_ok_spec c Hc) as [Hcan Hov].
  pose proof (magnitude_pos mP eP) as HP.
  destruct x as [s | s | | s m e]; try discriminate Hf.
  - cbn [sign_of] in Hs. subst s. eexists. split; [reflexivity|].
    repeat split. cbn [SF2Q]. apply Qlt_le_weak, magnitude_pos.
  - cbn [sign_of] in Hs. subst s. cbn [float_div xorb].
    fold (magnitude m e). fold (magnitude mP eP).
    assert (Hm : (Qabs (SF2Q (S754_finite false m e)) == magnitude m e)%Q).
    { rewrite SF2Q_magnitude. unfold signed. apply Qabs_pos.
      apply Qlt_le_weak, magnitude_pos. }
    rewrite Hm in Hx.
    assert (Hq : (0 < magnitude m e / magnitude mP eP)%Q).
    { apply Qlt_shift_div_l; [exact HP|]. rewrite Qmult_0_l.
      apply magnitude_pos. }
    assert (Hqle : (magnitude m e / magnitude mP eP
                    <= magnitude (fst c) (snd c))%Q).
    { eapply Qle_trans; [|exact Hle].
      apply Qle_shift_div_l; [exact HP|].
      unfold Qdiv. rewrite <- Qmult_assoc, (Qmult_comm (/ _)).
      rewrite Qmult_inv_r, Qmult_1_r; [exact Hx|].
      intros E. rewrite E in HP. discriminate. }
    destruct (round_float_le false _ (fst c) (snd c) Hq Hqle Hcan Hov)
      as (Hf' & Hs' & Hv').
    eexists. split; [reflexivity|]. auto.
Qed.

Lemma tenths_le (y : spec_float) (c : positive * Z) :
  (Qabs (SF2Q y) <= magnitude (fst c) (snd c))%Q ->
  0 <= tenths y <= rneQ (magnitude (fst c) (snd c) * 10 ^ 1).
Proof.
  intros H. unfold tenths. split.
  - apply rneQ_nonneg. apply Qmult_le_0_compat; [apply Qabs_nonneg|].
    discriminate.
  - apply rneQ_mono. apply Qmult_le_compat_r; [exact H | discriminate].
Qed.

Lemma format_fixed_accepted (p : nat) (y : spec_float) :
  Z.of_nat p <= INT_MAX -> format_fixed p y = Ret (fmt_fixed p y).
Proof.
  intros H. unfold format_fixed.
  now replace (INT_MAX <? Z.of_nat p) with false
    by (symmetry; apply Z.ltb_ge; exact H).
Qed.

Lemma format_fixed_refused (p : nat) (y : spec_float) :
  INT_MAX < Z.of_nat p -> format_fixed p y = Raise ValueError.
Proof.
  intros H. unfold format_fixed.
  now replace (INT_MAX <? Z.of_nat p) with true
    by (symmetry; apply Z.ltb_lt; exact H).
Qed.

(** The default format, ["%.1f"]. *)
Lemma format_fixed_default (y : spec_float) :
  format_fixed 1 y = Ret (fmt_fixed 1 y).
Proof. reflexivity. Qed.

Lemma fmt_fixed_tenths (y : spec_float) :
  is_finite y = true -> sign_of y = false ->
  fmt_fixed 1 y = show_scaled 1 (tenths y).
Proof.
  destruct y as [s | s | | s m e]; try discriminate; cbn [sign_of];
    intros _ ->; reflexivity.
Qed.

(** ** Reading the mantissa back *)

Lemma reads_thousand_table :
  forallb reads_thousand (map Z.of_nat (seq 0 (Z.to_nat 10001))) = true.
Proof. vm_compute. reflexivity. Qed.

Lemma reads_thousand_spec (t : Z) :
  0 <= t <= 10000 ->
  exists f,
    float_of_str (show_scaled 1 t) = Ret f
    /\ float_eqb f thousand = (t =? 10000).
Proof.
  intros Ht.
  pose proof reads_thousand_table as H. rewrite forallb_forall in H.
  specialize (H t).
  assert (Hin : In t (map Z.of_nat (seq 0 (Z.to_nat 10001)))).
  { apply in_map_iff. exists (Z.to_nat t). split; [lia|].
    apply in_seq. lia. }
  specialize (H Hin). unfold reads_thousand in H.
  destruct (float_of_str (show_scaled 1 t)) as [f | e]; [|discriminate].
  exists f. split; [reflexivity|]. now apply Bool.eqb_prop.
Qed.

(** ** One bracket *)

Lemma getitem_In {A : Type} (t : list A) (i : Z) (a : A) :
  getitem t i = Ret a -> In a t.
Proof.
  unfold getitem. destruct (_ || _); [discriminate|].
  destruct (nth_error t _) as [a' |] eqn:H; [|discriminate].
  intros [= <-]. eapply nth_error_In. exact H.
Qed.

Lemma float_of_Z_thousand : float_of_Z (10 ^ 3) = Ret thousand.
Proof. vm_compute. reflexivity. Qed.

Lemma tenths_above_thousand :
  rneQ (magnitude (fst above_thousand) (snd above_thousand) * 10 ^ 1) = 10000.
Proof. vm_compute. reflexivity. Qed.

Lemma tenths_above_one :
  rneQ (magnitude (fst above_one) (snd above_one) * 10 ^ 1) = 10.
Proof. vm_compute. reflexivity. Qed.

Lemma intword_loop_skip (decimals : nat) (n ordinal power : Z)
      (items : list (Z * Z)) :
  power <= n ->
  intword_loop decimals n ((ordinal, power) :: items)
  = intword_loop decimals n items.
Proof.
  intros H. cbn [intword_loop]. now rewrite (ltb_false_of_le _ _ H).
Qed.

(** One bracket of the table: the mantissa that [intword] shows there has
    fewer than four digits before the point. *)
Lemma intword_bracket (n i power limit : Z) (items : list (Z * Z)) :
  bracket_check i limit = true ->
  0 < n -> n <= limit -> n < power ->
  exists (t : Z) (word : string),
    intword_loop 1 n ((i, power) :: items)
    = Ret (Some (show_scaled 1 t ++ " " ++ word))
    /\ 0 <= t < 10000 /\ In word human_powers.
Proof.
  intros Hcheck Hn Hlimit Hpower. unfold bracket_check in Hcheck.
  destruct (getitem powers (i - 1)) as [below |] eqn:Hbelow; [|discriminate].
  destruct (getitem powers i) as [above |] eqn:Habove; [|discriminate].
  destruct (getitem human_powers (i - 1)) as [wlo |] eqn:Hwlo; [|discriminate].
  destruct (getitem human_powers i) as [whi |] eqn:Hwhi; [|discriminate].
  destruct (float_of_Z below) as [[| | | [|] mP eP] |] eqn:HP;
    try discriminate.
  destruct (float_of_Z above) as [[| | | [|] mQ eQ] |] eqn:HQ;
    try discriminate.
  set (b := float_above limit) in *.
  apply andb_true_iff in Hcheck. destruct Hcheck as [Hcheck HcQ].
  apply andb_true_iff in Hcheck. destruct Hcheck as [Hcheck HcP].
  apply andb_true_iff in Hcheck. destruct Hcheck as [Hcheck Hlim].
  apply andb_true_iff in Hcheck. destruct Hcheck as [Hcheck Hone].
  apply andb_true_iff in Hcheck. destruct Hcheck as [Hb Hthousand].
  apply Qle_bool_iff in Hlim.
  assert (Hnb : (inject_Z n <= magnitude (fst b) (snd b))%Q).
  { eapply Qle_trans; [|exact Hlim]. now rewrite <- Zle_Qle. }
  destruct (float_of_Z_le n b Hn Hb Hnb) as (x & Hx & Hxf & Hxs & Hxv).
  destruct (float_div_le x mP eP b above_thousand Hxf Hxs Hxv Hthousand HcP)
    as (y & Hy & Hyf & Hys & Hyv).
  destruct (float_div_le x mQ eQ b above_one Hxf Hxs Hxv Hone HcQ)
    as (y' & Hy' & Hyf' & Hys' & Hyv').
  pose proof (tenths_le y above_thousand Hyv) as Ht.
  rewrite tenths_above_thousand in Ht.
  pose proof (tenths_le y' above_one Hyv') as Ht'.
  rewrite tenths_above_one in Ht'.
  destruct (reads_thousand_spec (tenths y) Ht) as (shown & Hshown & Heq).
  cbn [intword_loop].
  replace (n <? power) with true by (symmetry; apply Z.ltb_lt; exact Hpower).
  rewrite Hbelow. cbn [bind]. rewrite HP. cbn [bind].
  unfold int_truediv_float. rewrite Hx. cbn [bind]. rewrite Hy. cbn [bind].
  rewrite format_fixed_default. cbn [bind].
  rewrite (fmt_fixed_tenths y Hyf Hys), Hshown. cbn [bind].
  rewrite float_of_Z_thousand. cbn [bind]. rewrite Heq.
  destruct (tenths y =? 10000) eqn:Hten.
  - rewrite Habove. cbn [bind]. rewrite HQ. cbn [bind].
    rewrite Hy'. cbn [bind]. rewrite Hwhi.
    cbn [bind]. unfold join_format, I18n.gettext.
    rewrite format_fixed_default. cbn [bind].
    rewrite (fmt_fixed_tenths y' Hyf' Hys').
    exists (tenths y'), whi. split; [reflexivity|]. split; [lia|].
    eapply getitem_In. exact Hwhi.
  - apply Z.eqb_neq in Hten. rewrite Hwlo. cbn [bind].
    unfold join_format, I18n.gettext.
    rewrite format_fixed_default. cbn [bind].
    rewrite (fmt_fixed_tenths y Hyf Hys).
    exists (tenths y), wlo. split; [reflexivity|]. split; [lia|].
    eapply getitem_In. exact Hwlo.
Qed.

Lemma intword_items :
  enumerate (tl powers) 1 =
  [ (1, 1000000000); (2, 1000000000000); (3, 1000000000000000);
    (4, 1000000000000000000); (5, 1000000000000000000000);
    (6, 1000000000000000000000000); (7, 1000000000000000000000000000);
    (8, 1000000000000000000000000000000);
    (9, 1000000000000000000000000000000000); (10, 10 ^ 100) ].
Proof. reflexivity. Qed.

Lemma intword_unfold (n : Z) :
  1000000 <= n ->
  intword (PyInt n) =
  found <- intword_loop 1 n (enumerate (tl powers) 1) ;;
  match found with
  | Some text => Ret (PyStr text)
  | None => Ret (PyStr (str_of_Z n))
  end.
Proof.
  intros H. unfold intword, intword_format, try_except, int_.
  change (getitem powers 0) with (Ret (A:=Z) 1000000).
  cbn [bind]. now rewrite (ltb_false_of_le _ _ H).
Qed.

Ltac intword_case i limit :=
  rewrite ?intword_loop_skip by lia;
  match goal with
  | |- context [intword_loop 1 ?n ((i, ?p) :: ?items)] =>
      let t := fresh "t" in
      let w := fresh "w" in
      let E := fresh "E" in
      let Ht := fresh "Ht" in
      let Hw := fresh "Hw" in
      destruct (intword_bracket n i p limit items) as (t & w & E & Ht & Hw);
      [vm_compute; reflexivity | lia | lia | try lia
      | rewrite E; cbn [bind]; exists t, w; auto]
  end.

(** Below [10 ^ 36] the mantissa never reaches 1000. *)
Lemma intword_mantissa_below_1000 (n : Z) :
  10 ^ 6 <= n < 10 ^ 36 ->
  exists (t : Z) (word : string),
    intword (PyInt n) = Ret (PyStr (show_scaled 1 t ++ " " ++ word))
    /\ 0 <= t < 10000 /\ In word human_powers.
Proof.
  change (10 ^ 6) with 1000000.
  change (10 ^ 36) with 1000000000000000000000000000000000000.
  intros Hn. rewrite intword_unfold by lia. rewrite intword_items.
  assert (Hgoogol : 1000000000000000000000000000000000000 < 10 ^ 100)
    by (vm_compute; reflexivity).
  assert (Hcases :
    n < 1000000000
    \/ 1000000000 <= n < 1000000000000
    \/ 1000000000000 <= n < 1000000000000000
    \/ 1000000000000000 <= n < 1000000000000000000
    \/ 1000000000000000000 <= n < 1000000000000000000000
    \/ 1000000000000000000000 <= n < 1000000000000000000000000
    \/ 1000000000000000000000000 <= n < 1000000000000000000000000000
    \/ 1000000000000000000000000000 <= n < 1000000000000000000000000000000
    \/ 1000000000000000000000000000000 <= n
       < 1000000000000000000000000000000000
    \/ 1000000000000000000000000000000000 <= n) by lia.
  destruct Hcases as [H | [H | [H | [H | [H | [H | [H | [H | [H | H]]]]]]]]].
  - intword_case 1 1000000000.
  - intword_case 2 1000000000000.
  - intword_case 3 1000000000000000.
  - intword_case 4 1000000000000000000.
  - intword_case 5 1000000000000000000000.
  - intword_case 6 1000000000000000000000000.
  - intword_case 7 1000000000000000000000000000.
  - intword_case 8 1000000000000000000000000000000.
  - intword_case 9 1000000000000000000000000000000000.
  - intword_case 10 1000000000000000000000000000000000000.
Qed.

(** ** Promotion to the next word *)

Lemma float_div_returns (x : spec_float) (s : bool) (m : positive) (e : Z) :
  exists c, float_div x (S754_finite s m e) = Ret c.
Proof. destruct x; eexists; reflexivity. Qed.

Lemma float_of_str_thousand : float_of_str "1000.0" = Ret thousand.
Proof. vm_compute. reflexivity. Qed.

(** One bracket of the table, when the mantissa shows as ["1000.0"]: the
    value is divided by the next threshold and takes the next word. *)
Lemma intword_promotes (n i power below above : Z) (items : list (Z * Z))
      (word : string) (fbelow chopped : spec_float)
      (s : bool) (m : positive) (e : Z) :
  getitem powers (i - 1) = Ret below ->
  getitem powers i = Ret above ->
  getitem human_powers i = Ret word ->
  float_of_Z below = Ret fbelow ->
  float_of_Z above = Ret (S754_finite s m e) ->
  int_truediv_float n fbelow = Ret chopped ->
  fmt_fixed 1 chopped = "1000.0" ->
  n < power ->
  exists chopped',
    int_truediv_float n (S754_finite s m e) = Ret chopped'
    /\ intword_loop 1 n ((i, power) :: items)
       = Ret (Some (fmt_fixed 1 chopped' ++ " " ++ word)).
Proof.
  intros Hbelow Habove Hword HP HQ Hdiv Hfmt Hpower.
  assert (Hx : exists x, float_of_Z n = Ret x).
  { unfold int_truediv_float in Hdiv.
    destruct (float_of_Z n) as [x |]; [now exists x | discriminate]. }
  destruct Hx as (x & Hx).
  destruct (float_div_returns x s m e) as (chopped' & Hdiv').
  exists chopped'.
  assert (Hdiv'' : int_truediv_float n (S754_finite s m e) = Ret chopped').
  { unfold int_truediv_float. now rewrite Hx. }
  split; [exact Hdiv''|].
  cbn [intword_loop].
  replace (n <? power) with true by (symmetry; apply Z.ltb_lt; exact Hpower).
  rewrite Hbelow. cbn [bind]. rewrite HP. cbn [bind].
  rewrite Hdiv. cbn [bind]. rewrite format_fixed_default. cbn [bind].
  rewrite Hfmt, float_of_str_thousand. cbn [bind].
  rewrite float_of_Z_thousand. cbn [bind].
  change (float_eqb thousand thousand) with true. cbn iota.
  rewrite Habove. cbn [bind]. rewrite HQ. cbn [bind].
  rewrite Hdiv''. cbn [bind]. rewrite Hword. cbn [bind].
  reflexivity.
Qed.

(** Inside the table, a mantissa that shows as ["1000.0"] is promoted to
    the next magnitude word. *)
Lemma intword_promotion (n i below above : Z) (word : string)
      (fbelow chopped : spec_float) :
  1 <= i <= 10 ->
  getitem powers (i - 1) = Ret below ->
  getitem powers i = Ret above ->
  getitem human_powers i = Ret word ->
  below <= n < above ->
  float_of_Z below = Ret fbelow ->
  int_truediv_float n fbelow = Ret chopped ->
  fmt_fixed 1 chopped = "1000.0" ->
  exists fabove chopped',
    float_of_Z above = Ret fabove
    /\ int_truediv_float n fabove = Ret chopped'
    /\ intword (PyInt n) = Ret (PyStr (fmt_fixed 1 chopped' ++ " " ++ word)).
Proof.
  intros Hi Hbelow Habove Hword Hn HP Hdiv Hfmt.
  assert (Hgoogol : 1000000000000000000000000000000000 < 10 ^ 100)
    by (vm_compute; reflexivity).
  assert (Hcases : i = 1 \/ i = 2 \/ i = 3 \/ i = 4 \/ i = 5 \/ i = 6
                   \/ i = 7 \/ i = 8 \/ i = 9 \/ i = 10) by lia.
  assert (HQ : exists s m e, float_of_Z above = Ret (S754_finite s m e)).
  { repeat (destruct Hcases as [-> | Hcases]); try subst i;
      vm_compute in Habove; injection Habove as <-;
      do 3 eexists; vm_compute; reflexivity. }
  destruct HQ as (s & m & e & HQ).
  assert (Hloop : exists chopped',
             int_truediv_float n (S754_finite s m e) = Ret chopped'
             /\ intword_loop 1 n (enumerate (tl powers) 1)
                = Ret (Some (fmt_fixed 1 chopped' ++ " " ++ word))
             /\ 1000000 <= n).
  { rewrite intword_items.
    repeat (destruct Hcases as [-> | Hcases]); try subst i;
      pose proof Hbelow as Hb'; pose proof Habove as Ha';
      vm_compute in Hb'; vm_compute in Ha';
      injection Hb' as Hb'; injection Ha' as Ha';
      rewrite <- Hb', <- Ha' in Hn;
      rewrite ?intword_loop_skip by lia;
      match goal with
      | |- context [intword_loop 1 n ((?k, ?p) :: ?items)] =>
          destruct (intword_promotes n k p below above items word
                      fbelow chopped s m e Hbelow Habove Hword HP HQ
                      Hdiv Hfmt ltac:(lia)) as (c & Hc & Hl)
      end;
      exists c; (split; [exact Hc|]); (split; [exact Hl | lia]). }
  destruct Hloop as (chopped' & Hdiv' & Hloop & Hlow).
  exists (S754_finite s m e), chopped'.
  split; [exact HQ|]. split; [exact Hdiv'|].
  rewrite intword_unfold by exact Hlow. rewrite Hloop. reflexivity.
Qed.

(* ================================================================= *)
(** * [intword]: the mantissa at the edge of a bracket *)

(** C2, as the code has it.  Whenever the mantissa of [n] over the
    threshold below it shows as ["1000.0"] with the default format,
    [intword] divides [n] by the next threshold and takes the next
    magnitude word; and for [10 ^ 6 <= n < 10 ^ 36] the mantissa that
    [intword] shows is below 1000: it is [t / 10] for a number of tenths
    [t < 10000], followed by a word of the table.  From [10 ^ 36] on the
    table has no word before googol and wider mantissas appear. *)
Theorem intword_thousand_promoted (n : Z) :
  (forall (i below above : Z) (word : string) (fbelow chopped : spec_float),
      1 <= i <= 10 ->
      getitem powers (i - 1) = Ret below ->
      getitem powers i = Ret above ->
      getitem human_powers i = Ret word ->
      below <= n < above ->
      float_of_Z below = Ret fbelow ->
      int_truediv_float n fbelow = Ret chopped ->
      fmt_fixed 1 chopped = "1000.0" ->
      exists fabove chopped',
        float_of_Z above = Ret fabove
        /\ int_truediv_float n fabove = Ret chopped'
        /\ intword (PyInt n)
           = Ret (PyStr (fmt_fixed 1 chopped' ++ " " ++ word)))
  /\ (10 ^ 6 <= n < 10 ^ 36 ->
      exists (t : Z) (word : string),
        intword (PyInt n) = Ret (PyStr (show_scaled 1 t ++ " " ++ word))
        /\ 0 <= t < 10000 /\ In word human_powers).
Proof.
  split.
  - intros i below above word fbelow chopped.
    apply intword_promotion.
  - apply intword_mantissa_below_1000.
Qed.

(** [999999999999] over a billion shows as ["1000.0"], and [intword]
    gives it in trillions. *)
Lemma intword_thousand_promoted_witness :
  (exists fabove chopped',
      float_of_Z (10 ^ 12) = Ret fabove
      /\ int_truediv_float 999999999999 fabove = Ret chopped'
      /\ intword (PyInt 999999999999)
         = Ret (PyStr (fmt_fixed 1 chopped' ++ " " ++ "trillion")))
  /\ (exists (t : Z) (word : string),
        intword (PyInt 999999999999)
        = Ret (PyStr (show_scaled 1 t ++ " " ++ word))
        /\ 0 <= t < 10000 /\ In word human_powers).
Proof.
  split.
  - apply (proj1 (intword_thousand_promoted 999999999999)
             2 (10 ^ 9) (10 ^ 12) "trillion"
             (S754_finite false 8388608000000000 (-23))
             (S754_finite false 8796093022199204 (-43)));
      first [lia | vm_compute; reflexivity].
  - apply (proj2 (intword_thousand_promoted 999999999999)). lia.
Defined.

(** C2 as stated fails past [10 ^ 36]: a mantissa of four digits and more
    stands before "decillion", and [10 ^ 36] itself is promoted to a
    mantissa of zero googol. *)
Lemma intword_wide_mantissa :
  intword (PyInt (2 * 10 ^ 36)) = Ret (PyStr "2000.0 decillion")
  /\ intword (PyInt (10 ^ 37)) = Ret (PyStr "10000.0 decillion")
  /\ intword (PyInt (10 ^ 36)) = Ret (PyStr "0.0 googol").
Proof. vm_compute. repeat split. Qed.

(* ================================================================= *)
(** * [fractional]: negative values *)

Lemma str_of_Z_neg (z : Z) :
  z < 0 -> str_of_Z z = "-" ++ str_of_N (Z.abs_N z).
Proof.
  intros H. unfold str_of_Z. apply Z.ltb_lt in H. now rewrite H.
Qed.

Lemma str_of_Z_nonneg (z : Z) :
  0 <= z -> str_of_Z z = str_of_N (Z.abs_N z).
Proof.
  intros H. unfold str_of_Z. apply Z.ltb_ge in H. now rewrite H.
Qed.

(** The four shapes of [spec_fractional] on a whole part and a numerator
    that are not positive. *)
Lemma spec_fractional_negative (whole n d : Z) :
  whole <= 0 -> n <= 0 -> 1 <= d -> Z.gcd n d = 1 ->
  (whole <> 0 -> n <> 0 ->
   spec_fractional whole n d
   = "-" ++ str_of_N (Z.abs_N whole) ++ " -" ++ str_of_N (Z.abs_N n)
     ++ "/" ++ str_of_N (Z.abs_N d))
  /\ (whole = 0 -> n <> 0 ->
      spec_fractional whole n d
      = "-" ++ str_of_N (Z.abs_N n) ++ "/" ++ str_of_N (Z.abs_N d))
  /\ (whole <> 0 -> n = 0 ->
      spec_fractional whole n d = "-" ++ str_of_N (Z.abs_N whole))
  /\ (whole = 0 -> n = 0 -> spec_fractional whole n d = "0/1").
Proof.
  intros Hw Hn Hd Hg. unfold spec_fractional.
  split; [|split; [|split]].
  - intros Hw0 Hn0.
    replace (n =? 0) with false by (symmetry; now apply Z.eqb_neq).
    replace (whole =? 0) with false by (symmetry; now apply Z.eqb_neq).
    cbn [negb andb].
    rewrite (str_of_Z_neg whole), (str_of_Z_neg n), (str_of_Z_nonneg d)
      by lia.
    cbn [append]. reflexivity.
  - intros -> Hn0.
    replace (n =? 0) with false by (symmetry; now apply Z.eqb_neq).
    cbn [Z.eqb negb andb].
    rewrite (str_of_Z_neg n), (str_of_Z_nonneg d) by lia.
    reflexivity.
  - intros Hw0 ->. rewrite Z.gcd_0_l in Hg.
    assert (d = 1) as -> by lia.
    replace (whole =? 0) with false by (symmetry; now apply Z.eqb_neq).
    cbn [Z.eqb negb andb]. apply str_of_Z_neg. lia.
  - intros -> ->. rewrite Z.gcd_0_l in Hg.
    assert (d = 1) as -> by lia. reflexivity.
Qed.

(** C10, as the code has it.  For a negative finite float [x],
    [fractional] takes the whole part by truncation toward zero and
    approximates the remainder by a reduced fraction [n/d] with [d] at most
    1000, neither of them positive.  When both are non-zero the text shows
    a minus sign on each, as in ["-1 -1/2"] for [-1.5]; a whole part of
    zero is not shown, and a numerator of zero leaves the whole part
    alone, or ["0/1"]. *)
Theorem fractional_negative (x : spec_float) :
  is_finite x = true -> valid_binary prec emax x = true ->
  (SF2Q x < 0)%Q ->
  (exists (exact : fraction) (whole n d : Z),
      (SF2Q x <= inject_Z whole < SF2Q x + 1)%Q
      /\ whole <= 0
      /\ (Qfrac exact == SF2Q x - inject_Z whole)%Q
      /\ limit_denominator exact 1000
         = Ret {| numerator := n; denominator := d |}
      /\ n <= 0 /\ 1 <= d <= 1000 /\ Z.gcd n d = 1
      /\ (whole <> 0 -> n <> 0 ->
          fractional (PyFloat x)
          = Ret (PyStr ("-" ++ str_of_N (Z.abs_N whole) ++ " -"
                        ++ str_of_N (Z.abs_N n) ++ "/"
                        ++ str_of_N (Z.abs_N d))))
      /\ (whole = 0 -> n <> 0 ->
          fractional (PyFloat x)
          = Ret (PyStr ("-" ++ str_of_N (Z.abs_N n) ++ "/"
                        ++ str_of_N (Z.abs_N d))))
      /\ (whole <> 0 -> n = 0 ->
          fractional (PyFloat x)
          = Ret (PyStr ("-" ++ str_of_N (Z.abs_N whole))))
      /\ (whole = 0 -> n = 0 ->
          fractional (PyFloat x) = Ret (PyStr "0/1")))
  /\ fractional (PyFloat minus_one_and_a_half) = Ret (PyStr "-1 -1/2").
Proof.
  intros Hfin Hvalid Hneg. split; [|vm_compute; reflexivity].
  destruct (fractional_core (PyFloat x) x eq_refl Hfin Hvalid)
    as (exact & approx & Hev & _ & _ & Hap & Had & Hag & Hsign & Hout).
  destruct (Hsign Hneg) as [Hw Hn].
  destruct (remainder_bounds x Hfin) as (Hunit & Hrem).
  destruct (Hrem Hneg) as [Hr _].
  set (whole := Qtrunc (SF2Q x)) in *.
  destruct (spec_fractional_negative whole (numerator approx)
              (denominator approx) Hw Hn ltac:(lia) Hag)
    as (H1 & H2 & H3 & H4).
  exists exact, whole, (numerator approx), (denominator approx).
  split.
  { apply Qabs_Qlt_condition in Hunit. destruct Hunit as [Hlo Hhi].
    split; lra. }
  split; [exact Hw|]. split; [exact Hev|].
  split; [now destruct approx|].
  split; [exact Hn|]. split; [exact Had|]. split; [exact Hag|].
  rewrite Hout.
  split; [|split; [|split]]; intros Ha Hb.
  - now rewrite H1.
  - now rewrite H2.
  - now rewrite H3.
  - now rewrite H4.
Qed.

(** At [-1.5]: the hypotheses hold, and the theorem gives its whole part
    and fraction. *)
Lemma fractional_negative_witness :
  (SF2Q minus_one_and_a_half < 0)%Q
  /\ exists (whole n d : Z),
       (SF2Q minus_one_and_a_half <= inject_Z whole
        < SF2Q minus_one_and_a_half + 1)%Q
       /\ whole <= 0 /\ n <= 0 /\ 1 <= d <= 1000 /\ Z.gcd n d = 1.
Proof.
  split; [reflexivity|].
  destruct (proj1 (fractional_negative minus_one_and_a_half
                     eq_refl eq_refl eq_refl))
    as (exact & whole & n & d & Hx & Hw & _ & _ & Hn & Hd & Hg & _).
  exists whole, n, d. auto.
Defined.

(** C10 as stated fails where the whole part is zero: [-0.5] shows no
    whole part, and [-0.0001] no minus sign at all. *)
Lemma fractional_negative_unsigned :
  fractional (PyFloat minus_a_half) = Ret (PyStr "-1/2")
  /\ fractional (PyFloat minus_a_ten_thousandth) = Ret (PyStr "0/1")
  /\ float_of_str "-0.5" = Ret minus_a_half
  /\ float_of_str "-0.0001" = Ret minus_a_ten_thousandth.
Proof. vm_compute. repeat split. Qed.

(* ================================================================= *)
(** * Inputs that are not numbers *)

(** What the handlers of the six functions do by design: when the
    conversion raises [TypeError] or [ValueError], the input comes back as
    it was.  For [scientific] this needs text without a minus sign. *)
Lemma passthrough_on_failure (value : pyval) (e : pyexn) :
  caught e = true ->
  (int_ value = Raise e ->
   ordinal value = Ret value /\ intword value = Ret value
   /\ apnumber value = Ret value)
  /\ (intcomma_try value = Raise e -> intcomma value = Ret value)
  /\ (float_ value = Raise e -> fractional value = Ret value)
  /\ (forall s, value = PyStr s -> contains "-" s = false ->
      float_of_str s = Raise e -> scientific value = Ret value).
Proof.
  intros Hc. split; [|split; [|split]].
  - intros H. unfold ordinal, intword, intword_format, apnumber.
    rewrite H. unfold try_except. rewrite Hc. auto.
  - intros H. unfold intcomma. cbn [intcomma_fuel].
    rewrite H. unfold try_except. now rewrite Hc.
  - intros H. unfold fractional. rewrite H. unfold try_except.
    now rewrite Hc.
  - intros s -> Hs H. unfold scientific, scientific_precision.
    cbn [str_]. rewrite Hs, H. cbn [bind]. unfold try_except.
    now rewrite Hc.
Qed.

Lemma passthrough_on_failure_witness :
  ordinal (PyStr "foo") = Ret (PyStr "foo")
  /\ intcomma PyNone = Ret PyNone
  /\ fractional (PyStr "foo") = Ret (PyStr "foo")
  /\ scientific (PyStr "foo") = Ret (PyStr "foo").
Proof.
  destruct (passthrough_on_failure (PyStr "foo") ValueError eq_refl)
    as (Hint & _ & Hfloat & Hsci).
  destruct (passthrough_on_failure PyNone TypeError eq_refl)
    as (_ & Hcomma & _).
  split; [apply Hint; reflexivity|].
  split; [apply Hcomma; reflexivity|].
  split; [apply Hfloat; reflexivity | apply (Hsci "foo"); reflexivity].
Defined.

(** C1. The contract fails on the code.  [scientific] takes the minus
    signs out of a text before it finds that the text is no number, and
    returns the text without them; and the handlers catch [TypeError] and
    [ValueError] only, so an infinite float, a not-a-number or an integer
    too large for a float raises out of the functions. *)
Theorem passthrough_broken :
  float_of_str "foo-bar" = Raise ValueError
  /\ scientific (PyStr "foo-bar") = Ret (PyStr "foobar")
  /\ ordinal (PyFloat (S754_infinity false)) = Raise OverflowError
  /\ intword (PyFloat (S754_infinity false)) = Raise OverflowError
  /\ apnumber (PyFloat (S754_infinity false)) = Raise OverflowError
  /\ fractional (PyFloat (S754_infinity false)) = Raise OverflowError
  /\ fractional (PyStr "nan") = Raise ValueError
  /\ scientific (PyFloat (S754_infinity false)) = Raise ValueError
  /\ intcomma (PyInt (10 ^ 400)) = Raise OverflowError
  /\ scientific (PyInt (10 ^ 400)) = Raise OverflowError.
Proof. vm_compute. repeat split. Qed.

(* ================================================================= *)
(** * [scientific]: the exponent *)

(** C3. The two examples hold; but only ["+0"] is taken out of the
    exponent, so an exponent of two digits keeps its plus sign, and the
    minus sign of a small value's exponent counts as the sign of the
    value. *)
Theorem scientific_exponent_glyphs :
  scientific (PyInt 500) = Ret (PyStr "5.00 x 10²")
  /\ scientific (PyFloat three_tenths) = Ret (PyStr "3.00 x 10⁻¹")
  /\ scientific (PyInt (10 ^ 10)) = Ret (PyStr "1.00 x 10⁺¹⁰")
  /\ float_repr tenth_of_a_billionth = "1e-10"
  /\ scientific (PyFloat tenth_of_a_billionth)
     = Ret (PyStr "1.00 x 10⁻⁺¹⁰").
Proof. vm_compute. repeat split. Qed.

(* ================================================================= *)
(** * [fractional]: the three output rules *)

(** On every finite float the three output rules hold: the whole part is
    the truncation, the remainder is approximated by a reduced fraction
    of denominator at most 1000, and the text follows
    [spec_fractional]. *)
Lemma fractional_finite (value : pyval) (x : spec_float) :
  float_ value = Ret x ->
  is_finite x = true -> valid_binary prec emax x = true ->
  (exists exact approx : fraction,
      (Qfrac exact == SF2Q x - inject_Z (Qtrunc (SF2Q x)))%Q
      /\ limit_denominator exact 1000 = Ret approx
      /\ 1 <= denominator approx <= 1000
      /\ Z.gcd (numerator approx) (denominator approx) = 1
      /\ fractional value
         = Ret (PyStr (spec_fractional (Qtrunc (SF2Q x))
                         (numerator approx) (denominator approx))))
  /\ fractional (PyInt 1) = Ret (PyStr "1")
  /\ fractional (PyFloat a_half) = Ret (PyStr "1/2")
  /\ fractional (PyFloat one_and_three_tenths) = Ret (PyStr "1 3/10").
Proof.
  intros Hfloat Hfin Hvalid. split; [|vm_compute; repeat split].
  destruct (fractional_core value x Hfloat Hfin Hvalid)
    as (exact & approx & Hev & _ & _ & Hap & Had & Hag & _ & Hout).
  exists exact, approx. auto.
Qed.

Lemma fractional_finite_witness :
  exists approx : fraction,
    1 <= denominator approx <= 1000
    /\ fractional (PyStr "1.3")
       = Ret (PyStr (spec_fractional 1 (numerator approx)
                       (denominator approx))).
Proof.
  destruct (proj1 (fractional_finite (PyStr "1.3") one_and_three_tenths
                     eq_refl eq_refl eq_refl))
    as (exact & approx & _ & _ & Hd & _ & Hout).
  exists approx. split; [exact Hd | exact Hout].
Defined.

(** C6. The rules are not met on every input that converts to a float:
    the whole part is taken outside the [try], and on a not-a-number or
    an infinity [int] raises. *)
Theorem fractional_raises :
  float_ (PyStr "nan") = Ret S754_nan
  /\ fractional (PyStr "nan") = Raise ValueError
  /\ fractional (PyFloat S754_nan) = Raise ValueError
  /\ float_ (PyStr "inf") = Ret (S754_infinity false)
  /\ fractional (PyStr "inf") = Raise OverflowError
  /\ fractional (PyFloat (S754_infinity true)) = Raise OverflowError.
Proof. vm_compute. repeat split. Qed.

(* ================================================================= *)
(** * [intcomma]: what is grouped *)

(** The theorem for C9 at a negative decimal numeral. *)
Lemma intcomma_numeric_witness :
  intcomma (PyStr "-1234567.891") = Ret (PyStr "-1,234,567.891").
Proof.
  assert (H : exists x, intcomma_try (PyStr "-1234567.891") = Ret x)
    by (eexists; vm_compute; reflexivity).
  destruct H as (x & H).
  exact (proj1 (intcomma_numeric (PyStr "-1234567.891") x H)).
Defined.

(** C9 as stated fails on a numeral with a plus sign: [float] reads it,
    and the pattern, which allows a minus sign only, groups nothing. *)
Lemma intcomma_plus_sign :
  (exists x, float_ (PyStr "+1234567") = Ret x /\ is_finite x = true)
  /\ intcomma (PyStr "+1234567") = Ret (PyStr "+1234567").
Proof.
  split; [eexists; split|]; vm_compute; reflexivity.
Qed.

(* ================================================================= *)
(** * [limit_denominator]: how close the result is *)

Lemma cf_det_step (N D p0 q0 p1 q1 n d a : Z) :
  cf_det N D p0 q0 p1 q1 n d ->
  cf_det N D p1 q1 (p0 + a * p1) (q0 + a * q1) d (n - a * d).
Proof.
  intros (Hp & Hq & Hdet). split; [|split].
  - rewrite <- Hp. ring.
  - rewrite <- Hq. ring.
  - replace (p1 * (q0 + a * q1) - (p0 + a * p1) * q1)
      with (- (p0 * q1 - p1 * q0)) by ring.
    lia.
Qed.

Section LimitDenominatorClose.

Variables max N D : Z.
Hypothesis Hmax : 1 <= max.
Hypothesis Hbig : max < D.
Hypothesis Hunit : - D < N < D.

(** The loop ends, and at its end both invariants hold of the state it
    stopped in. *)
Lemma convergents_state (fuel : nat) :
  forall p0 q0 p1 q1 n d,
    cf_inv max N D p0 q0 p1 q1 n d ->
    cf_det N D p0 q0 p1 q1 n d ->
    3 * max - (2 * q1 + q0) < Z.of_nat fuel ->
    exists p0' q0' p1' q1' n' d',
      convergents fuel max p0 q0 p1 q1 n d = Ret (p0', q0', p1', q1')
      /\ cf_inv max N D p0' q0' p1' q1' n' d'
      /\ cf_det N D p0' q0' p1' q1' n' d'
      /\ max < q0' + n' / d' * q1'.
Proof.
  induction fuel as [| fuel IH]; intros p0 q0 p1 q1 n d Hinv Hdet Hfuel.
  - exfalso. destruct Hinv as (_ & _ & _ & Hq0 & Hq1 & _). lia.
  - cbn [convergents].
    assert (Hd : 0 < d) by apply Hinv.
    replace (d =? 0) with false by (symmetry; apply Z.eqb_neq; lia).
    destruct (max <? q0 + n / d * q1) eqn:Hb.
    + apply Z.ltb_lt in Hb. exists p0, q0, p1, q1, n, d. auto.
    + apply Z.ltb_ge in Hb.
      destruct (cf_inv_step max N D Hmax Hbig Hunit _ _ _ _ _ _ Hinv Hb)
        as [Hinv' Hmeasure].
      apply IH; [exact Hinv' | now apply cf_det_step | lia].
Qed.

(** At the end of the loop: the errors of the two candidates, as
    numerators over [D] times their denominators, add up to one over the
    product of the denominators, and that product is at least [max]. *)
Lemma exit_errors (p0 q0 p1 q1 n d : Z) :
  cf_inv max N D p0 q0 p1 q1 n d ->
  cf_det N D p0 q0 p1 q1 n d ->
  max < q0 + n / d * q1 ->
  let k := (max - q0) / q1 in
  1 <= q1 /\ 1 <= q0 + k * q1
  /\ Z.abs (p1 * D - N * q1) = d
  /\ Z.abs ((p0 + k * p1) * D - N * (q0 + k * q1)) = n - k * d
  /\ 0 < d /\ 0 <= n - k * d
  /\ d * (q0 + k * q1) + (n - k * d) * q1 = D
  /\ max <= q1 * (q0 + k * q1).
Proof.
  intros Hinv Hdet Hbreak k.
  destruct (cf_inv_exit max N D Hmax Hbig Hunit _ _ _ _ _ _ Hinv Hbreak)
    as (Hq1 & Hqk & _). fold k in Hqk.
  destruct Hinv as (Hd & _ & _ & Hq0 & _ & _).
  destruct Hdet as (Hp & Hq & Hdet).
  assert (Hk1 : k * q1 <= max - q0)
    by (unfold k; rewrite Z.mul_comm; apply Z.mul_div_le; lia).
  assert (Hk2 : max - q0 < k * q1 + q1).
  { pose proof (Z.mod_pos_bound (max - q0) q1 ltac:(lia)) as Hm.
    pose proof (Z.div_mod (max - q0) q1 ltac:(lia)) as Hdm.
    fold k in Hdm. lia. }
  set (a := n / d) in *.
  assert (Hka : k < a) by nia.
  assert (Han : a * d <= n)
    by (unfold a; rewrite Z.mul_comm; apply Z.mul_div_le; lia).
  assert (Hrem : d <= n - k * d) by nia.
  split; [lia|]. split; [lia|].
  split.
  { replace (p1 * D - N * q1) with (- (d * (p0 * q1 - p1 * q0)))
      by (rewrite <- Hp, <- Hq; ring).
    destruct Hdet as [-> | ->]; lia. }
  split.
  { replace ((p0 + k * p1) * D - N * (q0 + k * q1))
      with ((n - k * d) * (p0 * q1 - p1 * q0))
      by (rewrite <- Hp, <- Hq; ring).
    destruct Hdet as [-> | ->]; lia. }
  split; [exact Hd|]. split; [lia|].
  split; [rewrite <- Hq; ring|].
  nia.
Qed.

End LimitDenominatorClose.

(** The error of a fraction against [N/D], through the unreduced pair it
    was made from. *)
Lemma reduced_error (N D p q nr dr : Z) :
  nr * q = p * dr -> 0 < q -> 0 < dr ->
  Z.abs (nr * D - N * dr) * q = dr * Z.abs (p * D - N * q).
Proof.
  intros Hr Hq Hdr.
  rewrite <- (Z.abs_eq q) at 1 by lia.
  rewrite <- (Z.abs_eq dr) at 2 by lia.
  rewrite <- !Z.abs_mul. f_equal.
  replace ((nr * D - N * dr) * q) with (nr * q * D - N * dr * q) by ring.
  rewrite Hr. ring.
Qed.

(** Comparing two errors through the unreduced pairs. *)
Lemma compare_errors (M1 M2 d1 d2 q1 q' a b D : Z) :
  0 < d1 -> 0 < d2 -> 0 < q1 -> 0 < q' -> 0 < D ->
  M2 * q1 = d2 * a -> M1 * q' = d1 * b ->
  (M2 * (d1 * D) <= M1 * (d2 * D) <-> a * q' <= b * q1).
Proof.
  intros Hd1 Hd2 Hq1 Hq' HD HM2 HM1.
  rewrite (Z.mul_le_mono_pos_r (a * q') (b * q1) (d1 * d2 * D))
    by (repeat apply Z.mul_pos_pos; assumption).
  rewrite (Z.mul_le_mono_pos_r (M2 * (d1 * D)) (M1 * (d2 * D)) (q1 * q'))
    by (apply Z.mul_pos_pos; assumption).
  replace (M2 * (d1 * D) * (q1 * q')) with (M2 * q1 * (d1 * D * q')) by ring.
  replace (M1 * (d2 * D) * (q1 * q')) with (M1 * q' * (d2 * D * q1)) by ring.
  rewrite HM2, HM1.
  replace (d2 * a * (d1 * D * q')) with (a * q' * (d1 * d2 * D)) by ring.
  replace (d1 * b * (d2 * D * q1)) with (b * q1 * (d1 * d2 * D)) by ring.
  reflexivity.
Qed.

(** The nearer of two candidates whose errors add up to [1 / (q1 * q')]
    is within half of that. *)
Lemma half_of_sum (max D q1 q' a b M dr : Z) :
  0 <= a -> 0 <= b -> 1 <= q1 -> 1 <= q' -> max <= q1 * q' ->
  a * q' + b * q1 = D -> a * q' <= b * q1 ->
  0 < dr -> M * q1 = dr * a -> 2 * max * M <= dr * D.
Proof.
  intros Ha Hb Hq1 Hq' Hprod Hsum Hle Hdr HM.
  assert (H1 : 2 * (a * q') <= D) by lia.
  assert (H2 : max * a <= q1 * q' * a)
    by (apply Z.mul_le_mono_nonneg_r; assumption).
  assert (H3 : 2 * (a * q') * q1 <= D * q1)
    by (apply Z.mul_le_mono_nonneg_r; lia).
  assert (H4 : 2 * max * a <= D * q1).
  { replace (2 * (a * q') * q1) with (2 * (q1 * q' * a)) in H3 by ring. lia. }
  assert (H5 : dr * (2 * max * a) <= dr * (D * q1))
    by (apply Z.mul_le_mono_nonneg_l; lia).
  apply (Z.mul_le_mono_pos_r _ _ q1); [lia|].
  replace (2 * max * M * q1) with (2 * max * (M * q1)) by ring.
  rewrite HM.
  replace (2 * max * (dr * a)) with (dr * (2 * max * a)) by ring.
  replace (dr * D * q1) with (dr * (D * q1)) by ring.
  exact H5.
Qed.

(** [limit_denominator] on a fraction in lowest terms, of magnitude below
    one: the result is within [1 / (2 * max)] of the fraction. *)
Lemma limit_denominator_close (x : fraction) (max : Z) :
  1 <= max -> 0 < denominator x ->
  Z.gcd (numerator x) (denominator x) = 1 ->
  Z.abs (numerator x) < denominator x \/ denominator x = 1 ->
  exists r,
    limit_denominator x max = Ret r
    /\ 0 < denominator r
    /\ 2 * max * Z.abs (numerator r * denominator x
                        - numerator x * denominator r)
       <= denominator r * denominator x.
Proof.
  intros Hmax Hd Hg Hunit. unfold limit_denominator.
  replace (max <? 1) with false by (symmetry; apply Z.ltb_ge; lia).
  destruct (denominator x <=? max) eqn:Hsmall.
  - apply Z.leb_le in Hsmall. exists x. split; [reflexivity|].
    split; [exact Hd|].
    replace (numerator x * denominator x - numerator x * denominator x)
      with 0 by ring.
    cbn [Z.abs]. rewrite Z.mul_0_r. apply Z.mul_nonneg_nonneg; lia.
  - apply Z.leb_gt in Hsmall.
    set (N := numerator x) in *. set (D := denominator x) in *.
    assert (Hunit' : - D < N < D) by lia.
    assert (Hinv : cf_inv max N D 0 1 1 0 N D).
    { split; [lia|]. split; [exact Hg|]. split; [lia|].
      split; [lia|]. split; [lia|]. left. repeat split. }
    assert (Hdet : cf_det N D 0 1 1 0 N D).
    { split; [ring|]. split; [ring|]. right. reflexivity. }
    destruct (convergents_state max N D Hmax Hsmall Hunit'
                (Z.to_nat (3 * max + 3)) 0 1 1 0 _ _ Hinv Hdet ltac:(lia))
      as (p0 & q0 & p1 & q1 & n & d & -> & Hinv' & Hdet' & Hbreak).
    cbn [bind].
    destruct (exit_errors max N D Hmax Hsmall Hunit' _ _ _ _ _ _
                Hinv' Hdet' Hbreak)
      as (Hq1 & Hqk & HA2 & HA1 & Hdpos & Hrem & Hsum & Hprod).
    clear Hinv Hdet Hinv' Hdet' Hbreak Hunit Hunit' Hg.
    replace (q1 =? 0) with false by (symmetry; apply Z.eqb_neq; lia).
    set (k := (max - q0) / q1) in *.
    set (q' := q0 + k * q1) in *. set (p' := p0 + k * p1) in *.
    destruct (Fraction_pos p' q' ltac:(lia))
      as (b1 & -> & Hb1d & _ & Hb1r & _).
    destruct (Fraction_pos p1 q1 ltac:(lia))
      as (b2 & -> & Hb2d & _ & Hb2r & _).
    cbn [bind].
    pose proof (reduced_error N D p' q' (numerator b1) (denominator b1)
                  Hb1r ltac:(lia) ltac:(lia)) as HM1.
    pose proof (reduced_error N D p1 q1 (numerator b2) (denominator b2)
                  Hb2r ltac:(lia) ltac:(lia)) as HM2.
    rewrite HA1 in HM1. rewrite HA2 in HM2.
    set (M1 := Z.abs (numerator b1 * D - N * denominator b1)) in *.
    set (M2 := Z.abs (numerator b2 * D - N * denominator b2)) in *.
    set (d1 := denominator b1) in *. set (d2 := denominator b2) in *.
    set (A1 := n - k * d) in *.
    pose proof (compare_errors M1 M2 d1 d2 q1 q' d A1 D
                  ltac:(lia) ltac:(lia) ltac:(lia) ltac:(lia) ltac:(lia)
                  HM2 HM1) as Hiff.
    change (closer_or_equal b2 b1 x)
      with (M2 * (d1 * D) <=? M1 * (d2 * D)).
    destruct (M2 * (d1 * D) <=? M1 * (d2 * D)) eqn:Hcmp.
    + apply Z.leb_le in Hcmp. apply Hiff in Hcmp.
      exists b2. split; [reflexivity|]. split; [lia|].
      fold D N d2 M2.
      apply (half_of_sum max D q1 q' d A1 M2 d2); try lia; assumption.
    + apply Z.leb_gt in Hcmp.
      assert (Hlt : A1 * q1 <= d * q').
      { destruct (Z.le_gt_cases (d * q') (A1 * q1)) as [H | H]; [|lia].
        apply Hiff in H. lia. }
      exists b1. split; [reflexivity|]. split; [lia|].
      fold D N d1 M1.
      apply (half_of_sum max D q' q1 A1 d M1 d1); try lia; assumption.
Qed.

(** The same bound, on the rationals. *)
Lemma Qfrac_error (a x : fraction) :
  0 < denominator a -> 0 < denominator x ->
  2 * 1000 * Z.abs (numerator a * denominator x
                    - numerator x * denominator a)
  <= denominator a * denominator x ->
  (Qabs (Qfrac a - Qfrac x) <= 1 # 2000)%Q.
Proof.
  intros Ha Hx H. unfold Qfrac.
  set (z := numerator a * denominator x - numerator x * denominator a) in *.
  set (w := denominator a * denominator x) in *.
  assert (Hw : 0 < w) by (apply Z.mul_pos_pos; assumption).
  pose proof (inject_Z_nonzero (denominator a) ltac:(lia)) as Ha'.
  pose proof (inject_Z_nonzero (denominator x) ltac:(lia)) as Hx'.
  assert (E : (inject_Z (numerator a) / inject_Z (denominator a)
               - inject_Z (numerator x) / inject_Z (denominator x)
               == inject_Z z / inject_Z w)%Q).
  { unfold z, w, Z.sub.
    rewrite inject_Z_plus, inject_Z_opp, !inject_Z_mult.
    field. split; assumption. }
  rewrite E.
  assert (Hwq : (0 < inject_Z w)%Q) by (now rewrite <- (Zlt_Qlt 0)).
  apply Qabs_Qle_condition. split.
  - apply Qle_shift_div_l; [exact Hwq|].
    unfold Qle, Qmult, Qopp, inject_Z. cbn [Qnum Qden].
    rewrite ?Pos.mul_1_r. lia.
  - apply Qle_shift_div_r; [exact Hwq|].
    unfold Qle, Qmult, Qopp, inject_Z. cbn [Qnum Qden].
    rewrite ?Pos.mul_1_r. lia.
Qed.

(** The fraction that [fractional] shows is within [1/2000] of the
    remainder of the value. *)
Lemma fractional_close (value : pyval) (x : spec_float) :
  float_ value = Ret x ->
  is_finite x = true -> valid_binary prec emax x = true ->
  exists n d : Z,
    1 <= d <= 1000
    /\ (Qabs (inject_Z n / inject_Z d
              - (SF2Q x - inject_Z (Qtrunc (SF2Q x)))) <= 1 # 2000)%Q
    /\ fractional value
       = Ret (PyStr (spec_fractional (Qtrunc (SF2Q x)) n d)).
Proof.
  intros Hfloat Hfin Hvalid.
  destruct (fractional_core value x Hfloat Hfin Hvalid)
    as (exact & approx & Hev & Hed & Heg & Hap & Had & _ & _ & Hout).
  destruct (remainder_bounds x Hfin) as (Hunit & _).
  assert (Hnum : Z.abs (numerator exact) < denominator exact).
  { apply Qfrac_unit; [exact Hed | now rewrite Hev]. }
  destruct (limit_denominator_close exact 1000 ltac:(lia) Hed Heg
              (or_introl Hnum)) as (r & Hr & Hrd & Hclose).
  rewrite Hap in Hr. injection Hr as <-.
  exists (numerator approx), (denominator approx).
  split; [exact Had|]. split; [|exact Hout].
  rewrite <- Hev. now apply Qfrac_error.
Qed.

Lemma fractional_close_witness :
  exists n d : Z,
    1 <= d <= 1000
    /\ (Qabs (inject_Z n / inject_Z d
              - (SF2Q three_tenths
                 - inject_Z (Qtrunc (SF2Q three_tenths)))) <= 1 # 2000)%Q
    /\ fractional (PyStr "0.3")
       = Ret (PyStr (spec_fractional (Qtrunc (SF2Q three_tenths)) n d)).
Proof.
  apply (fractional_close (PyStr "0.3") three_tenths);
    vm_compute; reflexivity.
Defined.

(* ================================================================= *)
(** * Reading integers back *)

Lemma scan_digits_step (c : ascii) (s' : string) :
  is_digit c = true ->
  match s' with
  | String c1 _ => Ascii.eqb c1 "_" = false
  | EmptyString => True
  end ->
  scan_digits (String c s') =
  let '(u, rest) := scan_digits s' in
  match uint_of_char c (Some u) with
  | Some u' => (u', rest)
  | None => (Nil, String c s')
  end.
Proof.
  intros Hc Hs. cbn [scan_digits].
  destruct (digit_cons c Nil Hc) as (u0 & -> & _).
  destruct s' as [| c1 t]; [reflexivity|]. now rewrite Hs.
Qed.

Lemma uint_head (u : uint) (rest : string) :
  ends_digits rest ->
  match NilEmpty.string_of_uint u ++ rest with
  | String c1 _ => Ascii.eqb c1 "_" = false
  | EmptyString => True
  end.
Proof.
  intros Hr. destruct u; cbn [NilEmpty.string_of_uint append];
    try reflexivity.
  destruct rest as [| c1 t]; [exact I | apply Hr].
Qed.

(** Scanning the digits of a numeral gives the numeral back. *)
Lemma scan_digits_uint (u : uint) (rest : string) :
  ends_digits rest ->
  scan_digits (NilEmpty.string_of_uint u ++ rest) = (u, rest).
Proof.
  intros Hr.
  induction u as [| u IH | u IH | u IH | u IH | u IH | u IH | u IH | u IH
                  | u IH | u IH];
    cbn [NilEmpty.string_of_uint append];
    [now apply scan_digits_stop | ..];
    (rewrite scan_digits_step; [| reflexivity | now apply uint_head]);
    rewrite IH; reflexivity.
Qed.

Lemma str_of_Z_numeral (n : Z) :
  all_chars is_numeral_char (str_of_Z n) = true.
Proof.
  unfold str_of_Z. destruct (n <? 0).
  - cbn [append all_chars]. change (is_numeral_char "-") with true.
    apply digits_are_numeral, all_digits_str_of_N.
  - apply digits_are_numeral, all_digits_str_of_N.
Qed.

(** [int(str(n)) == n]. *)
Lemma int_of_str_str_of_Z (n : Z) : int_of_str (str_of_Z n) = Ret n.
Proof.
  unfold int_of_str. rewrite (strip_numeral _ (str_of_Z_numeral n)).
  unfold str_of_Z, str_of_N.
  pose proof (scan_digits_uint (N.to_uint (Z.abs_N n)) "" I) as Hscan.
  rewrite append_nil_r in Hscan.
  assert (Hnil : N.to_uint (Z.abs_N n) <> Nil).
  { destruct (Z.abs_N n) as [| p]; [discriminate|].
    apply DecimalPos.Unsigned.to_uint_nonnil. }
  assert (Hback : N.of_uint (N.to_uint (Z.abs_N n)) = Z.abs_N n)
    by apply DecimalN.Unsigned.of_to.
  destruct (n <? 0) eqn:Hneg.
  - cbn [append scan_sign]. change (Ascii.eqb "-" "-") with true. cbn iota.
    rewrite Hscan.
    destruct (N.to_uint (Z.abs_N n)) eqn:E; [congruence | ..];
      rewrite Hback; apply Z.ltb_lt in Hneg; f_equal; lia.
  - assert (Hsign : scan_sign (NilEmpty.string_of_uint (N.to_uint (Z.abs_N n)))
                    = (false, NilEmpty.string_of_uint (N.to_uint (Z.abs_N n)))).
    { pose proof (all_digits_uint (N.to_uint (Z.abs_N n))) as Hd.
      destruct (NilEmpty.string_of_uint (N.to_uint (Z.abs_N n))) as [| c s];
        [reflexivity|].
      cbn [all_digits] in Hd. apply andb_true_iff in Hd.
      now apply scan_sign_digit. }
    rewrite Hsign, Hscan.
    destruct (N.to_uint (Z.abs_N n)) eqn:E; [congruence | ..];
      rewrite Hback; apply Z.ltb_ge in Hneg; f_equal; lia.
Qed.

(* ================================================================= *)
(** * [ordinal] and [apnumber] on integers *)

Lemma mem_Z_teens (m : Z) :
  mem_Z m [11; 12; 13] = true <-> m = 11 \/ m = 12 \/ m = 13.
Proof.
  cbn [mem_Z]. rewrite orb_false_r, !orb_true_iff, !Z.eqb_eq. tauto.
Qed.

(** C4. For every integer [n], negative ones included, [ordinal n] is the
    decimal string of [n] followed by "th" when [n mod 100] is 11, 12 or
    13, and otherwise by the suffix that the table gives for [n mod 10]
    ([Z.modulo] takes the sign of the divisor, as Python's [%] does).  The
    decimal string is the text that [int] reads back as [n].  So 11, 12,
    13, 111 and -89 take "th" where their last digit alone would give
    another suffix, 21 takes "st", and -9 takes "st" because [-9 % 10] is
    1. *)
Theorem ordinal_spec :
  (forall n : Z,
      (n mod 100 = 11 \/ n mod 100 = 12 \/ n mod 100 = 13 ->
       ordinal (PyInt n) = Ret (PyStr (str_of_Z n ++ "th")))
      /\ (~ (n mod 100 = 11 \/ n mod 100 = 12 \/ n mod 100 = 13) ->
          ordinal (PyInt n)
          = Ret (PyStr (str_of_Z n ++ spec_suffix (n mod 10))))
      /\ int_of_str (str_of_Z n) = Ret n)
  /\ ordinal (PyInt 0) = Ret (PyStr "0th")
  /\ ordinal (PyInt 1) = Ret (PyStr "1st")
  /\ ordinal (PyInt 2) = Ret (PyStr "2nd")
  /\ ordinal (PyInt 3) = Ret (PyStr "3rd")
  /\ ordinal (PyInt 4) = Ret (PyStr "4th")
  /\ ordinal (PyInt 9) = Ret (PyStr "9th")
  /\ ordinal (PyInt 10) = Ret (PyStr "10th")
  /\ ordinal (PyInt 11) = Ret (PyStr "11th")
  /\ ordinal (PyInt 12) = Ret (PyStr "12th")
  /\ ordinal (PyInt 13) = Ret (PyStr "13th")
  /\ ordinal (PyInt 14) = Ret (PyStr "14th")
  /\ ordinal (PyInt 21) = Ret (PyStr "21st")
  /\ ordinal (PyInt 102) = Ret (PyStr "102nd")
  /\ ordinal (PyInt 111) = Ret (PyStr "111th")
  /\ ordinal (PyInt 112) = Ret (PyStr "112th")
  /\ ordinal (PyInt 113) = Ret (PyStr "113th")
  /\ ordinal (PyInt 1000003) = Ret (PyStr "1000003rd")
  /\ ordinal (PyInt (-1)) = Ret (PyStr "-1th")
  /\ ordinal (PyInt (-9)) = Ret (PyStr "-9st")
  /\ ordinal (PyInt (-89)) = Ret (PyStr "-89th").
Proof.
  split; [|repeat split; reflexivity].
  intros n. split; [|split].
  - intros H. apply mem_Z_teens in H.
    unfold ordinal, int_, try_except. rewrite H. reflexivity.
  - intros H. unfold ordinal, int_, try_except.
    destruct (mem_Z (n mod 100) [11; 12; 13]) eqn:E.
    + apply mem_Z_teens in E. contradiction.
    + rewrite ordinal_suffix_lookup by (apply Z.mod_pos_bound; lia).
      reflexivity.
  - apply int_of_str_str_of_Z.
Qed.

Lemma ordinal_spec_witness :
  ordinal (PyInt 212) = Ret (PyStr "212th")
  /\ ordinal (PyInt 33) = Ret (PyStr "33rd")
  /\ int_of_str "-212" = Ret (-212).
Proof.
  destruct ordinal_spec as (Hgen & _).
  split; [|split].
  - apply (Hgen 212). right. left. reflexivity.
  - apply (Hgen 33). intros [H | [H | H]]; discriminate H.
  - apply (Hgen (-212)).
Defined.

(** C8. For every integer [n], [apnumber n] is the translated word for [n]
    exactly when [1 <= n <= 9]; for every other integer, zero and the
    negative ones included, it is the decimal string of [n], the text that
    [int] reads back as [n].  So 1 to 9 give "one" to "nine", and 0, 10
    and -3 give "0", "10" and "-3". *)
Theorem apnumber_spec :
  (forall n : Z,
      (1 <= n <= 9 ->
       apnumber (PyInt n) = Ret (PyStr (I18n.gettext (spec_word n))))
      /\ (n < 1 \/ 9 < n ->
          apnumber (PyInt n) = Ret (PyStr (str_of_Z n)))
      /\ int_of_str (str_of_Z n) = Ret n)
  /\ apnumber (PyInt 1) = Ret (PyStr "one")
  /\ apnumber (PyInt 2) = Ret (PyStr "two")
  /\ apnumber (PyInt 3) = Ret (PyStr "three")
  /\ apnumber (PyInt 4) = Ret (PyStr "four")
  /\ apnumber (PyInt 5) = Ret (PyStr "five")
  /\ apnumber (PyInt 6) = Ret (PyStr "six")
  /\ apnumber (PyInt 7) = Ret (PyStr "seven")
  /\ apnumber (PyInt 8) = Ret (PyStr "eight")
  /\ apnumber (PyInt 9) = Ret (PyStr "nine")
  /\ apnumber (PyInt 0) = Ret (PyStr "0")
  /\ apnumber (PyInt 10) = Ret (PyStr "10")
  /\ apnumber (PyInt 1234) = Ret (PyStr "1234")
  /\ apnumber (PyInt (-1)) = Ret (PyStr "-1")
  /\ apnumber (PyInt (-3)) = Ret (PyStr "-3").
Proof.
  split; [|repeat split; reflexivity].
  intros n. split; [|split].
  - intros Hn. unfold apnumber, int_, try_except.
    replace ((0 <? n) && (n <? 10)) with true
      by (symmetry; apply andb_true_iff; split; apply Z.ltb_lt; lia).
    cbn [negb]. rewrite apnumber_word_lookup by lia. reflexivity.
  - intros Hn. unfold apnumber, int_, try_except.
    replace ((0 <? n) && (n <? 10)) with false; [reflexivity|].
    symmetry. apply andb_false_iff.
    destruct Hn as [Hn | Hn]; [left | right]; apply Z.ltb_ge; lia.
  - apply int_of_str_str_of_Z.
Qed.

Lemma apnumber_spec_witness :
  apnumber (PyInt 7) = Ret (PyStr "seven")
  /\ apnumber (PyInt 42) = Ret (PyStr "42")
  /\ apnumber (PyInt (-5)) = Ret (PyStr "-5").
Proof.
  destruct apnumber_spec as (Hgen & _).
  split; [|split].
  - apply (Hgen 7). lia.
  - apply (Hgen 42). lia.
  - apply (Hgen (-5)). lia.
Defined.

(* ================================================================= *)
(** * Text that is no integer *)

Lemma has_char_app (P : ascii -> bool) (a b : string) :
  has_char P (a ++ b) = has_char P a || has_char P b.
Proof.
  induction a as [| c a IH]; cbn [append has_char]; [reflexivity|].
  now rewrite IH, orb_assoc.
Qed.

Lemma letter_not_space (c : ascii) : is_space c = true -> is_letter c = false.
Proof.
  intros H. unfold is_letter. rewrite H, orb_true_r. reflexivity.
Qed.

Lemma letter_not_digit (c : ascii) : is_digit c = true -> is_letter c = false.
Proof. intros H. unfold is_letter. now rewrite H. Qed.

Lemma has_letter_lstrip (s : string) :
  has_char is_letter (lstrip s) = has_char is_letter s.
Proof.
  induction s as [| c s IH]; cbn [lstrip has_char]; [reflexivity|].
  destruct (is_space c) eqn:Hc; [|reflexivity].
  now rewrite (letter_not_space _ Hc), IH.
Qed.

Lemma has_letter_rstrip (s : string) :
  has_char is_letter (rstrip s) = has_char is_letter s.
Proof.
  induction s as [| c s IH]; cbn [rstrip has_char]; [reflexivity|].
  destruct (is_space c && String.eqb (rstrip s) "") eqn:Hc.
  - apply andb_true_iff in Hc. destruct Hc as [Hc Hr].
    apply String.eqb_eq in Hr. rewrite Hr in IH.
    rewrite (letter_not_space _ Hc), <- IH. reflexivity.
  - cbn [has_char]. now rewrite IH.
Qed.

Lemma has_letter_sign (s s1 : string) (neg : bool) :
  scan_sign s = (neg, s1) -> has_char is_letter s1 = has_char is_letter s.
Proof.
  destruct s as [| c s]; cbn [scan_sign]; [now intros [= _ <-]|].
  destruct (Ascii.eqb c "-") eqn:Hm.
  - intros [= _ <-]. cbn [has_char]. unfold is_letter.
    now rewrite Hm, !orb_true_r.
  - destruct (Ascii.eqb c "+") eqn:Hp; intros [= _ <-]; [|reflexivity].
    cbn [has_char]. unfold is_letter. now rewrite Hp, !orb_true_r.
Qed.

Lemma has_letter_digits (len : nat) :
  forall (s rest : string) (u : uint),
    (String.length s <= len)%nat ->
    scan_digits s = (u, rest) ->
    has_char is_letter rest = has_char is_letter s.
Proof.
  induction len as [| len IH]; intros s rest u Hlen Hscan.
  - destruct s; [|cbn in Hlen; lia]. now injection Hscan as _ <-.
  - destruct s as [| c s']; [now injection Hscan as _ <-|].
    cbn [scan_digits] in Hscan. cbn [String.length] in Hlen.
    destruct (uint_of_char c (Some Nil)) eqn:Hc;
      [|now injection Hscan as _ <-].
    assert (Hd : is_digit c = true) by (unfold is_digit; now rewrite Hc).
    cbn [has_char]. rewrite (letter_not_digit _ Hd). cbn [orb].
    destruct s' as [| c1 t].
    + destruct (uint_of_char c (Some Nil)); now injection Hscan as _ <-.
    + destruct (Ascii.eqb c1 "_") eqn:Hu.
      * assert (Hl : is_letter c1 = false)
          by (unfold is_letter; now rewrite Hu, !orb_true_r).
        cbn [String.length] in Hlen.
        destruct t as [| c2 t'].
        -- destruct (uint_of_char c (Some Nil)); injection Hscan as _ <-;
             cbn [has_char]; now rewrite ?Hl, ?(letter_not_digit _ Hd).
        -- destruct (is_digit c2) eqn:Hc2.
           ++ destruct (scan_digits (String c2 t')) as [u2 r2] eqn:E.
              assert (Hr2 : has_char is_letter r2
                            = has_char is_letter (String c2 t'))
                by (apply (IH _ _ u2); [cbn [String.length] in *; lia | exact E]).
              destruct (uint_of_char c (Some u2)); injection Hscan as _ <-.
              ** rewrite Hr2. cbn [has_char]. now rewrite Hl.
              ** cbn [has_char]. now rewrite Hl, (letter_not_digit _ Hd).
           ++ destruct (uint_of_char c (Some Nil)); injection Hscan as _ <-;
                cbn [has_char]; now rewrite ?Hl, ?(letter_not_digit _ Hd).
      * destruct (scan_digits (String c1 t)) as [u2 r2] eqn:E.
        assert (Hr2 : has_char is_letter r2
                      = has_char is_letter (String c1 t))
          by (apply (IH _ _ u2); [cbn [String.length] in *; lia | exact E]).
        destruct (uint_of_char c (Some u2)); injection Hscan as _ <-.
        -- exact Hr2.
        -- cbn [has_char]. now rewrite (letter_not_digit _ Hd).
Qed.

(** [int()] refuses a text with a letter in it. *)
Lemma int_of_str_letter (s : string) :
  has_char is_letter s = true -> int_of_str s = Raise ValueError.
Proof.
  intros H. unfold int_of_str.
  assert (Hs : has_char is_letter (strip s) = true)
    by (unfold strip; now rewrite has_letter_rstrip, has_letter_lstrip).
  destruct (scan_sign (strip s)) as [neg s1] eqn:Hsign.
  rewrite <- (has_letter_sign _ _ _ Hsign) in Hs.
  destruct (scan_digits s1) as [u rest] eqn:Hscan.
  rewrite <- (has_letter_digits _ _ _ _ (Nat.le_refl _) Hscan) in Hs.
  destruct rest as [| c r]; [discriminate Hs|].
  destruct u; reflexivity.
Qed.

(* ================================================================= *)
(** * [intword]: every bracket returns *)

Lemma powers_floats (i : Z) :
  0 <= i <= 10 ->
  exists (p : Z) (m : positive) (e : Z),
    getitem powers i = Ret p
    /\ float_of_Z p = Ret (S754_finite false m e)
    /\ Qle_bool (magnitude (fst above_googol) (snd above_googol)
                 / magnitude m e)
         (magnitude (fst above_googol) (snd above_googol)) = true.
Proof.
  intros Hi.
  assert (H : i = 0 \/ i = 1 \/ i = 2 \/ i = 3 \/ i = 4 \/ i = 5 \/ i = 6
              \/ i = 7 \/ i = 8 \/ i = 9 \/ i = 10) by lia.
  repeat (destruct H as [-> | H]); try subst i;
    do 3 eexists; (split; [vm_compute; reflexivity|]);
    (split; [vm_compute; reflexivity|]); vm_compute; reflexivity.
Qed.

Lemma human_powers_words (i : Z) :
  0 <= i <= 10 ->
  exists word, getitem human_powers i = Ret word /\ In word human_powers.
Proof.
  intros Hi.
  assert (H : i = 0 \/ i = 1 \/ i = 2 \/ i = 3 \/ i = 4 \/ i = 5 \/ i = 6
              \/ i = 7 \/ i = 8 \/ i = 9 \/ i = 10) by lia.
  repeat (destruct H as [-> | H]); try subst i;
    eexists; (split; [vm_compute; reflexivity|]);
    cbn; tauto.
Qed.

(** A mantissa shown with [p] decimals reads back as a float. *)
Lemma float_of_str_show_scaled (p : nat) (t : Z) :
  exists f, float_of_str (show_scaled p t) = Ret f.
Proof.
  unfold show_scaled.
  set (whole := str_of_N (Z.to_N (t / 10 ^ Z.of_nat p))).
  set (frac := pad_digits p (Z.to_N (t mod 10 ^ Z.of_nat p))).
  destruct p as [| p'].
  - destruct (float_of_str_numeral false whole "" "") as (f & Hf).
    + apply all_digits_str_of_N.
    + apply str_of_N_nonempty.
    + now left.
    + now left.
    + reflexivity.
    + exists f. rewrite <- Hf. cbn [append]. now rewrite append_nil_r.
  - destruct (float_of_str_numeral false whole ("." ++ frac) "")
      as (f & Hf).
    + apply all_digits_str_of_N.
    + apply str_of_N_nonempty.
    + right. exists frac. split; [reflexivity | apply all_digits_pad].
    + now left.
    + rewrite append_nil_r. cbn [append all_chars].
      apply digits_are_numeral, all_digits_pad.
    + exists f. rewrite <- Hf. cbn [append]. now rewrite append_nil_r.
Qed.

(** The fixed format of a float that is finite and not negative. *)
Lemma fmt_fixed_scaled (p : nat) (y : spec_float) :
  is_finite y = true -> sign_of y = false ->
  fmt_fixed p y = show_scaled p (rneQ (Qabs (SF2Q y) * 10 ^ Z.of_nat p))
  /\ 0 <= rneQ (Qabs (SF2Q y) * 10 ^ Z.of_nat p).
Proof.
  intros Hf Hs. split.
  - destruct y as [s | s | | s m e]; try discriminate Hf;
      cbn [sign_of] in Hs; subst s; reflexivity.
  - apply rneQ_nonneg. apply Qmult_le_0_compat; [apply Qabs_nonneg|].
    apply Qpower_pos. discriminate.
Qed.

Lemma above_googol_ok :
  bound_ok above_googol = true
  /\ Qle_bool (inject_Z (10 ^ 100))
       (magnitude (fst above_googol) (snd above_googol)) = true.
Proof. split; vm_compute; reflexivity. Qed.

(** The division of [intword], for a value up to a googol and a
    threshold of the table: a finite float that is not negative. *)
Lemma intword_quotient (n i : Z) :
  0 < n <= 10 ^ 100 -> 0 <= i <= 10 ->
  exists (p : Z) (fp y : spec_float),
    getitem powers i = Ret p /\ float_of_Z p = Ret fp
    /\ int_truediv_float n fp = Ret y
    /\ is_finite y = true /\ sign_of y = false.
Proof.
  intros Hn Hi.
  destruct above_googol_ok as [Hok Hlim]. apply Qle_bool_iff in Hlim.
  destruct (powers_floats i Hi) as (p & m & e & Hp & Hfp & Hq).
  assert (Hnb : (inject_Z n
                 <= magnitude (fst above_googol) (snd above_googol))%Q).
  { eapply Qle_trans; [|exact Hlim]. rewrite <- Zle_Qle. lia. }
  destruct (float_of_Z_le n above_googol ltac:(lia) Hok Hnb)
    as (x & Hx & Hxf & Hxs & Hxv).
  destruct (float_div_le x m e above_googol above_googol Hxf Hxs Hxv Hok Hq)
    as (y & Hy & Hyf & Hys & _).
  exists p, (S754_finite false m e), y.
  split; [exact Hp|]. split; [exact Hfp|].
  split; [|split; assumption].
  unfold int_truediv_float. rewrite Hx. exact Hy.
Qed.

(** One bracket of the table, for a value up to a googol and a format of
    any number of decimals: the loop returns a mantissa of that format
    and a word of the table, or, for a number of decimals that the format
    refuses, it raises. *)
Lemma intword_branch (decimals : nat) (n i power : Z)
      (items : list (Z * Z)) :
  1 <= i <= 10 -> 0 < n <= 10 ^ 100 -> n < power ->
  (Z.of_nat decimals <= INT_MAX ->
   exists (t : Z) (word : string),
     intword_loop decimals n ((i, power) :: items)
     = Ret (Some (show_scaled decimals t ++ " " ++ word))
     /\ 0 <= t /\ In word human_powers)
  /\ (INT_MAX < Z.of_nat decimals ->
      intword_loop decimals n ((i, power) :: items) = Raise ValueError).
Proof.
  intros Hi Hn Hpower.
  destruct (intword_quotient n (i - 1) Hn ltac:(lia))
    as (below & fbelow & y & Hbelow & Hfbelow & Hy & Hyf & Hys).
  destruct (intword_quotient n i Hn ltac:(lia))
    as (above & fabove & y' & Habove & Hfabove & Hy' & Hyf' & Hys').
  destruct (human_powers_words (i - 1) ltac:(lia)) as (wlo & Hwlo & Hinlo).
  destruct (human_powers_words i ltac:(lia)) as (whi & Hwhi & Hinhi).
  destruct (fmt_fixed_scaled decimals y Hyf Hys) as (Hfmt & Ht).
  destruct (fmt_fixed_scaled decimals y' Hyf' Hys') as (Hfmt' & Ht').
  destruct (float_of_str_show_scaled decimals
              (rneQ (Qabs (SF2Q y) * 10 ^ Z.of_nat decimals)))
    as (shown & Hshown).
  cbn [intword_loop].
  replace (n <? power) with true by (symmetry; apply Z.ltb_lt; exact Hpower).
  rewrite Hbelow. cbn [bind]. rewrite Hfbelow. cbn [bind].
  rewrite Hy. cbn [bind]. split; intros Hcap.
  - rewrite (format_fixed_accepted _ _ Hcap). cbn [bind].
    rewrite Hfmt, Hshown. cbn [bind].
    rewrite float_of_Z_thousand. cbn [bind].
    destruct (float_eqb shown thousand).
    + rewrite Habove. cbn [bind]. rewrite Hfabove. cbn [bind].
      rewrite Hy'. cbn [bind]. rewrite Hwhi. cbn [bind].
      unfold join_format, I18n.gettext.
      rewrite (format_fixed_accepted _ _ Hcap). cbn [bind]. rewrite Hfmt'.
      eexists _, whi. auto.
    + rewrite Hwlo. cbn [bind]. unfold join_format, I18n.gettext.
      rewrite (format_fixed_accepted _ _ Hcap). cbn [bind].
      rewrite Hfmt. eexists _, wlo. auto.
  - rewrite (format_fixed_refused _ _ Hcap). reflexivity.
Qed.

(** The loop over the table, for a value below some threshold of it. *)
Lemma intword_loop_shape (decimals : nat) (n : Z) (items : list (Z * Z)) :
  0 < n <= 10 ^ 100 ->
  Forall (fun item : Z * Z => 1 <= fst item <= 10) items ->
  Exists (fun item : Z * Z => n < snd item) items ->
  (Z.of_nat decimals <= INT_MAX ->
   exists (t : Z) (word : string),
     intword_loop decimals n items
     = Ret (Some (show_scaled decimals t ++ " " ++ word))
     /\ 0 <= t /\ In word human_powers)
  /\ (INT_MAX < Z.of_nat decimals ->
      intword_loop decimals n items = Raise ValueError).
Proof.
  intros Hn Hall Hex.
  induction items as [| [i power] items IH]; [inversion Hex|].
  inversion Hall as [| ? ? Hi Hall']; subst. cbn [fst] in Hi.
  destruct (Z.lt_ge_cases n power) as [Hlt | Hge].
  - now apply intword_branch.
  - rewrite intword_loop_skip by exact Hge. apply IH; [exact Hall'|].
    inversion Hex as [? ? Hhere | ? ? Hlater]; subst;
      [cbn [snd] in Hhere; lia | exact Hlater].
Qed.

Lemma intword_format_unfold (decimals : nat) (n : Z) :
  1000000 <= n ->
  intword_format decimals (PyInt n) =
  found <- intword_loop decimals n (enumerate (tl powers) 1) ;;
  match found with
  | Some text => Ret (PyStr text)
  | None => Ret (PyStr (str_of_Z n))
  end.
Proof.
  intros H. unfold intword_format, try_except, int_.
  change (getitem powers 0) with (Ret (A:=Z) 1000000).
  cbn [bind]. now rewrite (ltb_false_of_le _ _ H).
Qed.

Lemma intword_format_plain (decimals : nat) (n : Z) :
  n < 10 ^ 6 \/ 10 ^ 100 <= n ->
  intword_format decimals (PyInt n) = Ret (PyStr (str_of_Z n)).
Proof.
  intros [H | H].
  - unfold intword_format, try_except, int_.
    change (getitem powers 0) with (Ret (A:=Z) (10 ^ 6)).
    unfold bind. apply Z.ltb_lt in H. now rewrite H.
  - assert (H6 : 10 ^ 6 <= 10 ^ 100) by (vm_compute; discriminate).
    rewrite intword_format_unfold
      by (change 1000000 with (10 ^ 6); lia).
    rewrite intword_loop_beyond; [reflexivity|].
    eapply Forall_impl; [|apply powers_bounds].
    intros item Hitem. simpl in Hitem. lia.
Qed.

(** Between a million and a googol [intword] returns a mantissa in its
    format, a blank and a word of the table; with a number of decimals
    that the format refuses, it raises. *)
Lemma intword_shape (decimals : nat) (n : Z) :
  10 ^ 6 <= n < 10 ^ 100 ->
  (Z.of_nat decimals <= INT_MAX ->
   exists (t : Z) (word : string),
     intword_format decimals (PyInt n)
     = Ret (PyStr (show_scaled decimals t ++ " " ++ word))
     /\ 0 <= t /\ In word human_powers)
  /\ (INT_MAX < Z.of_nat decimals ->
      intword_format decimals (PyInt n) = Raise ValueError).
Proof.
  intros Hn.
  assert (Hlow : 1000000 <= n) by (change (10 ^ 6) with 1000000 in Hn; lia).
  destruct (intword_loop_shape decimals n (enumerate (tl powers) 1))
    as (Hok & Hbad).
  - lia.
  - rewrite intword_items. repeat (constructor; [cbn [fst]; lia|]).
    constructor.
  - rewrite intword_items. do 9 apply Exists_cons_tl.
    apply Exists_cons_hd. cbn [snd]. lia.
  - rewrite intword_format_unfold by exact Hlow. split; intros Hcap.
    + destruct (Hok Hcap) as (t & word & Hloop & Ht & Hw).
      exists t, word. split; [|auto]. rewrite Hloop. reflexivity.
    + rewrite (Hbad Hcap). reflexivity.
Qed.

Lemma default_decimals : Z.of_nat 1 <= INT_MAX.
Proof. vm_compute. discriminate. Qed.

(* ================================================================= *)
(** * The functions of an integer, applied to their own results *)

(** The three functions that start with [int(value)] look at the value
    through that conversion only. *)
Lemma ordinal_of_int (value : pyval) (n : Z) :
  int_ value = Ret n -> ordinal value = ordinal (PyInt n).
Proof. intros H. unfold ordinal. cbn [int_]. now rewrite H. Qed.

Lemma apnumber_of_int (value : pyval) (n : Z) :
  int_ value = Ret n -> apnumber value = apnumber (PyInt n).
Proof. intros H. unfold apnumber. cbn [int_]. now rewrite H. Qed.

Lemma intword_of_int (decimals : nat) (value : pyval) (n : Z) :
  int_ value = Ret n ->
  intword_format decimals value = intword_format decimals (PyInt n).
Proof. intros H. unfold intword_format. cbn [int_]. now rewrite H. Qed.

(** A text with a letter goes through them unchanged. *)
Lemma letter_passes (text : string) :
  has_char is_letter text = true ->
  ordinal (PyStr text) = Ret (PyStr text)
  /\ apnumber (PyStr text) = Ret (PyStr text)
  /\ forall decimals,
       intword_format decimals (PyStr text) = Ret (PyStr text).
Proof.
  intros H. unfold ordinal, apnumber, intword_format.
  cbn [int_]. rewrite (int_of_str_letter _ H). auto.
Qed.

Lemma ordinal_int_letter (n : Z) :
  exists text,
    ordinal (PyInt n) = Ret (PyStr text) /\ has_char is_letter text = true.
Proof.
  unfold ordinal, int_, try_except.
  destruct (mem_Z (n mod 100) [11; 12; 13]).
  - eexists. split; [reflexivity|].
    rewrite has_char_app. apply orb_true_r.
  - rewrite ordinal_suffix_lookup by (apply Z.mod_pos_bound; lia).
    eexists. split; [reflexivity|].
    rewrite has_char_app. unfold spec_suffix.
    destruct (n mod 10 =? 1); [apply orb_true_r|].
    destruct (n mod 10 =? 2); [apply orb_true_r|].
    destruct (n mod 10 =? 3); apply orb_true_r.
Qed.

Lemma apnumber_int_text (n : Z) :
  exists text,
    apnumber (PyInt n) = Ret (PyStr text)
    /\ (has_char is_letter text = true \/ text = str_of_Z n).
Proof.
  unfold apnumber, int_, try_except.
  destruct (negb ((0 <? n) && (n <? 10))) eqn:E.
  - eexists. split; [reflexivity | now right].
  - apply negb_false_iff, andb_true_iff in E. destruct E as [E1 E2].
    apply Z.ltb_lt in E1, E2.
    rewrite apnumber_word_lookup by lia.
    eexists. split; [reflexivity|]. left.
    assert (H : n = 1 \/ n = 2 \/ n = 3 \/ n = 4 \/ n = 5 \/ n = 6
                \/ n = 7 \/ n = 8 \/ n = 9) by lia.
    repeat (destruct H as [-> | H]); try subst n; reflexivity.
Qed.

Lemma human_powers_letters (word : string) :
  In word human_powers -> has_char is_letter word = true.
Proof.
  intros H. cbn in H.
  repeat (destruct H as [<- | H]; [reflexivity|]). contradiction.
Qed.

Lemma intword_int_text (decimals : nat) (n : Z) :
  (exists text,
      intword_format decimals (PyInt n) = Ret (PyStr text)
      /\ (has_char is_letter text = true \/ text = str_of_Z n))
  \/ intword_format decimals (PyInt n) = Raise ValueError.
Proof.
  destruct (Z.lt_ge_cases n (10 ^ 6)) as [Hsmall | Hlow].
  - left. exists (str_of_Z n).
    split; [apply intword_format_plain; now left | now right].
  - destruct (Z.lt_ge_cases n (10 ^ 100)) as [Hmid | Hlarge].
    + destruct (intword_shape decimals n (conj Hlow Hmid)) as (Hok & Hbad).
      destruct (Z.le_gt_cases (Z.of_nat decimals) INT_MAX) as [Hcap | Hcap].
      * destruct (Hok Hcap) as (t & word & H & _ & Hw).
        left. eexists. split; [exact H|]. left.
        rewrite !has_char_app, (human_powers_letters _ Hw).
        now rewrite !orb_true_r.
      * right. exact (Hbad Hcap).
    + left. exists (str_of_Z n).
      split; [apply intword_format_plain; now right | now right].
Qed.

(** What [ordinal] returns, it returns again. *)
Lemma ordinal_fixed (x : pyval) :
  (v <- ordinal x ;; ordinal v) = ordinal x.
Proof.
  destruct (int_ x) as [n | e] eqn:Hx.
  - rewrite (ordinal_of_int x n Hx).
    destruct (ordinal_int_letter n) as (text & -> & Hl). cbn [bind].
    apply (letter_passes text Hl).
  - unfold ordinal at 1 3. rewrite Hx. unfold try_except.
    destruct (caught e) eqn:Hc; [|reflexivity].
    cbn [bind]. unfold ordinal. rewrite Hx. unfold try_except.
    now rewrite Hc.
Qed.

(** What [apnumber] returns, it returns again. *)
Lemma apnumber_fixed (x : pyval) :
  (v <- apnumber x ;; apnumber v) = apnumber x.
Proof.
  destruct (int_ x) as [n | e] eqn:Hx.
  - rewrite (apnumber_of_int x n Hx).
    destruct (apnumber_int_text n) as (text & Ht & [Hl | ->]).
    + rewrite Ht. cbn [bind]. apply (letter_passes text Hl).
    + rewrite Ht. cbn [bind]. rewrite <- Ht.
      apply apnumber_of_int. apply int_of_str_str_of_Z.
  - unfold apnumber at 1 3. rewrite Hx. unfold try_except.
    destruct (caught e) eqn:Hc; [|reflexivity].
    cbn [bind]. unfold apnumber. rewrite Hx. unfold try_except.
    now rewrite Hc.
Qed.

(** What [intword] returns, in any format, it returns again; where the
    format is refused, the first call raises and so does the
    composition. *)
Lemma intword_fixed (decimals : nat) (x : pyval) :
  (v <- intword_format decimals x ;; intword_format decimals v)
  = intword_format decimals x.
Proof.
  destruct (int_ x) as [n | e] eqn:Hx.
  - rewrite (intword_of_int decimals x n Hx).
    destruct (intword_int_text decimals n)
      as [(text & Ht & [Hl | ->]) | Hraise].
    + rewrite Ht. cbn [bind]. apply (letter_passes text Hl).
    + rewrite Ht. cbn [bind]. rewrite <- Ht.
      apply intword_of_int. apply int_of_str_str_of_Z.
    + rewrite Hraise. reflexivity.
  - unfold intword_format. rewrite Hx. unfold try_except.
    destruct (caught e) eqn:Hc; [|reflexivity].
    cbn [bind]. rewrite Hx. now rewrite Hc.
Qed.

(** [ordinal] is idempotent on numbers: applied to what it returns for an
    integer or a float, it returns that again (and where the first call
    raises, so does the composition). *)
Theorem ordinal_idempotent :
  (forall n : Z,
      (v <- ordinal (PyInt n) ;; ordinal v) = ordinal (PyInt n))
  /\ (forall x : spec_float,
         (v <- ordinal (PyFloat x) ;; ordinal v) = ordinal (PyFloat x)).
Proof. split; intros; apply ordinal_fixed. Qed.

(** [apnumber] is idempotent on numbers. *)
Theorem apnumber_idempotent :
  (forall n : Z,
      (v <- apnumber (PyInt n) ;; apnumber v) = apnumber (PyInt n))
  /\ (forall x : spec_float,
         (v <- apnumber (PyFloat x) ;; apnumber v) = apnumber (PyFloat x)).
Proof. split; intros; apply apnumber_fixed. Qed.

(** [intword] is idempotent on numbers, with the default format and
    with a format of any number of decimals. *)
Theorem intword_idempotent :
  (forall n : Z,
      (v <- intword (PyInt n) ;; intword v) = intword (PyInt n))
  /\ (forall x : spec_float,
         (v <- intword (PyFloat x) ;; intword v) = intword (PyFloat x))
  /\ (forall (decimals : nat) (n : Z),
         (v <- intword_format decimals (PyInt n) ;;
          intword_format decimals v)
         = intword_format decimals (PyInt n)).
Proof.
  split; [|split]; intros; [apply (intword_fixed 1) ..|apply intword_fixed].
Qed.

(** [intword] on integers, in a format ["%.<decimals>f"].  With a number
    of decimals that the format accepts (at most [INT_MAX]) it returns a
    string for every integer; between a million and a googol the string
    is a mantissa of that many decimals, a blank and a word of the table.
    With more decimals the formatting raises [ValueError], outside the
    [try], for every integer between a million and a googol.  With the
    default format the mantissa is digits, a point and one digit. *)
Lemma intword_returns (decimals : nat) (n : Z) :
  (Z.of_nat decimals <= INT_MAX ->
   (exists text, intword_format decimals (PyInt n) = Ret (PyStr text))
   /\ (10 ^ 6 <= n < 10 ^ 100 ->
       exists (t : Z) (word : string),
         0 <= t /\ In word human_powers
         /\ intword_format decimals (PyInt n)
            = Ret (PyStr (show_scaled decimals t ++ " " ++ word))))
  /\ (INT_MAX < Z.of_nat decimals -> 10 ^ 6 <= n < 10 ^ 100 ->
      intword_format decimals (PyInt n) = Raise ValueError)
  /\ (10 ^ 6 <= n < 10 ^ 100 ->
      exists (t : Z) (word : string),
        0 <= t /\ In word human_powers
        /\ intword (PyInt n)
           = Ret (PyStr (str_of_N (Z.to_N (t / 10)) ++ "."
                         ++ str_of_N (Z.to_N (t mod 10))
                         ++ " " ++ word))).
Proof.
  split; [|split].
  - intros Hcap. split.
    + destruct (Z.lt_ge_cases n (10 ^ 6)) as [Hsmall | Hlow].
      * exists (str_of_Z n). apply intword_format_plain. now left.
      * destruct (Z.lt_ge_cases n (10 ^ 100)) as [Hmid | Hlarge].
        -- destruct (intword_shape decimals n (conj Hlow Hmid)) as (Hok & _).
           destruct (Hok Hcap) as (t & word & H & _).
           eexists. exact H.
        -- exists (str_of_Z n). apply intword_format_plain. now right.
    + intros Hn. destruct (intword_shape decimals n Hn) as (Hok & _).
      destruct (Hok Hcap) as (t & word & H & Ht & Hw).
      exists t, word. auto.
  - intros Hcap Hn. destruct (intword_shape decimals n Hn) as (_ & Hbad).
    exact (Hbad Hcap).
  - intros Hn. destruct (intword_shape 1 n Hn) as (Hok & _).
    destruct (Hok default_decimals) as (t & word & H & Ht & Hw).
    exists t, word. split; [exact Ht|]. split; [exact Hw|].
    unfold intword. rewrite H. do 2 f_equal. unfold show_scaled.
    change (10 ^ Z.of_nat 1) with 10.
    rewrite append_assoc. f_equal. cbn [append]. f_equal.
    unfold pad_digits.
    assert (Hd : 0 <= t mod 10 < 10) by (apply Z.mod_pos_bound; lia).
    assert (Hc : t mod 10 = 0 \/ t mod 10 = 1 \/ t mod 10 = 2
                 \/ t mod 10 = 3 \/ t mod 10 = 4 \/ t mod 10 = 5
                 \/ t mod 10 = 6 \/ t mod 10 = 7 \/ t mod 10 = 8
                 \/ t mod 10 = 9) by lia.
    repeat (destruct Hc as [-> | Hc]); try rewrite Hc; reflexivity.
Qed.

Lemma intword_returns_witness :
  (exists (t : Z) (word : string),
      0 <= t /\ In word human_powers
      /\ intword_format 3 (PyInt 1234567)
         = Ret (PyStr (show_scaled 3 t ++ " " ++ word)))
  /\ intword_format (Z.to_nat 2147483648) (PyInt 1234567) = Raise ValueError.
Proof.
  destruct (intword_returns 3 1234567) as (Hok & _).
  destruct (intword_returns (Z.to_nat 2147483648) 1234567) as (_ & Hbad & _).
  split.
  - apply Hok; [vm_compute; discriminate | split; vm_compute; congruence].
  - apply Hbad; [unfold INT_MAX; lia | split; vm_compute; congruence].
Defined.

(** The decimal text of an integer is taken as the integer. *)
Lemma text_of_integer (n : Z) :
  ordinal (PyStr (str_of_Z n)) = ordinal (PyInt n)
  /\ apnumber (PyStr (str_of_Z n)) = apnumber (PyInt n)
  /\ forall decimals,
       intword_format decimals (PyStr (str_of_Z n))
       = intword_format decimals (PyInt n).
Proof.
  pose proof (int_of_str_str_of_Z n) as H.
  split; [|split].
  - now apply ordinal_of_int.
  - now apply apnumber_of_int.
  - intros decimals. now apply intword_of_int.
Qed.

(* ================================================================= *)
(** * [intcomma]: integers *)

Lemma digit_not_comma (c : ascii) :
  is_digit c = true -> Ascii.eqb "," c = false.
Proof. intros H. apply numeral_not_comma, digit_is_numeral, H. Qed.

Lemma remove_comma_digits (d : string) :
  all_digits d = true -> remove_char "," d = d.
Proof.
  induction d as [| c d IH]; cbn [all_digits remove_char]; [reflexivity|].
  intros H. apply andb_true_iff in H. destruct H as [Hc Hd].
  now rewrite (digit_not_comma _ Hc), (IH Hd).
Qed.

(** Taking the commas out of a grouped run of digits gives the run. *)
Lemma remove_comma_group3 (d : string) :
  all_digits d = true -> remove_char "," (group3 d) = d.
Proof.
  induction d as [| c d IH]; [reflexivity|].
  cbn [all_digits]. intros H. apply andb_true_iff in H.
  destruct H as [Hc Hd]. rewrite group3_cons.
  destruct ((0 <? String.length d)%nat && (String.length d mod 3 =? 0)%nat);
    cbn [remove_char append]; rewrite (digit_not_comma _ Hc);
    [change (Ascii.eqb "," ",") with true; cbn iota|];
    now rewrite (IH Hd).
Qed.

(** A run of [k] digits takes [(k - 1) / 3] commas. *)
Lemma length_group3 (d : string) :
  String.length (group3 d)
  = (String.length d + (String.length d - 1) / 3)%nat.
Proof.
  induction d as [| c d IH]; [reflexivity|].
  rewrite group3_cons. set (k := String.length d) in *.
  assert (Hdiv : ((S k - 1) / 3
                  = (k - 1) / 3
                    + (if (0 <? k) && (k mod 3 =? 0) then 1 else 0))%nat).
  { replace (S k - 1)%nat with k by lia.
    destruct k as [| k']; [reflexivity|].
    replace (S k' - 1)%nat with k' by lia.
    change (0 <? S k')%nat with true. cbn [andb].
    pose proof (Nat.div_mod_eq (S k') 3) as H1.
    pose proof (Nat.div_mod_eq k' 3) as H2.
    pose proof (Nat.mod_upper_bound (S k') 3 ltac:(lia)) as H3.
    pose proof (Nat.mod_upper_bound k' 3 ltac:(lia)) as H4.
    destruct (S k' mod 3 =? 0)%nat eqn:E.
    - apply Nat.eqb_eq in E. lia.
    - apply Nat.eqb_neq in E. lia. }
  destruct ((0 <? k)%nat && (k mod 3 =? 0)%nat);
    cbn [String.length append]; fold k; rewrite IH, Hdiv; lia.
Qed.

Lemma split_number_int (n : Z) :
  split_number (str_of_Z n)
  = (if n <? 0 then "-" else "", str_of_N (Z.abs_N n), "").
Proof.
  unfold split_number, str_of_Z.
  pose proof (all_digits_str_of_N (Z.abs_N n)) as Hd.
  pose proof (str_of_N_nonempty (Z.abs_N n)) as Hne.
  pose proof (span_digits_app (str_of_N (Z.abs_N n)) "" Hd I) as Hspan.
  rewrite append_nil_r in Hspan.
  destruct (n <? 0).
  - cbn [append strip_prefix]. change (Ascii.eqb "-" "-") with true.
    cbn iota. now rewrite Hspan.
  - pose proof (is_digit_minus_head (str_of_N (Z.abs_N n)) "" Hd Hne) as Hm.
    rewrite append_nil_r in Hm. now rewrite Hm, Hspan.
Qed.

Lemma spec_grouped_int (n : Z) :
  spec_grouped (str_of_Z n)
  = (if n <? 0 then "-" else "") ++ group3 (str_of_N (Z.abs_N n)).
Proof.
  rewrite (spec_grouped_split _ _ _ _ (split_number_int n)).
  now rewrite append_nil_r.
Qed.

(** The depth of the self-calls of [intcomma]: one call for each comma,
    and the last one that finds nothing to do. *)
Lemma intcomma_depth (fuel : nat) :
  forall (value : pyval) (sign run rest : string) (x y : spec_float),
    intcomma_try value = Ret x ->
    float_of_str (replace "," "" (str_ value)) = Ret y ->
    split_number (str_ value) = (sign, run, rest) ->
    intcomma_fuel fuel value
    = if ((String.length run - 1) / 3 <? fuel)%nat
      then Ret (PyStr (sign ++ group3 run ++ rest))
      else Raise RecursionError.
Proof.
  induction fuel as [| fuel IH];
    intros value sign run rest x y Htry Hgate Hs; [reflexivity|].
  cbn [intcomma_fuel]. rewrite Htry. cbn [try_except].
  rewrite (re_sub_thousands_split _ _ _ _ Hs).
  destruct (split_number_eq _ _ _ _ Hs) as (Heq & Hd & Hr & Hsign).
  destruct (4 <=? String.length run)%nat eqn:H4.
  - apply Nat.leb_le in H4.
    set (n := (String.length run - 3)%nat) in *.
    set (s' := sign ++ take_str n run ++ "," ++ drop_str n run ++ rest).
    assert (Hne : String.eqb (str_ value) s' = false).
    { apply String.eqb_neq. intros E. apply (f_equal String.length) in E.
      pose proof (f_equal String.length (take_drop n run)) as Hl.
      rewrite Heq in E. unfold s' in E.
      rewrite length_append in Hl.
      repeat first [rewrite length_append in E
                   | progress (cbn [String.length String.append] in E)].
      lia. }
    rewrite Hne.
    assert (Hgate' : float_of_str (replace "," "" s') = Ret y).
    { rewrite <- Hgate, Heq. unfold s'. now rewrite remove_comma_step. }
    rewrite (IH (PyStr s') sign (take_str n run)
               ("," ++ drop_str n run ++ rest) y y Hgate' Hgate'
               (split_number_step (str_ value) _ _ _ Hs H4)).
    rewrite length_take by (unfold n; lia).
    assert (Hdiv : ((String.length run - 1) / 3 = S ((n - 1) / 3))%nat).
    { replace (String.length run - 1)%nat with ((n - 1) + 1 * 3)%nat
        by (unfold n; lia).
      rewrite Nat.div_add by lia. lia. }
    rewrite Hdiv.
    change (S ((n - 1) / 3) <? S fuel)%nat with ((n - 1) / 3 <? fuel)%nat.
    destruct ((n - 1) / 3 <? fuel)%nat; [|reflexivity].
    replace (group3 run) with (group3 (take_str n run ++ drop_str n run))
      by now rewrite take_drop.
    rewrite group3_app3.
    + rewrite !append_assoc. reflexivity.
    + rewrite length_drop. unfold n. lia.
    + intros E. apply (f_equal String.length) in E.
      rewrite length_take in E by (unfold n; lia). simpl in E.
      unfold n in E. lia.
  - apply Nat.leb_gt in H4. rewrite String.eqb_refl.
    rewrite group3_short by lia.
    assert (Hdiv : ((String.length run - 1) / 3 = 0)%nat)
      by (apply Nat.div_small; lia).
    rewrite Hdiv. cbn [Nat.ltb Nat.leb]. rewrite <- Heq. reflexivity.
Qed.

(** [intcomma] on an integer that converts to a float: the commas, and
    only they, come in; without them the text reads as the integer
    again. *)
Lemma intcomma_integer (n : Z) (x : spec_float) :
  float_of_Z n = Ret x ->
  exists text,
    intcomma (PyInt n) = Ret (PyStr text)
    /\ text = (if n <? 0 then "-" else "") ++ group3 (str_of_N (Z.abs_N n))
    /\ replace "," "" text = str_of_Z n
    /\ int_of_str (replace "," "" text) = Ret n
    /\ String.length text
       = (String.length (str_of_Z n) + (digits_of n - 1) / 3)%nat.
Proof.
  intros Hx.
  destruct (float_of_str_int n) as (y & Hy).
  exists (spec_grouped (str_of_Z n)).
  split; [now apply (intcomma_grouped (PyInt n) x y)|].
  rewrite spec_grouped_int.
  assert (Hback : replace "," ""
                    ((if n <? 0 then "-" else "")
                     ++ group3 (str_of_N (Z.abs_N n)))
                  = str_of_Z n).
  { rewrite replace_char, remove_char_app.
    rewrite remove_comma_group3 by apply all_digits_str_of_N.
    unfold str_of_Z. destruct (n <? 0); reflexivity. }
  split; [reflexivity|]. split; [exact Hback|].
  split; [rewrite Hback; apply int_of_str_str_of_Z|].
  rewrite length_append, length_group3. unfold str_of_Z, digits_of.
  destruct (n <? 0); rewrite ?length_append; cbn [String.length]; lia.
Qed.

Lemma intcomma_integer_witness :
  exists text,
    intcomma (PyInt (-1234567)) = Ret (PyStr text)
    /\ replace "," "" text = "-1234567"
    /\ String.length text = 10%nat.
Proof.
  destruct (intcomma_integer (-1234567)
              (S754_finite true 5302424889720832 (-32)) eq_refl)
    as (text & H & _ & Hback & _ & Hlen).
  exists text. split; [exact H|]. split; [exact Hback | exact Hlen].
Defined.

(** An integer too large for a float: [intcomma] raises on it, since the
    handler does not catch [OverflowError]; but its decimal text converts
    to a float, an infinity, and is grouped, given the depth of one call
    for each comma. *)
Lemma intcomma_integer_text (n : Z) (fuel : nat) :
  float_of_Z n = Raise OverflowError ->
  intcomma_fuel (S fuel) (PyInt n) = Raise OverflowError
  /\ intcomma_fuel fuel (PyStr (str_of_Z n))
     = if ((digits_of n - 1) / 3 <? fuel)%nat
       then Ret (PyStr ((if n <? 0 then "-" else "")
                        ++ group3 (str_of_N (Z.abs_N n))))
       else Raise RecursionError.
Proof.
  intros H. split.
  - cbn [intcomma_fuel intcomma_try float_]. rewrite H. reflexivity.
  - destruct (float_of_str_int n) as (y & Hy).
    rewrite (intcomma_depth fuel (PyStr (str_of_Z n)) _ _ _ y y Hy Hy
               (split_number_int n)).
    now rewrite append_nil_r.
Qed.

Lemma intcomma_integer_text_witness :
  intcomma_fuel 200 (PyInt (10 ^ 400)) = Raise OverflowError
  /\ intcomma_fuel 200 (PyStr (str_of_Z (10 ^ 400)))
     = Ret (PyStr (group3 (str_of_N (Z.abs_N (10 ^ 400))))).
Proof.
  destruct (intcomma_integer_text (10 ^ 400) 199) as [H1 _];
    [vm_compute; reflexivity|].
  destruct (intcomma_integer_text (10 ^ 400) 200) as [_ H2];
    [vm_compute; reflexivity|].
  split; [exact H1|]. rewrite H2. vm_compute. reflexivity.
Defined.

(** With room for [fuel] nested calls, [intcomma] groups an integer of
    [k] digits exactly when [(k - 1) / 3 < fuel]. *)
Lemma intcomma_integer_depth (n : Z) (x : spec_float) (fuel : nat) :
  float_of_Z n = Ret x ->
  intcomma_fuel fuel (PyInt n)
  = if ((digits_of n - 1) / 3 <? fuel)%nat
    then Ret (PyStr ((if n <? 0 then "-" else "")
                     ++ group3 (str_of_N (Z.abs_N n))))
    else Raise RecursionError.
Proof.
  intros Hx. destruct (float_of_str_int n) as (y & Hy).
  rewrite (intcomma_depth fuel (PyInt n) _ _ _ x y Hx Hy
             (split_number_int n)).
  now rewrite append_nil_r.
Qed.

Lemma intcomma_integer_depth_witness :
  intcomma_fuel 2 (PyInt 1234567) = Raise RecursionError
  /\ intcomma_fuel 3 (PyInt 1234567) = Ret (PyStr "1,234,567").
Proof.
  split.
  - apply (intcomma_integer_depth 1234567
             (S754_finite false 5302424889720832 (-32)) 2 eq_refl).
  - apply (intcomma_integer_depth 1234567
             (S754_finite false 5302424889720832 (-32)) 3 eq_refl).
Defined.

(* ================================================================= *)
(** * [scientific]: integers *)

(** ** The text of an integer, read as a float *)

Lemma round_float_times_one (s : bool) (z : Z) :
  round_float s (inject_Z z * 10 ^ 0) = round_float s (inject_Z z).
Proof.
  change (10 ^ 0)%Q with 1%Q. unfold Qmult, inject_Z. cbn [Qnum Qden].
  rewrite Z.mul_1_r. reflexivity.
Qed.

Lemma float_of_str_digits (a : N) :
  float_of_str (str_of_N a)
  = Ret (round_float false (inject_Z (Z.of_N a))).
Proof.
  pose proof (all_digits_str_of_N a) as Hd.
  pose proof (str_of_N_nonempty a) as Hne.
  unfold float_of_str.
  rewrite (strip_numeral _ (digits_are_numeral _ Hd)).
  assert (Hscan : scan_digits (str_of_N a) = (N.to_uint a, "")).
  { pose proof (scan_digits_uint (N.to_uint a) "" I) as H.
    now rewrite append_nil_r in H. }
  assert (Hnil : N.to_uint a <> Nil).
  { destruct a as [| p]; [discriminate|].
    apply DecimalPos.Unsigned.to_uint_nonnil. }
  destruct (str_of_N a) as [| c s] eqn:E; [congruence|].
  cbn [all_digits] in Hd. apply andb_true_iff in Hd. destruct Hd as [Hc _].
  rewrite (scan_sign_digit c s Hc).
  destruct (not_a_name c s Hc) as [Hi Hn]. rewrite Hi, Hn.
  unfold scan_decimal. rewrite Hscan. cbn [scan_char].
  rewrite DecimalFacts.app_nil_r.
  destruct (N.to_uint a) eqn:Eu; [congruence | ..];
    cbn [scan_exponent scan_char nb_digits]; rewrite <- Eu;
    rewrite DecimalN.Unsigned.of_to;
    change (0 - Z.of_nat 0) with 0;
    now rewrite round_float_times_one.
Qed.

(** ** Text *)

Lemma contains_none (needle : string) (c0 : ascii) (s : string) :
  needle = String c0 "" \/ (exists r, needle = String c0 r) ->
  all_chars (fun c => negb (Ascii.eqb c0 c)) s = true ->
  contains needle s = false.
Proof.
  intros Hneedle.
  assert (Hhead : exists r, needle = String c0 r)
    by (destruct Hneedle as [-> | H]; [now exists "" | exact H]).
  destruct Hhead as (r & ->). clear Hneedle.
  induction s as [| c s IH]; [reflexivity|].
  cbn [all_chars]. intros H. apply andb_true_iff in H. destruct H as [Hc Hs].
  cbn [contains strip_prefix]. apply negb_true_iff in Hc. rewrite Hc.
  now apply IH.
Qed.

Lemma digit_not_minus (c : ascii) :
  is_digit c = true -> Ascii.eqb "-" c = false.
Proof. intros H. digit_cases c H; reflexivity. Qed.

Lemma digits_no_minus (d : string) :
  all_digits d = true ->
  all_chars (fun c => negb (Ascii.eqb "-" c)) d = true.
Proof.
  rewrite all_digits_chars. apply all_chars_impl.
  intros c H. now rewrite (digit_not_minus c H).
Qed.

Lemma remove_minus_digits (d : string) :
  all_digits d = true -> remove_char "-" d = d.
Proof.
  induction d as [| c d IH]; cbn [all_digits remove_char]; [reflexivity|].
  intros H. apply andb_true_iff in H. destruct H as [Hc Hd].
  now rewrite (digit_not_minus _ Hc), (IH Hd).
Qed.

Lemma strip_prefix_chars (P : ascii -> bool) (p s rest : string) :
  strip_prefix p s = Some rest ->
  all_chars P s = true -> all_chars P rest = true.
Proof.
  revert s. induction p as [| a p IH]; intros s; cbn [strip_prefix].
  - now intros [= <-].
  - destruct s as [| b s]; [discriminate|].
    destruct (Ascii.eqb a b); [|discriminate].
    intros H Hs. cbn [all_chars] in Hs. apply andb_true_iff in Hs.
    apply (IH s H), Hs.
Qed.

Lemma replace_fuel_chars (P : ascii -> bool) (old new : string) (fuel : nat) :
  all_chars P new = true ->
  forall s, all_chars P s = true ->
            all_chars P (replace_fuel fuel old new s) = true.
Proof.
  intros Hnew. induction fuel as [| fuel IH]; intros s Hs; [exact Hs|].
  cbn [replace_fuel].
  destruct (strip_prefix old s) as [rest |] eqn:E.
  - rewrite all_chars_app, Hnew. cbn [andb].
    apply IH. apply (strip_prefix_chars P old s rest E Hs).
  - destruct s as [| c s]; [reflexivity|].
    cbn [all_chars] in *. apply andb_true_iff in Hs. destruct Hs as [Hc Hs].
    now rewrite Hc, (IH s Hs).
Qed.

Lemma normalize_exponent_chars (part2 : string) :
  all_chars is_exp_char part2 = true ->
  all_chars is_exp_char (normalize_exponent part2) = true.
Proof.
  intros H. unfold normalize_exponent.
  assert (H1 : all_chars is_exp_char
                 (if contains "-0" part2 then replace "-0" "-" part2
                  else part2) = true).
  { destruct (contains "-0" part2); [|exact H].
    now apply replace_fuel_chars. }
  destruct (contains "+0" _); [|exact H1].
  now apply replace_fuel_chars.
Qed.

(** Every character of the exponent field has its glyph. *)
Lemma glyphs_total (s : string) :
  all_chars is_exp_char s = true -> exists g, glyphs s = Ret g.
Proof.
  induction s as [| c s IH]; [now exists []|].
  cbn [all_chars]. intros H. apply andb_true_iff in H. destruct H as [Hc Hs].
  destruct (IH Hs) as (g & Hg).
  assert (Hl : exists v, lookup exponents c = Ret v).
  { unfold is_exp_char in Hc.
    destruct (is_digit c) eqn:Hd.
    - digit_cases c Hd; eexists; reflexivity.
    - cbn [orb] in Hc. apply orb_true_iff in Hc.
      destruct Hc as [Hc | Hc]; apply Ascii.eqb_eq in Hc; subst c;
        eexists; reflexivity. }
  destruct Hl as (v & Hv).
  exists (v :: g). cbn [glyphs]. rewrite Hv. cbn [bind]. now rewrite Hg.
Qed.

(** Splitting at the one ["e"] of a text. *)
Lemma split_no_e (s : string) :
  all_chars (fun c => negb (Ascii.eqb c "e")) s = true ->
  split "e" s = [s].
Proof.
  induction s as [| c s IH]; [reflexivity|].
  cbn [all_chars]. intros H. apply andb_true_iff in H. destruct H as [Hc Hs].
  cbn [split]. apply negb_true_iff in Hc. now rewrite Hc, (IH Hs).
Qed.

Lemma split_at_e (a b : string) :
  all_chars (fun c => negb (Ascii.eqb c "e")) a = true ->
  all_chars (fun c => negb (Ascii.eqb c "e")) b = true ->
  split "e" (a ++ "e" ++ b) = [a; b].
Proof.
  intros Ha Hb. induction a as [| c a IH].
  - cbn [append split]. change (Ascii.eqb "e" "e") with true. cbn iota.
    now rewrite (split_no_e b Hb).
  - cbn [all_chars] in Ha. apply andb_true_iff in Ha. destruct Ha as [Hc Ha].
    cbn [append split]. apply negb_true_iff in Hc. rewrite Hc.
    cbn [append] in IH. now rewrite (IH Ha).
Qed.

Lemma mantissa_no_e (c : ascii) :
  is_mantissa_char c = true -> negb (Ascii.eqb c "e") = true.
Proof.
  unfold is_mantissa_char. intros H. apply orb_true_iff in H.
  destruct H as [H | H].
  - digit_cases c H; reflexivity.
  - apply Ascii.eqb_eq in H. now subst c.
Qed.

Lemma exp_char_no_e (c : ascii) :
  is_exp_char c = true -> negb (Ascii.eqb c "e") = true.
Proof.
  unfold is_exp_char. intros H. apply orb_true_iff in H.
  destruct H as [H | H]; [apply orb_true_iff in H; destruct H as [H | H]|].
  - digit_cases c H; reflexivity.
  - apply Ascii.eqb_eq in H. now subst c.
  - apply Ascii.eqb_eq in H. now subst c.
Qed.

(** ** The two fields of the exponential format *)

Lemma show_scaled_chars (p : nat) (t : Z) :
  all_chars is_mantissa_char (show_scaled p t) = true.
Proof.
  assert (Hd : forall d, all_digits d = true ->
                         all_chars is_mantissa_char d = true).
  { intros d. rewrite all_digits_chars. apply all_chars_impl.
    intros c H. unfold is_mantissa_char. now rewrite H. }
  unfold show_scaled. destruct p as [| p].
  - apply Hd, all_digits_str_of_N.
  - rewrite all_chars_app. rewrite (Hd _ (all_digits_str_of_N _)).
    cbn [append all_chars andb]. change (is_mantissa_char ".") with true.
    apply Hd, all_digits_pad.
Qed.

Lemma show_exponent_exp_chars (x : Z) :
  all_chars is_exp_char (show_exponent x) = true.
Proof.
  unfold show_exponent. rewrite all_chars_app.
  assert (Hd : all_chars is_exp_char (pad_digits 2 (Z.abs_N x)) = true).
  { pose proof (all_digits_pad 2 (Z.abs_N x)) as H.
    rewrite all_digits_chars in H. revert H. apply all_chars_impl.
    intros c H. unfold is_exp_char. now rewrite H. }
  rewrite Hd. destruct (x <? 0); reflexivity.
Qed.

(** The exponential format of a float that is finite and not negative:
    a mantissa, ["e"] and the exponent field. *)
Lemma fmt_exp_fields (p : nat) (x : spec_float) :
  is_finite x = true -> sign_of x = false ->
  exists (mantissa expo : string),
    fmt_exp p x = mantissa ++ "e" ++ expo
    /\ all_chars is_mantissa_char mantissa = true
    /\ all_chars is_exp_char expo = true.
Proof.
  destruct x as [s | s | | s m e]; try discriminate; cbn [sign_of];
    intros _ ->.
  - exists (show_scaled p 0), "+00". split; [reflexivity|].
    split; [apply show_scaled_chars | reflexivity].
  - cbn [fmt_exp].
    set (q := Qabs (SF2Q (S754_finite false m e))).
    set (t := rneQ (q * 10 ^ (Z.of_nat p - Qlog10 q))).
    destruct (t =? 10 ^ (Z.of_nat p + 1)).
    + eexists _, _. split; [reflexivity|].
      split; [apply show_scaled_chars | apply show_exponent_exp_chars].
    + eexists _, _. split; [reflexivity|].
      split; [apply show_scaled_chars | apply show_exponent_exp_chars].
Qed.

(** The float of a positive integer, when there is one. *)
Lemma float_of_Z_positive (n : Z) (x : spec_float) :
  0 < n -> float_of_Z n = Ret x ->
  x = round_float false (inject_Z n)
  /\ is_finite x = true /\ sign_of x = false.
Proof.
  intros Hn. unfold float_of_Z.
  replace (n <? 0) with false by (symmetry; apply Z.ltb_ge; lia).
  rewrite Z.abs_eq by lia.
  assert (Hq : Qle_bool (inject_Z n) 0 = false).
  { apply Qle_bool_false_pos. now rewrite <- (Zlt_Qlt 0). }
  unfold round_float. rewrite Hq.
  set (e := fexp prec emax (Qlog2 (inject_Z n) + 1)).
  destruct (rneQ (inject_Z n * 2 ^ (- e))) as [| mant | mant];
    try (intros [= <-]; auto).
  destruct (emax <=? Z.log2 (Z.pos mant) + e); [discriminate|].
  destruct (Z.pos mant =? 2 ^ prec); intros [= <-]; auto.
Qed.

(** ** The theorem *)

(** What [scientific] does once the value formats as a mantissa, ["e"]
    and an exponent field. *)
Lemma scientific_tail (precision : Z) (negative : bool) (value : pyval)
      (mantissa expo : string) (g : list string) :
  format_exp precision value = Ret (mantissa ++ "e" ++ expo) ->
  all_chars is_mantissa_char mantissa = true ->
  all_chars is_exp_char expo = true ->
  glyphs (normalize_exponent expo) = Ret g ->
  try_except (format_exp precision value) (Ret value) (fun n =>
    match split "e" n with
    | [part1; part2] =>
        let part2 :=
          if contains "-0" part2 then replace "-0" "-" part2
          else part2 in
        let part2 :=
          if contains "+0" part2 then replace "+0" "" part2
          else part2 in
        new_part2 <-
          (if negative then
             minus <- lookup exponents "-" ;; Ret [minus]
           else Ret []) ;;
        rest <- glyphs part2 ;;
        let final_str :=
          part1 ++ " x 10" ++ String.concat "" (new_part2 ++ rest) in
        Ret (PyStr final_str)
    | _ => Raise ValueError
    end)
  = Ret (PyStr (mantissa ++ " x 10"
                ++ String.concat ""
                     ((if negative then ["⁻"] else []) ++ g))).
Proof.
  intros Hfmt Hm He Hg.
  rewrite Hfmt. cbn [try_except].
  rewrite split_at_e.
  - fold (normalize_exponent expo). rewrite Hg.
    destruct negative; reflexivity.
  - revert Hm. apply all_chars_impl. exact mantissa_no_e.
  - revert He. apply all_chars_impl. exact exp_char_no_e.
Qed.

(** [scientific] on a positive integer that converts to a float, with a
    precision that the format accepts (from 0 to [INT_MAX]), returns the
    mantissa, [" x 10"] and the glyphs of the exponent; on the negative
    of that integer it returns the same, with a superscript minus before
    the exponent and no sign on the mantissa. *)
Lemma scientific_integer (precision n : Z) (x : spec_float) :
  0 <= precision <= INT_MAX -> 0 < n -> float_of_Z n = Ret x ->
  exists (mantissa expo : string) (g : list string),
    fmt_exp (Z.to_nat precision) x = mantissa ++ "e" ++ expo
    /\ all_chars is_mantissa_char mantissa = true
    /\ all_chars is_exp_char expo = true
    /\ glyphs (normalize_exponent expo) = Ret g
    /\ scientific_precision precision (PyInt n)
       = Ret (PyStr (mantissa ++ " x 10" ++ String.concat "" g))
    /\ scientific_precision precision (PyInt (- n))
       = Ret (PyStr (mantissa ++ " x 10" ++ String.concat "" ("⁻" :: g))).
Proof.
  intros Hp Hn Hx.
  destruct (float_of_Z_positive n x Hn Hx) as (Hval & Hfin & Hsign).
  assert (Hprec : (precision <? 0) || (INT_MAX <? precision) = false)
    by (apply orb_false_iff; split; apply Z.ltb_ge; lia).
  assert (Hread : (precision <? 0) || (PY_SSIZE_T_MAX <? precision) = false)
    by (apply orb_false_iff; split; apply Z.ltb_ge;
        unfold INT_MAX, PY_SSIZE_T_MAX in *; lia).
  assert (Hcap : (INT_MAX <? precision) = false) by (apply Z.ltb_ge; lia).
  pose proof (all_digits_str_of_N (Z.abs_N n)) as Hd.
  destruct (fmt_exp_fields (Z.to_nat precision) x Hfin Hsign)
    as (mantissa & expo & Hfields & Hm & He).
  destruct (glyphs_total _ (normalize_exponent_chars _ He)) as (g & Hg).
  exists mantissa, expo, g.
  split; [exact Hfields|]. split; [exact Hm|]. split; [exact He|].
  split; [exact Hg|]. split.
  - unfold scientific_precision. cbn [str_]. unfold str_of_Z.
    replace (n <? 0) with false by (symmetry; apply Z.ltb_ge; lia).
    rewrite (contains_none "-" "-" _ (or_introl eq_refl)
               (digits_no_minus _ Hd)).
    cbn [try_except].
    apply (scientific_tail precision false (PyInt n) mantissa expo g);
      try assumption.
    unfold format_exp. rewrite Hread, Hx. cbn [bind].
    now rewrite Hcap, <- Hfields.
  - assert (Habs : Z.abs_N (- n) = Z.abs_N n) by lia.
    unfold scientific_precision. cbn [str_]. unfold str_of_Z.
    replace (- n <? 0) with true by (symmetry; apply Z.ltb_lt; lia).
    rewrite Habs. cbn [append contains strip_prefix].
    change (Ascii.eqb "-" "-") with true. cbn iota.
    rewrite replace_char. cbn [remove_char].
    change (Ascii.eqb "-" "-") with true. cbn iota.
    rewrite (remove_minus_digits _ Hd), float_of_str_digits.
    replace (Z.of_N (Z.abs_N n)) with n by lia.
    rewrite <- Hval. cbn [bind try_except].
    apply (scientific_tail precision true (PyFloat x) mantissa expo g);
      try assumption.
    unfold format_exp. now rewrite Hprec, <- Hfields.
Qed.

Lemma scientific_integer_witness :
  exists (mantissa : string) (g : list string),
    scientific (PyInt 500)
    = Ret (PyStr (mantissa ++ " x 10" ++ String.concat "" g))
    /\ scientific (PyInt (-500))
       = Ret (PyStr (mantissa ++ " x 10" ++ String.concat "" ("⁻" :: g))).
Proof.
  destruct (scientific_integer 2 500 (S754_finite false 8796093022208000 (-44))
              ltac:(unfold INT_MAX; lia) ltac:(lia) eq_refl)
    as (mantissa & expo & g & _ & _ & _ & _ & H1 & H2).
  exists mantissa, g. split; [exact H1 | exact H2].
Defined.

(* ================================================================= *)
(** * [scientific]: a precision that the format refuses *)

(** With a negative precision the format raises and [scientific] gives
    the value back: the integer itself, or, for a negative integer, the
    float of its text without the sign. *)
Lemma scientific_precision_refused (precision n : Z) :
  precision < 0 ->
  scientific_precision precision (PyInt n)
  = Ret (if n <? 0
         then PyFloat (round_float false (inject_Z (Z.abs n)))
         else PyInt n).
Proof.
  intros Hp. apply Z.ltb_lt in Hp.
  pose proof (all_digits_str_of_N (Z.abs_N n)) as Hd.
  unfold scientific_precision. cbn [str_]. unfold str_of_Z.
  destruct (n <? 0) eqn:Hn.
  - cbn [append contains strip_prefix].
    change (Ascii.eqb "-" "-") with true. cbn iota.
    rewrite replace_char. cbn [remove_char].
    change (Ascii.eqb "-" "-") with true. cbn iota.
    rewrite (remove_minus_digits _ Hd), float_of_str_digits.
    replace (Z.of_N (Z.abs_N n)) with (Z.abs n) by lia.
    cbn [bind try_except format_exp]. rewrite Hp. reflexivity.
  - rewrite (contains_none "-" "-" _ (or_introl eq_refl)
               (digits_no_minus _ Hd)).
    cbn [try_except format_exp]. rewrite Hp. reflexivity.
Qed.

Lemma scientific_precision_refused_witness :
  scientific_precision (-1) (PyInt (-5))
  = Ret (PyFloat (S754_finite false 5629499534213120 (-50)))
  /\ scientific_precision (-1) (PyInt 5) = Ret (PyInt 5).
Proof.
  split.
  - apply (scientific_precision_refused (-1) (-5)). lia.
  - apply (scientific_precision_refused (-1) 5). lia.
Defined.

(* ================================================================= *)
(** * [fractional]: remainders that are small fractions *)

Lemma cross_multiply (a b c d : Z) :
  b <> 0 -> d <> 0 ->
  (inject_Z a / inject_Z b == inject_Z c / inject_Z d)%Q ->
  a * d = c * b.
Proof.
  intros Hb Hd H.
  pose proof (inject_Z_nonzero b Hb) as Hb'.
  pose proof (inject_Z_nonzero d Hd) as Hd'.
  apply inject_Z_injective. rewrite !inject_Z_mult.
  assert (E1 : (inject_Z a * inject_Z d
                == inject_Z a / inject_Z b * (inject_Z b * inject_Z d))%Q)
    by (field; exact Hb').
  assert (E2 : (inject_Z c * inject_Z b
                == inject_Z c / inject_Z d * (inject_Z b * inject_Z d))%Q)
    by (field; exact Hd').
  rewrite E1, E2, H. reflexivity.
Qed.

(** When the remainder of the value is a fraction [p/d0] with [d0] at
    most 1000, [fractional] shows that fraction, in lowest terms. *)
Lemma fractional_exact (value : pyval) (x : spec_float) (p d0 : Z) :
  float_ value = Ret x ->
  is_finite x = true -> valid_binary prec emax x = true ->
  1 <= d0 <= 1000 ->
  (SF2Q x - inject_Z (Qtrunc (SF2Q x)) == inject_Z p / inject_Z d0)%Q ->
  exists n d : Z,
    0 < d /\ Z.gcd n d = 1 /\ n * d0 = p * d
    /\ fractional value
       = Ret (PyStr (spec_fractional (Qtrunc (SF2Q x)) n d)).
Proof.
  intros Hfloat Hfin Hvalid Hd0 Hrem.
  destruct (fractional_core value x Hfloat Hfin Hvalid)
    as (exact & approx & Hev & Hed & Heg & Hap & _ & _ & _ & Hout).
  rewrite Hrem in Hev. unfold Qfrac in Hev.
  apply cross_multiply in Hev; [|lia|lia].
  assert (Hdiv : (denominator exact | d0)).
  { apply (Z.gauss _ (numerator exact)).
    - exists p. rewrite Hev. ring.
    - now rewrite Z.gcd_comm. }
  assert (Hle : denominator exact <= d0)
    by (apply Z.divide_pos_le; [lia | exact Hdiv]).
  assert (Hsame : approx = exact).
  { unfold limit_denominator in Hap. cbn [Z.ltb Z.compare] in Hap.
    replace (denominator exact <=? 1000) with true in Hap
      by (symmetry; apply Z.leb_le; lia).
    now injection Hap. }
  subst approx.
  exists (numerator exact), (denominator exact).
  split; [exact Hed|]. split; [exact Heg|]. split; [exact Hev | exact Hout].
Qed.

Lemma fractional_exact_witness :
  exists n d : Z,
    0 < d /\ Z.gcd n d = 1 /\ n * 8 = 1 * d
    /\ fractional (PyFloat two_and_an_eighth)
       = Ret (PyStr (spec_fractional 2 n d)).
Proof.
  apply (fractional_exact (PyFloat two_and_an_eighth) two_and_an_eighth 1 8);
    first [reflexivity | lia].
Defined.

(* ================================================================= *)
(** * Floats: rounding keeps the order *)

Lemma round_float_finite (q : Q) :
  (0 < q)%Q -> is_finite (round_float false q) = true ->
  Z.log2 (rneQ (q * 2 ^ (- fexp prec emax (Qlog2 q + 1))))
  + fexp prec emax (Qlog2 q + 1) < emax.
Proof.
  intros Hq. unfold round_float. rewrite (Qle_bool_false_pos _ Hq).
  set (e := fexp prec emax (Qlog2 q + 1)).
  destruct (rneQ (q * 2 ^ (- e))) as [| p | p] eqn:Em.
  - intros _. cbn [Z.log2]. pose proof (fexp_ge_emin (Qlog2 q + 1)) as H.
    fold e in H.
    assert (Hm : 0 <= rneQ (q * 2 ^ (- e))).
    { apply rneQ_nonneg. apply Qmult_le_0_compat; [lra|].
      apply Qlt_le_weak, pow2_pos. }
    (* a mantissa of zero: the magnitude is below half a unit *)
    assert (He : e < emax).
    { destruct (Z.lt_ge_cases e emax) as [L | G]; [exact L|]. exfalso.
      unfold e, fexp, emin in G.
      pose proof (Qlog2_spec q Hq) as [L1 _].
      assert (Hk : e <= Qlog2 q).
      { unfold e, fexp, emin. unfold prec, emax in *. lia. }
      assert (H1 : (1 <= q * 2 ^ (- e))%Q).
      { rewrite <- (pow2_cancel e).
        apply Qmult_le_compat_r; [|apply Qlt_le_weak, pow2_pos].
        eapply Qle_trans; [apply (pow2_le e (Qlog2 q) Hk) | exact L1]. }
      pose proof (rneQ_mono _ _ H1) as Hr.
      change 1%Q with (inject_Z 1) in Hr. rewrite rneQ_inject_Z in Hr.
      lia. }
    lia.
  - destruct (emax <=? Z.log2 (Z.pos p) + e) eqn:Hov; [discriminate|].
    intros _. apply Z.leb_gt in Hov. exact Hov.
  - intros _.
    assert (Hm : 0 <= rneQ (q * 2 ^ (- e))).
    { apply rneQ_nonneg. apply Qmult_le_0_compat; [lra|].
      apply Qlt_le_weak, pow2_pos. }
    lia.
Qed.

Lemma fexp_cases (k : Z) :
  fexp prec emax k = k - prec /\ 3 - emax - prec <= k - prec
  \/ fexp prec emax k = 3 - emax - prec /\ k - prec <= 3 - emax - prec.
Proof. unfold fexp, emin. lia. Qed.

(** Rounding to the nearest float keeps the order of magnitudes. *)
Lemma round_float_mono (q1 q2 : Q) :
  (0 < q1)%Q -> (q1 <= q2)%Q ->
  is_finite (round_float false q2) = true ->
  is_finite (round_float false q1) = true
  /\ (SF2Q (round_float false q1) <= SF2Q (round_float false q2))%Q.
Proof.
  intros Hq1 Hle Hfin2.
  assert (Hq2 : (0 < q2)%Q) by lra.
  pose proof (round_float_finite q2 Hq2 Hfin2) as Hov2.
  set (e1 := fexp prec emax (Qlog2 q1 + 1)).
  set (e2 := fexp prec emax (Qlog2 q2 + 1)) in *.
  set (m1 := rneQ (q1 * 2 ^ (- e1))).
  set (m2 := rneQ (q2 * 2 ^ (- e2))) in *.
  assert (He : e1 <= e2).
  { apply fexp_mono. pose proof (Qlog2_mono _ _ Hq1 Hle). lia. }
  assert (Hm1 : 0 <= m1).
  { apply rneQ_nonneg. apply Qmult_le_0_compat; [lra|].
    apply Qlt_le_weak, pow2_pos. }
  assert (Hm2 : 0 <= m2).
  { apply rneQ_nonneg. apply Qmult_le_0_compat; [lra|].
    apply Qlt_le_weak, pow2_pos. }
  assert (Hcore : Z.log2 m1 + e1 < emax
                  /\ (inject_Z m1 * 2 ^ e1 <= inject_Z m2 * 2 ^ e2)%Q).
  { destruct (Z.eq_dec e1 e2) as [Eq | Ne].
    - assert (Hm : m1 <= m2).
      { apply rneQ_mono. rewrite Eq.
        apply Qmult_le_compat_r; [exact Hle|].
        apply Qlt_le_weak, pow2_pos. }
      split.
      + pose proof (Z.log2_le_mono _ _ Hm). lia.
      + rewrite Eq. apply Qmult_le_compat_r; [now rewrite <- Zle_Qle|].
        apply Qlt_le_weak, pow2_pos.
    - assert (Hlt : e1 < e2) by lia.
      assert (Hup : m1 <= 2 ^ prec).
      { rewrite <- (rneQ_inject_Z (2 ^ prec)). apply rneQ_mono.
        rewrite pow2_inject by (unfold prec; lia).
        pose proof (Qlog2_spec q1 Hq1) as [_ U].
        assert (Hk : Qlog2 q1 + 1 <= e1 + prec).
        { destruct (fexp_cases (Qlog2 q1 + 1)) as [[E _] | [E L]];
            fold e1 in E; lia. }
        apply Qle_trans with (2 ^ (e1 + prec) * 2 ^ (- e1))%Q.
        - apply Qmult_le_compat_r; [|apply Qlt_le_weak, pow2_pos].
          apply Qlt_le_weak. eapply Qlt_le_trans; [exact U|].
          now apply pow2_le.
        - rewrite <- pow2_add.
          replace (e1 + prec + - e1) with prec by lia. apply Qle_refl. }
      assert (He2 : e2 = Qlog2 q2 + 1 - prec).
      { pose proof (fexp_ge_emin (Qlog2 q1 + 1)) as G. fold e1 in G.
        destruct (fexp_cases (Qlog2 q2 + 1)) as [[E _] | [E L]];
          fold e2 in E; lia. }
      assert (Hlow : 2 ^ (prec - 1) <= m2).
      { rewrite <- (rneQ_inject_Z (2 ^ (prec - 1))). apply rneQ_mono.
        rewrite pow2_inject by (unfold prec; lia).
        pose proof (Qlog2_spec q2 Hq2) as [L _].
        apply Qle_trans with (2 ^ Qlog2 q2 * 2 ^ (- e2))%Q.
        - rewrite <- pow2_add.
          replace (Qlog2 q2 + - e2) with (prec - 1) by lia. apply Qle_refl.
        - apply Qmult_le_compat_r; [exact L|].
          apply Qlt_le_weak, pow2_pos. }
      assert (Hl2 : prec - 1 <= Z.log2 m2).
      { rewrite <- (Z.log2_pow2 (prec - 1)) by (unfold prec; lia).
        now apply Z.log2_le_mono. }
      assert (Hl1 : Z.log2 m1 <= prec).
      { rewrite <- (Z.log2_pow2 prec) by (unfold prec; lia).
        now apply Z.log2_le_mono. }
      split; [lia|].
      apply Qle_trans with (inject_Z (2 ^ prec) * 2 ^ e1)%Q.
      { apply Qmult_le_compat_r; [now rewrite <- Zle_Qle|].
        apply Qlt_le_weak, pow2_pos. }
      apply Qle_trans with (inject_Z (2 ^ (prec - 1)) * 2 ^ e2)%Q.
      { rewrite !pow2_inject by (unfold prec; lia).
        rewrite <- !pow2_add. apply pow2_le. lia. }
      apply Qmult_le_compat_r; [now rewrite <- Zle_Qle|].
      apply Qlt_le_weak, pow2_pos. }
  destruct Hcore as [Hov1 Hval].
  destruct (round_float_value false q1 Hq1 Hov1) as (Hf1 & _ & Hv1).
  destruct (round_float_value false q2 Hq2 Hov2) as (_ & _ & Hv2).
  split; [exact Hf1|].
  rewrite Hv1, Hv2. unfold signed. exact Hval.
Qed.

Lemma round_float_sign (s : bool) (q : Q) : sign_of (round_float s q) = s.
Proof.
  unfold round_float. destruct (Qle_bool q 0); [reflexivity|].
  destruct (rneQ _) as [| p | p]; try reflexivity.
  destruct (emax <=? _); [reflexivity|].
  destruct (_ =? _); reflexivity.
Qed.

Lemma SF2Q_nonneg (x : spec_float) : sign_of x = false -> (0 <= SF2Q x)%Q.
Proof.
  destruct x as [s | s | | s m e]; cbn [sign_of SF2Q]; try (intros; lra).
  intros ->. rewrite Qmult_1_l.
  apply Qlt_le_weak, (magnitude_pos m e).
Qed.

Lemma tenths_mono (y1 y2 : spec_float) :
  sign_of y1 = false -> (SF2Q y1 <= SF2Q y2)%Q -> tenths y1 <= tenths y2.
Proof.
  intros Hs Hle. pose proof (SF2Q_nonneg y1 Hs) as H1.
  unfold tenths. apply rneQ_mono.
  apply Qmult_le_compat_r; [|discriminate].
  rewrite !Qabs_pos by lra. exact Hle.
Qed.

(** [float(a) <= float(b)] for integers [0 < a <= b]. *)
Lemma float_of_Z_mono (a b : Z) (fb : spec_float) :
  0 < a <= b -> float_of_Z b = Ret fb -> is_finite fb = true ->
  exists fa,
    float_of_Z a = Ret fa /\ is_finite fa = true /\ sign_of fa = false
    /\ (SF2Q fa <= SF2Q fb)%Q.
Proof.
  intros Hab Hb Hfin. unfold float_of_Z in *.
  replace (a <? 0) with false by (symmetry; apply Z.ltb_ge; lia).
  replace (b <? 0) with false in Hb by (symmetry; apply Z.ltb_ge; lia).
  rewrite Z.abs_eq in * by lia.
  assert (Hrb : fb = round_float false (inject_Z b)).
  { destruct (round_float false (inject_Z b)); now inversion Hb. }
  rewrite Hrb in Hfin.
  destruct (round_float_mono (inject_Z a) (inject_Z b)) as (Hfa & Hle).
  - now rewrite <- (Zlt_Qlt 0).
  - rewrite <- Zle_Qle. lia.
  - exact Hfin.
  - exists (round_float false (inject_Z a)).
    split; [|split; [exact Hfa | split; [apply round_float_sign|]]].
    + destruct (round_float false (inject_Z a)); try reflexivity.
      discriminate Hfa.
    + now rewrite Hrb.
Qed.

(** A lower bound through the division. *)
Lemma float_div_ge (x y : spec_float) (mP : positive) (eP : Z) (c : Q) :
  is_finite x = true -> sign_of x = false ->
  (0 < c)%Q -> (c * magnitude mP eP <= SF2Q x)%Q ->
  float_div x (S754_finite false mP eP) = Ret y ->
  is_finite y = true ->
  is_finite (round_float false c) = true
  /\ (SF2Q (round_float false c) <= SF2Q y)%Q.
Proof.
  intros Hf Hs Hc Hle Hdiv Hfy.
  pose proof (magnitude_pos mP eP) as HP.
  destruct x as [s | s | | s m e]; try discriminate Hf.
  - exfalso. cbn [SF2Q] in Hle.
    assert (0 < c * magnitude mP eP)%Q by (apply Qmult_lt_0_compat; assumption).
    lra.
  - cbn [sign_of] in Hs. subst s. cbn [float_div xorb] in Hdiv.
    injection Hdiv as <-.
    fold (magnitude m e) in *. fold (magnitude mP eP) in *.
    rewrite SF2Q_magnitude in Hle. unfold signed in Hle.
    apply round_float_mono; [exact Hc | | exact Hfy].
    apply Qle_shift_div_l; [exact HP | exact Hle].
Qed.

(* ================================================================= *)
(** * [intword]: the word of each bracket *)

Lemma tenths_one : tenths (round_float false 1) = 10.
Proof. vm_compute. reflexivity. Qed.

Lemma tenths_999 :
  is_finite (round_float false (inject_Z 999)) = true
  /\ tenths (round_float false (inject_Z 999)) = 9990.
Proof. split; vm_compute; reflexivity. Qed.

(** One bracket of the table, with its words: the mantissa is between
    ["1.0"] and ["999.9"] before the word of the bracket, or it is ["1.0"]
    before the next word. *)
Lemma intword_bracket_word (n i power limit below : Z)
      (items : list (Z * Z)) (wlo whi : string) :
  bracket_check i limit = true -> bracket_low i = true ->
  getitem powers (i - 1) = Ret below ->
  getitem human_powers (i - 1) = Ret wlo ->
  getitem human_powers i = Ret whi ->
  0 < below <= n -> n <= limit -> n < power ->
  exists t : Z,
    10 <= t < 10000
    /\ (intword_loop 1 n ((i, power) :: items)
        = Ret (Some (show_scaled 1 t ++ " " ++ wlo))
        \/ t = 10
           /\ intword_loop 1 n ((i, power) :: items)
              = Ret (Some (show_scaled 1 t ++ " " ++ whi))).
Proof.
  intros Hcheck Hlow Hbelow Hwlo Hwhi Hn Hlimit Hpower.
  unfold bracket_check in Hcheck. unfold bracket_low in Hlow.
  rewrite Hbelow, Hwlo, Hwhi in Hcheck. rewrite Hbelow in Hlow.
  destruct (getitem powers i) as [above |] eqn:Habove; [|discriminate].
  destruct (float_of_Z below) as [[| | | [|] mP eP] |] eqn:HP;
    try discriminate.
  destruct (float_of_Z above) as [[| | | [|] mQ eQ] |] eqn:HQ;
    try discriminate.
  set (b := float_above limit) in *.
  set (c := (inject_Z 999 * magnitude mP eP / magnitude mQ eQ)%Q) in *.
  apply andb_true_iff in Hlow. destruct Hlow as [Hlow Hc10].
  apply andb_true_iff in Hlow. destruct Hlow as [Hcpos Hcfin].
  apply Z.leb_le in Hc10.
  assert (Hc : (0 < c)%Q).
  { apply negb_true_iff in Hcpos.
    destruct (Qlt_le_dec 0 c) as [L | G]; [exact L|].
    apply Qle_bool_iff in G. congruence. }
  apply andb_true_iff in Hcheck. destruct Hcheck as [Hcheck HcQ].
  apply andb_true_iff in Hcheck. destruct Hcheck as [Hcheck HcP].
  apply andb_true_iff in Hcheck. destruct Hcheck as [Hcheck Hlim].
  apply andb_true_iff in Hcheck. destruct Hcheck as [Hcheck Hone].
  apply andb_true_iff in Hcheck. destruct Hcheck as [Hb Hthousand].
  apply Qle_bool_iff in Hlim.
  assert (Hnb : (inject_Z n <= magnitude (fst b) (snd b))%Q).
  { eapply Qle_trans; [|exact Hlim]. now rewrite <- Zle_Qle. }
  destruct (float_of_Z_le n b ltac:(lia) Hb Hnb)
    as (x & Hx & Hxf & Hxs & Hxv).
  destruct (float_div_le x mP eP b above_thousand Hxf Hxs Hxv Hthousand HcP)
    as (y & Hy & Hyf & Hys & Hyv).
  destruct (float_div_le x mQ eQ b above_one Hxf Hxs Hxv Hone HcQ)
    as (y' & Hy' & Hyf' & Hys' & Hyv').
  pose proof (tenths_le y above_thousand Hyv) as Ht.
  rewrite tenths_above_thousand in Ht.
  pose proof (tenths_le y' above_one Hyv') as Ht'.
  rewrite tenths_above_one in Ht'.
  destruct (reads_thousand_spec (tenths y) Ht) as (shown & Hshown & Heq).
  (* the value is not below the threshold, as floats *)
  pose proof (magnitude_pos mP eP) as HPpos.
  pose proof (magnitude_pos mQ eQ) as HQpos.
  assert (HxP : (magnitude mP eP <= SF2Q x)%Q).
  { destruct (float_of_Z_mono below n x Hn Hx Hxf) as (fa & Hfa & _ & _ & Hle).
    rewrite HP in Hfa. injection Hfa as <-.
    rewrite SF2Q_magnitude in Hle. exact Hle. }
  assert (Hy1 : 10 <= tenths y).
  { destruct (float_div_ge x y mP eP 1 Hxf Hxs ltac:(reflexivity)
                ltac:(now rewrite Qmult_1_l) Hy Hyf) as (_ & Hle).
    rewrite <- tenths_one.
    apply tenths_mono; [apply round_float_sign | exact Hle]. }
  cbn [intword_loop].
  replace (n <? power) with true by (symmetry; apply Z.ltb_lt; exact Hpower).
  rewrite Hbelow. cbn [bind]. rewrite HP. cbn [bind].
  unfold int_truediv_float. rewrite Hx. cbn [bind]. rewrite Hy. cbn [bind].
  rewrite format_fixed_default. cbn [bind].
  rewrite (fmt_fixed_tenths y Hyf Hys), Hshown. cbn [bind].
  rewrite float_of_Z_thousand. cbn [bind]. rewrite Heq.
  destruct (tenths y =? 10000) eqn:Hten.
  - apply Z.eqb_eq in Hten.
    rewrite Habove. cbn [bind]. rewrite HQ. cbn [bind].
    rewrite Hy'. cbn [bind]. rewrite Hwhi.
    cbn [bind]. unfold join_format, I18n.gettext.
    rewrite format_fixed_default. cbn [bind].
    rewrite (fmt_fixed_tenths y' Hyf' Hys').
    (* a quotient that shows as 1000.0 is above 999 *)
    assert (HxP999 : (inject_Z 999 * magnitude mP eP <= SF2Q x)%Q).
    { destruct (Qlt_le_dec (SF2Q x) (inject_Z 999 * magnitude mP eP))
        as [L | G]; [|exact G].
      exfalso.
      assert (Hx0 : (0 < SF2Q x)%Q) by lra.
      destruct x as [s | s | | s m e]; try discriminate Hxf.
      { cbn [SF2Q] in Hx0. lra. }
      cbn [sign_of] in Hxs. subst s. cbn [float_div xorb] in Hy.
      injection Hy as Hy.
      fold (magnitude m e) in *. fold (magnitude mP eP) in *.
      rewrite SF2Q_magnitude in L, Hx0. unfold signed in L, Hx0.
      destruct tenths_999 as [Hf999 Ht999].
      destruct (round_float_mono (magnitude m e / magnitude mP eP)
                  (inject_Z 999)) as (_ & Hle).
      - apply Qlt_shift_div_l; [exact HPpos|]. now rewrite Qmult_0_l.
      - apply Qle_shift_div_r; [exact HPpos|]. lra.
      - exact Hf999.
      - rewrite Hy in Hle.
        pose proof (tenths_mono y _ Hys Hle) as Hcontra.
        rewrite Ht999 in Hcontra. lia. }
    assert (Hy10 : 10 <= tenths y').
    { destruct (float_div_ge x y' mQ eQ c Hxf Hxs Hc) as (_ & Hle);
        [ | exact Hy' | exact Hyf' | ].
      - unfold c. unfold Qdiv.
        rewrite <- Qmult_assoc, (Qmult_comm (/ _)), Qmult_inv_r, Qmult_1_r.
        + exact HxP999.
        + intros E. rewrite E in HQpos. discriminate.
      - eapply Z.le_trans; [exact Hc10|].
        apply tenths_mono; [apply round_float_sign | exact Hle]. }
    exists (tenths y'). split; [lia|]. right. split; [lia | reflexivity].
  - apply Z.eqb_neq in Hten. rewrite Hwlo. cbn [bind].
    unfold join_format, I18n.gettext.
    rewrite format_fixed_default. cbn [bind].
    rewrite (fmt_fixed_tenths y Hyf Hys).
    exists (tenths y). split; [lia|]. left. reflexivity.
Qed.

(** Below [10 ^ 33], [intword] of a value in the bracket of a threshold
    shows a mantissa between ["1.0"] and ["999.9"] and the word of that
    threshold, or, when that mantissa would show as ["1000.0"], ["1.0"] and
    the next word.  The last bracket before the gap of the table is
    different: there the promotion leads to a googol. *)
Lemma intword_magnitude (n i below above : Z) (wlo whi : string) :
  1 <= i <= 9 ->
  getitem powers (i - 1) = Ret below ->
  getitem powers i = Ret above ->
  getitem human_powers (i - 1) = Ret wlo ->
  getitem human_powers i = Ret whi ->
  below <= n < above ->
  ((exists t : Z,
       10 <= t < 10000
       /\ intword (PyInt n) = Ret (PyStr (show_scaled 1 t ++ " " ++ wlo)))
   \/ intword (PyInt n) = Ret (PyStr ("1.0 " ++ whi)))
  /\ intword (PyInt (10 ^ 36 - 1)) = Ret (PyStr "0.0 googol").
Proof.
  intros Hi Hbelow Habove Hwlo Hwhi Hn.
  split; [|vm_compute; reflexivity].
  assert (Hcases : i = 1 \/ i = 2 \/ i = 3 \/ i = 4 \/ i = 5 \/ i = 6
                   \/ i = 7 \/ i = 8 \/ i = 9) by lia.
  assert (Hloop : exists t : Z,
             10 <= t < 10000
             /\ (intword_loop 1 n (enumerate (tl powers) 1)
                 = Ret (Some (show_scaled 1 t ++ " " ++ wlo))
                 \/ t = 10
                    /\ intword_loop 1 n (enumerate (tl powers) 1)
                       = Ret (Some (show_scaled 1 t ++ " " ++ whi)))
             /\ 1000000 <= n).
  { rewrite intword_items.
    repeat (destruct Hcases as [-> | Hcases]); try subst i;
      pose proof Hbelow as Hb'; pose proof Habove as Ha';
      vm_compute in Hb'; vm_compute in Ha';
      injection Hb' as Hb'; injection Ha' as Ha';
      rewrite <- Hb', <- Ha' in Hn;
      rewrite ?intword_loop_skip by lia;
      match goal with
      | |- context [intword_loop 1 n ((?k, ?p) :: ?items)] =>
          destruct (intword_bracket_word n k p p below items wlo whi)
            as (t & Ht & Hor);
          [ vm_compute; reflexivity | vm_compute; reflexivity
          | exact Hbelow | exact Hwlo | exact Hwhi
          | lia | lia | lia | ]
      end;
      exists t; (split; [exact Ht|]); (split; [exact Hor | lia]). }
  destruct Hloop as (t & Ht & Hor & Hlow).
  rewrite intword_unfold by exact Hlow.
  destruct Hor as [Hl | [-> Hl]]; rewrite Hl; cbn [bind].
  - left. exists t. split; [exact Ht | reflexivity].
  - right. reflexivity.
Qed.

Lemma intword_magnitude_witness :
  (exists t : Z,
      10 <= t < 10000
      /\ intword (PyInt 1200000000)
         = Ret (PyStr (show_scaled 1 t ++ " " ++ "billion")))
  \/ intword (PyInt 1200000000) = Ret (PyStr ("1.0 " ++ "trillion")).
Proof.
  apply (intword_magnitude 1200000000 2 (10 ^ 9) (10 ^ 12)
           "billion" "trillion");
    first [lia | vm_compute; reflexivity].
Defined.

(* ================================================================= *)
(** * The decimal text of an integer, as a float *)

(** [float(str(n))] is the float nearest to [n]; a magnitude too large
    gives an infinity, where [float(n)] raises. *)
Lemma float_of_str_str_of_Z (n : Z) :
  float_of_str (str_of_Z n)
  = Ret (round_float (n <? 0) (inject_Z (Z.abs n))).
Proof.
  pose proof (all_digits_str_of_N (Z.abs_N n)) as Hd.
  unfold float_of_str. rewrite (strip_numeral _ (str_of_Z_numeral n)).
  assert (Hscan : scan_digits (str_of_N (Z.abs_N n))
                  = (N.to_uint (Z.abs_N n), "")).
  { pose proof (scan_digits_uint (N.to_uint (Z.abs_N n)) "" I) as H.
    now rewrite append_nil_r in H. }
  assert (Hnil : N.to_uint (Z.abs_N n) <> Nil).
  { destruct (Z.abs_N n) as [| p]; [discriminate|].
    apply DecimalPos.Unsigned.to_uint_nonnil. }
  assert (Hsign : scan_sign (str_of_Z n)
                  = (n <? 0, str_of_N (Z.abs_N n))).
  { unfold str_of_Z. destruct (n <? 0); [reflexivity|].
    destruct (str_of_N (Z.abs_N n)) as [| c s] eqn:E.
    - now destruct (str_of_N_nonempty (Z.abs_N n)).
    - cbn [all_digits] in Hd. apply andb_true_iff in Hd.
      now apply scan_sign_digit. }
  rewrite Hsign.
  destruct (str_of_N (Z.abs_N n)) as [| c s] eqn:E;
    [now destruct (str_of_N_nonempty (Z.abs_N n))|].
  cbn [all_digits] in Hd. apply andb_true_iff in Hd. destruct Hd as [Hc _].
  destruct (not_a_name c s Hc) as [Hi Hn]. rewrite Hi, Hn.
  unfold scan_decimal. rewrite Hscan. cbn [scan_char].
  rewrite DecimalFacts.app_nil_r.
  destruct (N.to_uint (Z.abs_N n)) eqn:Eu; [congruence | ..];
    cbn [scan_exponent scan_char nb_digits]; rewrite <- Eu;
    rewrite DecimalN.Unsigned.of_to;
    change (0 - Z.of_nat 0) with 0;
    rewrite round_float_times_one;
    now replace (Z.of_N (Z.abs_N n)) with (Z.abs n) by lia.
Qed.

Lemma float_of_Z_value (n : Z) (x : spec_float) :
  float_of_Z n = Ret x -> x = round_float (n <? 0) (inject_Z (Z.abs n)).
Proof.
  unfold float_of_Z.
  destruct (round_float (n <? 0) (inject_Z (Z.abs n)));
    intros H; now inversion H.
Qed.

(** The functions that start with [float(value)] give on the decimal
    text of an integer that converts to a float what they give on the
    integer; [scientific] with a precision that the format accepts (from
    0 to [INT_MAX]). *)
Lemma text_of_integer_float (n precision : Z) (x : spec_float) :
  float_of_Z n = Ret x -> 0 <= precision <= INT_MAX ->
  fractional (PyStr (str_of_Z n)) = fractional (PyInt n)
  /\ intcomma (PyStr (str_of_Z n)) = intcomma (PyInt n)
  /\ scientific_precision precision (PyStr (str_of_Z n))
     = scientific_precision precision (PyInt n).
Proof.
  intros Hx Hp. pose proof (float_of_Z_value n x Hx) as Hval.
  pose proof (float_of_str_str_of_Z n) as Hstr. rewrite <- Hval in Hstr.
  split; [|split].
  - unfold fractional. cbn [float_]. now rewrite Hstr, Hx.
  - destruct (float_of_str_int n) as (y & Hy).
    rewrite (intcomma_grouped (PyStr (str_of_Z n)) y y Hy Hy).
    now rewrite (intcomma_grouped (PyInt n) x y Hx Hy).
  - unfold scientific_precision. cbn [str_].
    destruct (contains "-" (str_of_Z n)); [reflexivity|].
    rewrite Hstr. cbn [bind try_except].
    unfold format_exp.
    replace ((precision <? 0) || (INT_MAX <? precision)) with false
      by (symmetry; apply orb_false_iff; split; apply Z.ltb_ge; lia).
    replace ((precision <? 0) || (PY_SSIZE_T_MAX <? precision)) with false
      by (symmetry; apply orb_false_iff; split; apply Z.ltb_ge;
          unfold INT_MAX, PY_SSIZE_T_MAX in *; lia).
    rewrite Hx. cbn [bind].
    replace (INT_MAX <? precision) with false
      by (symmetry; apply Z.ltb_ge; lia).
    reflexivity.
Qed.

Lemma text_of_integer_float_witness :
  fractional (PyStr "-7") = fractional (PyInt (-7))
  /\ intcomma (PyStr "-7") = intcomma (PyInt (-7))
  /\ scientific (PyStr "-7") = scientific (PyInt (-7)).
Proof.
  apply (text_of_integer_float (-7) 2
           (S754_finite true 7881299347898368 (-50)));
    [reflexivity | unfold INT_MAX; lia].
Defined.

(* ================================================================= *)
(** * [limit_denominator]: no fraction within the bound is nearer *)

Section LimitDenominatorBest.

Variables max N D : Z.
Hypothesis Hmax : 1 <= max.
Hypothesis Hbig : max < D.
Hypothesis Hunit : - D < N < D.

(** At the end of the loop the two candidates are neighbours on either
    side of the fraction, and their denominators add up to more than
    the bound. *)
Lemma exit_signs (p0 q0 p1 q1 n d : Z) :
  cf_inv max N D p0 q0 p1 q1 n d ->
  cf_det N D p0 q0 p1 q1 n d ->
  max < q0 + n / d * q1 ->
  let k := (max - q0) / q1 in
  exists s : Z,
    (s = 1 \/ s = -1)
    /\ 1 <= q1 /\ 1 <= q0 + k * q1 /\ max < q1 + (q0 + k * q1)
    /\ 0 < d /\ 0 < n - k * d
    /\ p1 * D - N * q1 = - (d * s)
    /\ (p0 + k * p1) * D - N * (q0 + k * q1) = (n - k * d) * s
    /\ (p0 + k * p1) * q1 - p1 * (q0 + k * q1) = s.
Proof.
  intros Hinv Hdet Hbreak k.
  destruct (cf_inv_exit max N D Hmax Hbig Hunit _ _ _ _ _ _ Hinv Hbreak)
    as (Hq1 & Hqk & _). fold k in Hqk.
  destruct Hinv as (Hd & _ & _ & Hq0 & _ & _).
  destruct Hdet as (Hp & Hq & Hdet).
  assert (Hk1 : k * q1 <= max - q0)
    by (unfold k; rewrite Z.mul_comm; apply Z.mul_div_le; lia).
  assert (Hk2 : max - q0 < k * q1 + q1).
  { pose proof (Z.mod_pos_bound (max - q0) q1 ltac:(lia)) as Hm.
    pose proof (Z.div_mod (max - q0) q1 ltac:(lia)) as Hdm.
    fold k in Hdm. lia. }
  set (a := n / d) in *.
  assert (Hka : k < a) by nia.
  assert (Han : a * d <= n)
    by (unfold a; rewrite Z.mul_comm; apply Z.mul_div_le; lia).
  assert (Hrem : d <= n - k * d) by nia.
  exists (p0 * q1 - p1 * q0).
  split; [exact Hdet|]. split; [lia|]. split; [lia|]. split; [lia|].
  split; [exact Hd|]. split; [lia|].
  split; [rewrite <- Hp, <- Hq; ring|].
  split; [rewrite <- Hp, <- Hq; ring | ring].
Qed.

End LimitDenominatorBest.

(** A fraction [a/b] with a denominator below the sum of those of two
    neighbours around [N/D] is at least as far from [N/D] as one of
    them. *)
Lemma between_neighbours (N D p1 q1 p' q' a b d A1 s : Z) :
  0 < D -> 1 <= q1 -> 1 <= q' -> 1 <= b -> b < q1 + q' ->
  s = 1 \/ s = -1 ->
  0 < d -> 0 < A1 ->
  p1 * D - N * q1 = - (d * s) ->
  p' * D - N * q' = A1 * s ->
  p' * q1 - p1 * q' = s ->
  d * b <= Z.abs (a * D - N * b) * q1
  \/ A1 * b <= Z.abs (a * D - N * b) * q'.
Proof.
  intros HD Hq1 Hq' Hb Hsum Hs Hd HA He2 He1 Hdet.
  set (E := a * D - N * b).
  set (u := s * (a * q1 - p1 * b)).
  set (v := s * (p' * b - a * q')).
  assert (Hss : s * s = 1) by (destruct Hs as [-> | ->]; reflexivity).
  assert (Hb' : b = q1 * v + q' * u).
  { unfold u, v.
    replace (q1 * (s * (p' * b - a * q')) + q' * (s * (a * q1 - p1 * b)))
      with (b * (s * (p' * q1 - p1 * q'))) by ring.
    rewrite Hdet, Hss. ring. }
  assert (H1 : s * E * q1 = D * u - b * d).
  { unfold E, u.
    replace (s * (a * D - N * b) * q1)
      with (D * (s * (a * q1 - p1 * b)) + b * (s * (p1 * D - N * q1)))
      by ring.
    rewrite He2.
    replace (s * - (d * s)) with (- (d * (s * s))) by ring.
    rewrite Hss. ring. }
  assert (H2 : s * E * q' = b * A1 - D * v).
  { unfold E, v.
    replace (s * (a * D - N * b) * q')
      with (b * (s * (p' * D - N * q')) - D * (s * (p' * b - a * q')))
      by ring.
    rewrite He1.
    replace (s * (A1 * s)) with (A1 * (s * s)) by ring.
    rewrite Hss. ring. }
  assert (Habs : Z.abs (s * E) = Z.abs E).
  { destruct Hs as [-> | ->]; [now rewrite Z.mul_1_l|].
    replace (-1 * E) with (- E) by ring. apply Z.abs_opp. }
  assert (Hcase : u <= 0 \/ v <= 0).
  { destruct (Z.le_gt_cases u 0) as [L | G]; [now left|].
    destruct (Z.le_gt_cases v 0) as [L' | G']; [now right|].
    exfalso.
    assert (q1 * 1 <= q1 * v) by (apply Z.mul_le_mono_nonneg_l; lia).
    assert (q' * 1 <= q' * u) by (apply Z.mul_le_mono_nonneg_l; lia).
    lia. }
  destruct Hcase as [Hu | Hv].
  - left. rewrite <- Habs.
    assert (Hneg : s * E * q1 <= - (b * d)).
    { rewrite H1.
      assert (D * u <= 0) by (apply Z.mul_nonneg_nonpos; lia). lia. }
    assert (Hlow : - (s * E) * q1 <= Z.abs (s * E) * q1).
    { apply Z.mul_le_mono_nonneg_r; [lia|]. lia. }
    lia.
  - right. rewrite <- Habs.
    assert (Hpos : b * A1 <= s * E * q').
    { rewrite H2.
      assert (D * v <= 0) by (apply Z.mul_nonneg_nonpos; lia). lia. }
    assert (Hlow : s * E * q' <= Z.abs (s * E) * q').
    { apply Z.mul_le_mono_nonneg_r; [lia|]. lia. }
    lia.
Qed.

(** From the candidate on the side of [a/b] to the one that was
    chosen. *)
Lemma best_of_two (b E qr qc Ar Ac M dr : Z) :
  0 < qr -> 0 < qc -> 0 <= Ar -> 0 < dr -> 1 <= b -> 0 <= E ->
  Ac * b <= E * qc -> Ar * qc <= Ac * qr -> M * qr = dr * Ar ->
  M * b <= E * dr.
Proof.
  intros Hqr Hqc HAr Hdr Hb HE Hside Hnear HM.
  assert (H1 : Ar * qc * b <= Ac * qr * b)
    by (apply Z.mul_le_mono_nonneg_r; lia).
  assert (H2 : Ac * b * qr <= E * qc * qr)
    by (apply Z.mul_le_mono_nonneg_r; lia).
  assert (H3 : Ar * b * qc <= E * qr * qc).
  { replace (Ar * b * qc) with (Ar * qc * b) by ring.
    replace (E * qr * qc) with (E * qc * qr) by ring.
    replace (Ac * qr * b) with (Ac * b * qr) in H1 by ring. lia. }
  assert (H4 : Ar * b <= E * qr)
    by (apply (Z.mul_le_mono_pos_r _ _ qc); assumption).
  apply (Z.mul_le_mono_pos_r _ _ qr); [exact Hqr|].
  replace (M * b * qr) with (M * qr * b) by ring. rewrite HM.
  replace (dr * Ar * b) with (dr * (Ar * b)) by ring.
  replace (E * dr * qr) with (dr * (E * qr)) by ring.
  apply Z.mul_le_mono_nonneg_l; lia.
Qed.

(** [limit_denominator] on a fraction in lowest terms, of magnitude below
    one: no fraction [a/b] with [1 <= b <= max] is nearer to the fraction
    than the result. *)
Lemma limit_denominator_best (x : fraction) (max : Z) :
  1 <= max -> 0 < denominator x ->
  Z.gcd (numerator x) (denominator x) = 1 ->
  Z.abs (numerator x) < denominator x \/ denominator x = 1 ->
  exists r,
    limit_denominator x max = Ret r
    /\ 0 < denominator r
    /\ forall a b : Z,
         1 <= b <= max ->
         Z.abs (numerator r * denominator x - numerator x * denominator r)
         * b
         <= Z.abs (a * denominator x - numerator x * b) * denominator r.
Proof.
  intros Hmax Hd Hg Hunit. unfold limit_denominator.
  replace (max <? 1) with false by (symmetry; apply Z.ltb_ge; lia).
  destruct (denominator x <=? max) eqn:Hsmall.
  - apply Z.leb_le in Hsmall. exists x. split; [reflexivity|].
    split; [exact Hd|]. intros a b Hb.
    replace (numerator x * denominator x - numerator x * denominator x)
      with 0 by ring.
    cbn [Z.abs Z.mul]. apply Z.mul_nonneg_nonneg; [apply Z.abs_nonneg | lia].
  - apply Z.leb_gt in Hsmall.
    set (N := numerator x) in *. set (D := denominator x) in *.
    assert (Hunit' : - D < N < D) by lia.
    assert (Hinv : cf_inv max N D 0 1 1 0 N D).
    { split; [lia|]. split; [exact Hg|]. split; [lia|].
      split; [lia|]. split; [lia|]. left. repeat split. }
    assert (Hdet : cf_det N D 0 1 1 0 N D).
    { split; [ring|]. split; [ring|]. right. reflexivity. }
    destruct (convergents_state max N D Hmax Hsmall Hunit'
                (Z.to_nat (3 * max + 3)) 0 1 1 0 _ _ Hinv Hdet ltac:(lia))
      as (p0 & q0 & p1 & q1 & n & d & -> & Hinv' & Hdet' & Hbreak).
    cbn [bind].
    destruct (exit_signs max N D Hmax Hsmall Hunit' _ _ _ _ _ _
                Hinv' Hdet' Hbreak)
      as (s & Hs & Hq1 & Hqk & Hsum & Hdpos & HA1 & He2 & He1 & Hnb).
    destruct (exit_errors max N D Hmax Hsmall Hunit' _ _ _ _ _ _
                Hinv' Hdet' Hbreak)
      as (_ & _ & HA2abs & HA1abs & _ & _ & _ & _).
    clear Hinv Hdet Hinv' Hdet' Hbreak Hunit Hunit' Hg.
    replace (q1 =? 0) with false by (symmetry; apply Z.eqb_neq; lia).
    set (k := (max - q0) / q1) in *.
    set (q' := q0 + k * q1) in *. set (p' := p0 + k * p1) in *.
    destruct (Fraction_pos p' q' ltac:(lia))
      as (b1 & -> & Hb1d & _ & Hb1r & _).
    destruct (Fraction_pos p1 q1 ltac:(lia))
      as (b2 & -> & Hb2d & _ & Hb2r & _).
    cbn [bind].
    pose proof (reduced_error N D p' q' (numerator b1) (denominator b1)
                  Hb1r ltac:(lia) ltac:(lia)) as HM1.
    pose proof (reduced_error N D p1 q1 (numerator b2) (denominator b2)
                  Hb2r ltac:(lia) ltac:(lia)) as HM2.
    rewrite HA1abs in HM1. rewrite HA2abs in HM2.
    set (M1 := Z.abs (numerator b1 * D - N * denominator b1)) in *.
    set (M2 := Z.abs (numerator b2 * D - N * denominator b2)) in *.
    set (d1 := denominator b1) in *. set (d2 := denominator b2) in *.
    set (A1 := n - k * d) in *.
    pose proof (compare_errors M1 M2 d1 d2 q1 q' d A1 D
                  ltac:(lia) ltac:(lia) ltac:(lia) ltac:(lia) ltac:(lia)
                  HM2 HM1) as Hiff.
    change (closer_or_equal b2 b1 x)
      with (M2 * (d1 * D) <=? M1 * (d2 * D)).
    destruct (M2 * (d1 * D) <=? M1 * (d2 * D)) eqn:Hcmp.
    + apply Z.leb_le in Hcmp. apply Hiff in Hcmp.
      exists b2. split; [reflexivity|]. split; [lia|].
      intros a b Hb. fold D N d2 M2.
      pose proof (Z.abs_nonneg (a * D - N * b)) as HE.
      destruct (between_neighbours N D p1 q1 p' q' a b d A1 s
                  ltac:(lia) Hq1 Hqk ltac:(lia) ltac:(lia) Hs Hdpos HA1
                  He2 He1 Hnb) as [Hside | Hside].
      * apply (best_of_two b _ q1 q1 d d M2 d2); try lia; assumption.
      * apply (best_of_two b _ q1 q' d A1 M2 d2); try lia; assumption.
    + apply Z.leb_gt in Hcmp.
      assert (Hlt : A1 * q1 <= d * q').
      { destruct (Z.le_gt_cases (d * q') (A1 * q1)) as [H | H]; [|lia].
        apply Hiff in H. lia. }
      exists b1. split; [reflexivity|]. split; [lia|].
      intros a b Hb. fold D N d1 M1.
      pose proof (Z.abs_nonneg (a * D - N * b)) as HE.
      destruct (between_neighbours N D p1 q1 p' q' a b d A1 s
                  ltac:(lia) Hq1 Hqk ltac:(lia) ltac:(lia) Hs Hdpos HA1
                  He2 He1 Hnb) as [Hside | Hside].
      * apply (best_of_two b _ q' q1 A1 d M1 d1); try lia; assumption.
      * apply (best_of_two b _ q' q' A1 A1 M1 d1); try lia; assumption.
Qed.

(** The distance of two fractions, as one fraction. *)
Lemma Qfrac_distance (n d N D : Z) :
  0 < d -> 0 < D ->
  (Qabs (inject_Z n / inject_Z d - inject_Z N / inject_Z D)
   == inject_Z (Z.abs (n * D - N * d)) / inject_Z (d * D))%Q.
Proof.
  intros Hd HD.
  pose proof (inject_Z_nonzero d ltac:(lia)) as Hd'.
  pose proof (inject_Z_nonzero D ltac:(lia)) as HD'.
  assert (Hw : 0 < d * D) by (apply Z.mul_pos_pos; assumption).
  assert (E : (inject_Z n / inject_Z d - inject_Z N / inject_Z D
               == inject_Z (n * D - N * d) / inject_Z (d * D))%Q).
  { unfold Z.sub. rewrite inject_Z_plus, inject_Z_opp, !inject_Z_mult.
    field. split; assumption. }
  rewrite E. unfold Qdiv. rewrite Qabs_Qmult, Qabs_Qinv.
  assert (Hpos : (Qabs (inject_Z (d * D)) == inject_Z (d * D))%Q).
  { apply Qabs_pos. rewrite <- (Zle_Qle 0). lia. }
  rewrite Hpos. reflexivity.
Qed.

(** The order of two such distances. *)
Lemma Qfrac_nearer (n d a b N D : Z) :
  0 < d -> 0 < b -> 0 < D ->
  Z.abs (n * D - N * d) * b <= Z.abs (a * D - N * b) * d ->
  (Qabs (inject_Z n / inject_Z d - inject_Z N / inject_Z D)
   <= Qabs (inject_Z a / inject_Z b - inject_Z N / inject_Z D))%Q.
Proof.
  intros Hd Hb HD H.
  rewrite (Qfrac_distance n d N D Hd HD), (Qfrac_distance a b N D Hb HD).
  set (z1 := Z.abs (n * D - N * d)) in *.
  set (z2 := Z.abs (a * D - N * b)) in *.
  assert (Hw1 : (0 < inject_Z (d * D))%Q)
    by (rewrite <- (Zlt_Qlt 0); apply Z.mul_pos_pos; assumption).
  assert (Hw2 : (0 < inject_Z (b * D))%Q)
    by (rewrite <- (Zlt_Qlt 0); apply Z.mul_pos_pos; assumption).
  apply Qle_shift_div_r; [exact Hw1|].
  assert (E : (inject_Z z2 / inject_Z (b * D) * inject_Z (d * D)
               == inject_Z z2 * inject_Z (d * D) / inject_Z (b * D))%Q).
  { field. intros C. rewrite C in Hw2. discriminate. }
  rewrite E. apply Qle_shift_div_l; [exact Hw2|].
  rewrite <- !inject_Z_mult, <- Zle_Qle.
  replace (z1 * (b * D)) with (z1 * b * D) by ring.
  replace (z2 * (d * D)) with (z2 * d * D) by ring.
  apply Z.mul_le_mono_nonneg_r; [lia | exact H].
Qed.

(** The fraction that [fractional] shows is a best approximation of the
    remainder of the value: no fraction with a denominator from 1 to
    1000 is nearer to it. *)
Lemma fractional_best (value : pyval) (x : spec_float) :
  float_ value = Ret x ->
  is_finite x = true -> valid_binary prec emax x = true ->
  exists n d : Z,
    1 <= d <= 1000
    /\ (forall a b : Z,
           1 <= b <= 1000 ->
           (Qabs (inject_Z n / inject_Z d
                  - (SF2Q x - inject_Z (Qtrunc (SF2Q x))))
            <= Qabs (inject_Z a / inject_Z b
                     - (SF2Q x - inject_Z (Qtrunc (SF2Q x)))))%Q)
    /\ fractional value
       = Ret (PyStr (spec_fractional (Qtrunc (SF2Q x)) n d)).
Proof.
  intros Hfloat Hfin Hvalid.
  destruct (fractional_core value x Hfloat Hfin Hvalid)
    as (exact & approx & Hev & Hed & Heg & Hap & Had & _ & _ & Hout).
  destruct (remainder_bounds x Hfin) as (Hunit & _).
  assert (Hnum : Z.abs (numerator exact) < denominator exact).
  { apply Qfrac_unit; [exact Hed | now rewrite Hev]. }
  destruct (limit_denominator_best exact 1000 ltac:(lia) Hed Heg
              (or_introl Hnum)) as (r & Hr & Hrd & Hbest).
  rewrite Hap in Hr. injection Hr as <-.
  exists (numerator approx), (denominator approx).
  split; [exact Had|]. split; [|exact Hout].
  intros a b Hb. rewrite <- Hev. unfold Qfrac.
  apply Qfrac_nearer; try lia. now apply Hbest.
Qed.

Lemma fractional_best_witness :
  exists n d : Z,
    1 <= d <= 1000
    /\ (Qabs (inject_Z n / inject_Z d
              - (SF2Q three_tenths
                 - inject_Z (Qtrunc (SF2Q three_tenths))))
        <= Qabs (inject_Z 1 / inject_Z 3
                 - (SF2Q three_tenths
                    - inject_Z (Qtrunc (SF2Q three_tenths)))))%Q
    /\ fractional (PyStr "0.3")
       = Ret (PyStr (spec_fractional (Qtrunc (SF2Q three_tenths)) n d)).
Proof.
  destruct (fractional_best (PyStr "0.3") three_tenths
              eq_refl eq_refl eq_refl) as (n & d & Hd & Hbest & Hout).
  exists n, d. split; [exact Hd|]. split; [|exact Hout].
  apply (Hbest 1 3). lia.
Defined.
